(** * backup.py: path filtering, tree enumeration, config cache and retention

    A shallow embedding of [BackupManager] (src/backup.py) and the
    properties its specification states about it.

    Conventions of the embedding.
    - A Python [str] is a [string]; the file and pattern names of interest are
      ASCII, where bytes and code points coincide (and for UTF-8 text the
      byte-wise order used below is the code-point order Python sorts by).
    - A [pathlib.Path] is the string [str(path)] together with what the
      filesystem holds there; [p / name] is [p +:+ "/" +:+ name] (the target is
      never the filesystem root).
    - A Python [set] of patterns is a [gset string]; a directory is a finite
      map from entry names to entries; the order in which the host lists a
      directory is a parameter ([scandir]).
    - Exceptions are values of [exn]; code that can raise returns a [result],
      and code that also changes the filesystem is a state transformer that
      keeps the filesystem reached when the exception was raised. *)

From stdpp Require Import gmap strings list sorting.
From Stdlib Require Import ZArith Ascii.

Set Warnings "-register-all".

Local Open Scope Z_scope.

(** ** Python primitives used by the program *)

Module Py.

Inductive exn :=
| ValueError
| FileExistsError
| FileNotFoundError
| IsADirectoryError
| NotADirectoryError
| AttributeError
| IndexError.

Inductive result (A : Type) :=
| Ok (a : A)
| Raise (e : exn).
Arguments Ok {A} a.
Arguments Raise {A} e.

Definition bind {A B} (r : result A) (k : A → result B) : result B :=
  match r with
  | Ok a => k a
  | Raise e => Raise e
  end.

(** [pat in s] on strings: substring containment. *)
Fixpoint contains (pat s : string) : bool :=
  String.prefix pat s ||
  match s with
  | EmptyString => false
  | String _ s' => contains pat s'
  end.

(** [s.endswith(suf)]. *)
Definition endswith (suf s : string) : bool :=
  let n := String.length s in
  let k := String.length suf in
  (k <=? n)%nat && String.eqb (String.substring (n - k) k s) suf.

(** [s[i:-j]] for literal [i ≥ 0] and [j > 0]: from index [i] up to [j]
    characters before the end, empty when the bounds cross. *)
Definition slice (i j : nat) (s : string) : string :=
  let n := String.length s in
  String.substring i (n - j - i) s.

(** [s[:k]]. *)
Definition upto (k : nat) (s : string) : string := String.substring 0 k s.

(** [s.split(sep)] for a one-character separator: never empty. *)
Fixpoint split (sep : ascii) (s : string) : list string :=
  match s with
  | EmptyString => [EmptyString]
  | String c s' =>
      if Ascii.eqb c sep then EmptyString :: split sep s'
      else match split sep s' with
           | [] => [String c EmptyString]
           | w :: ws => String c w :: ws
           end
  end.

(** [sep.join(l)]. *)
Fixpoint join (sep : string) (l : list string) : string :=
  match l with
  | [] => EmptyString
  | [x] => x
  | x :: l' => x +:+ sep +:+ join sep l'
  end.

(** [s.rfind(c)]: index of the last occurrence. *)
Fixpoint rfind (c : ascii) (s : string) : option nat :=
  match s with
  | EmptyString => None
  | String d s' =>
      match rfind c s' with
      | Some i => Some (S i)
      | None => if Ascii.eqb d c then Some 0%nat else None
      end
  end.

(** The whitespace [int] strips from an ASCII string: tab, line feed,
    vertical tab, form feed, carriage return and the space. *)
Definition isspace (c : ascii) : bool :=
  let n := N_of_ascii c in
  ((9 <=? n) && (n <=? 13) || (n =? 32))%N.

Fixpoint lstrip (s : string) : string :=
  match s with
  | String c s' => if isspace c then lstrip s' else s
  | EmptyString => EmptyString
  end.

Definition strip (s : string) : string :=
  String.rev (lstrip (String.rev (lstrip s))).

Definition digit (c : ascii) : option Z :=
  let n := N_of_ascii c in
  if ((48 <=? n) && (n <=? 57))%N then Some (Z.of_N n - 48) else None.

(** Digits of a decimal literal; [sep] tells whether an underscore may come
    next (only between two digits). *)
Fixpoint digits (acc : Z) (sep : bool) (s : string) : option Z :=
  match s with
  | EmptyString => if sep then Some acc else None
  | String c s' =>
      match digit c with
      | Some d => digits (10 * acc + d) true s'
      | None =>
          if Ascii.eqb c "_" && sep
          then match s' with
               | EmptyString => None
               | String _ _ => digits acc false s'
               end
          else None
      end
  end.

(** [int(s)] in base 10: surrounding whitespace, an optional sign, digits
    with single underscores between them; anything else is a
    [ValueError]. *)
Definition int (s : string) : result Z :=
  let body (t : string) :=
    match t with
    | EmptyString => None
    | String _ _ => digits 0 false t
    end in
  let r :=
    match strip s with
    | String "+" t => body t
    | String "-" t => Z.opp <$> body t
    | t => body t
    end in
  match r with
  | Some z => Ok z
  | None => Raise ValueError
  end.

(** Zero-padded decimal, as [strftime] prints a field. *)
Definition digit_char (d : nat) : ascii := ascii_of_nat (48 + d).

Fixpoint zpad (width : nat) (n : nat) : string :=
  match width with
  | O => EmptyString
  | S w => zpad w (n / 10) +:+ String (digit_char (n mod 10)) EmptyString
  end.

(** A stable insertion sort: [sorted(l, key=...)] where [leb x y] compares
    the keys, and [l.sort(key=..., reverse=True)] where it compares them in
    the opposite order. Equal keys keep their original order. *)
Section Sort.
Context {A : Type} (leb : A → A → bool).

Fixpoint insort (x : A) (l : list A) : list A :=
  match l with
  | [] => [x]
  | y :: l' => if leb x y then x :: y :: l' else y :: insort x l'
  end.

Fixpoint sorted (l : list A) : list A :=
  match l with
  | [] => []
  | x :: l' => insort x (sorted l')
  end.
End Sort.

End Py.

Import Py.

#[global] Instance result_bind : MBind result := λ A B k r, Py.bind r k.
#[global] Instance result_ret : MRet result := @Py.Ok.

(** ** Data model *)

(** What [json.load] returns for the values of a config record. *)
Inductive json :=
| JNull
| JBool (b : bool)
| JNum (z : Z)
| JStr (s : string)
| JArr (l : list json)
| JObj (l : list (string * json)).

(** Python truth value of a loaded setting, as [if self.auto_clean:] takes
    it. *)
Definition truthy (v : json) : bool :=
  match v with
  | JNull => false
  | JBool b => b
  | JNum z => negb (z =? 0)
  | JStr s => negb (String.eqb s "")
  | JArr l => match l with [] => false | _ => true end
  | JObj l => match l with [] => false | _ => true end
  end.

(** The config record [{"allowlist": [...], "denylist": [...], ...}]: the
    two pattern lists and every other key of the object. *)
Record record := {
  r_allowlist : list string;
  r_denylist : list string;
  r_rest : gmap string json
}.

(** A calendar date, the part of [datetime] the program uses (the time of day
    of a parsed date is midnight). *)
Record date := { year : Z; month : Z; day : Z }.

(** What the target path holds: a plain file, a directory with its entries in
    the order the host lists them, or something that is neither: [present]
    tells whether there is anything at the path (a socket, a pipe, a
    device) or nothing (a missing path, a dangling link). *)
Inductive node :=
| File (name : string) (size : N)
| Dir (name : string) (children : list node)
| Other (name : string) (present : bool).

(** The destination directory: its immediate entries by name, and the files
    of its [cache] subdirectory by name. *)
Inductive content :=
| Blob (data : string)
| Zip (members : list (string * string)).

Inductive dentry :=
| DDir
| DFile (c : content).

Record world := {
  w_dest : gmap string dentry;
  w_cache : gmap string record
}.

(** Filesystem-changing code: the result, and the filesystem left behind
    (also when an exception is raised). *)
Definition M (A : Type) : Type := world → result A * world.

(** The session object. Private attributes are fields; the public attribute
    namespace ([auto_clean] and whatever a config record added) is [attrs]. *)
Record session := {
  target : string;
  save : string;
  required_config : bool;
  dateless : bool;
  today : option date;
  arcname : string;
  allowlist : gset string;
  denylist : gset string;
  cache : string;
  preview : bool;
  attrs : gmap string json
}.

(** What [compress] did: the config-gated first run, the preview with one
    line per entry (archive path and the size shown), or a published
    archive. *)
Inductive outcome :=
| Skipped
| Previewed (lines : list (string * option N))
| Published.

Definition DEFAULT_DENYLIST : gset string :=
  {[ "__pycache__"; ".vscode"; ".zip" ]}.

(** The attributes that name mangling puts in [__dict__] under a leading
    underscore. *)
Definition private_names : list string :=
  [ "_BackupManager__target"; "_BackupManager__save";
    "_BackupManager__required_config"; "_BackupManager__dateless";
    "_BackupManager__today"; "_BackupManager__arcname";
    "_BackupManager__allowlist"; "_BackupManager__denylist";
    "_BackupManager__preview"; "_BackupManager__depth_counter"; "_cache" ].

(** A record none of whose keys spells a private attribute. Records written
    by [__save_config] are such ([info] leaves out every key that starts with
    an underscore); for the others the loop of [__init__] would replace a
    private attribute by a JSON value, which the typed fields of [session] do
    not represent. *)
Definition record_plain (r : record) : Prop :=
  ∀ k, k ∈ private_names → r_rest r !! k = None.

(** ** Paths and dates *)

(** [Path.name]: the last component of the path string. *)
Definition path_name (p : string) : string :=
  List.last (split "/" p) "".

(** [Path.suffix] of a name: from its last dot on, unless that dot is the
    first or the last character. *)
Definition path_suffix (nm : string) : string :=
  match rfind "." nm with
  | Some i =>
      if ((0 <? i) && (i <? String.length nm - 1))%nat
      then String.substring i (String.length nm - i) nm
      else ""
  | None => ""
  end.

(** [Path.stem]: the name without its suffix. *)
Definition path_stem (nm : string) : string :=
  String.substring 0 (String.length nm - String.length (path_suffix nm)) nm.

Definition is_leap (y : Z) : bool :=
  (y mod 4 =? 0) && (negb (y mod 100 =? 0) || (y mod 400 =? 0)).

Definition days_in_month (y m : Z) : Z :=
  if m =? 2 then (if is_leap y then 29 else 28)
  else if (m =? 4) || (m =? 6) || (m =? 9) || (m =? 11) then 30
  else 31.

(** [datetime(year=y, month=m, day=d)]: a [ValueError] outside the
    calendar. *)
Definition datetime (y m d : Z) : result date :=
  if (1 <=? y) && (y <=? 9999) && (1 <=? m) && (m <=? 12)
     && (1 <=? d) && (d <=? days_in_month y m)
  then Ok {| year := y; month := m; day := d |}
  else Raise ValueError.

(** [%Y] for the years of [datetime] (1 to 9999), as the C library prints
    it: the year without padding, so four digits from the year 1000 on. *)
Definition year_digits (y : nat) : string :=
  if (y <? 10)%nat then zpad 1 y
  else if (y <? 100)%nat then zpad 2 y
  else if (y <? 1000)%nat then zpad 3 y
  else zpad 4 y.

(** [strftime("%Y-%m-%d")]. *)
Definition strftime (t : date) : string :=
  year_digits (Z.to_nat (year t)) +:+ "-" +:+ zpad 2 (Z.to_nat (month t))
  +:+ "-" +:+ zpad 2 (Z.to_nat (day t)).

(** Order of [datetime] values (both at midnight). *)
Definition date_leb (a b : date) : bool :=
  (year a <? year b)
  || ((year a =? year b)
      && ((month a <? month b)
          || ((month a =? month b) && (day a <=? day b)))).

Definition node_name (n : node) : string :=
  match n with
  | File nm _ => nm
  | Dir nm _ => nm
  | Other nm _ => nm
  end.

Definition is_file (n : node) : bool :=
  match n with File _ _ => true | _ => false end.

Definition is_dir (n : node) : bool :=
  match n with Dir _ _ => true | _ => false end.

(** Results of a sequence of generators drained one after the other. *)
Fixpoint collect {A} (l : list (result (list A))) : result (list A) :=
  match l with
  | [] => Ok []
  | r :: l' => x ← r; xs ← collect l'; Ok (x ++ xs)
  end.

(** The escape sequences of [class bcolors] that the program uses. *)
Module bcolors.

Definition OKBLUE : string := String "027" "[94m".
Definition OKCYAN : string := String "027" "[96m".
Definition OKGREEN : string := String "027" "[92m".
Definition WARNING : string := String "027" "[93m".
Definition FAIL : string := String "027" "[91m".
Definition ENDC : string := String "027" "[0m".

End bcolors.

(** ** The operations of [BackupManager] *)

Module BackupManager.

(** [exclude] and [include]: a list or set of patterns is merged in, a
    single pattern is added. *)
Definition exclude (pattern : list string + string) (s : session) : session :=
  let d := match pattern with
           | inl l => denylist s ∪ list_to_set l
           | inr p => denylist s ∪ {[ p ]}
           end in
  {| target := target s; save := save s;
     required_config := required_config s; dateless := dateless s;
     today := today s; arcname := arcname s;
     allowlist := allowlist s; denylist := d;
     cache := cache s; preview := preview s; attrs := attrs s |}.

Definition include (pattern : list string + string) (s : session) : session :=
  let a := match pattern with
           | inl l => allowlist s ∪ list_to_set l
           | inr p => allowlist s ∪ {[ p ]}
           end in
  {| target := target s; save := save s;
     required_config := required_config s; dateless := dateless s;
     today := today s; arcname := arcname s;
     allowlist := a; denylist := denylist s;
     cache := cache s; preview := preview s; attrs := attrs s |}.

(** [self.__denylist = d]. *)
Definition with_denylist (d : gset string) (s : session) : session :=
  {| target := target s; save := save s;
     required_config := required_config s; dateless := dateless s;
     today := today s; arcname := arcname s;
     allowlist := allowlist s; denylist := d;
     cache := cache s; preview := preview s; attrs := attrs s |}.

(** [self.__dict__[name] = value]. *)
Definition setattr (nm : string) (v : json) (s : session) : session :=
  {| target := target s; save := save s;
     required_config := required_config s; dateless := dateless s;
     today := today s; arcname := arcname s;
     allowlist := allowlist s; denylist := denylist s;
     cache := cache s; preview := preview s;
     attrs := <[ nm := v ]> (attrs s) |}.

(** [__init__]. [target_is_file] is [self.__target.is_file()], [now] is
    [datetime.now()], and [w] the filesystem, in which the destination and
    its [cache] directory exist once the two [mkdir] calls have run. *)
Definition init (tgt sv : string) (target_is_file : bool)
    (arc : option string)
    (auto_clean required_cfg dless prev : bool)
    (now : date) (w : world) : session :=
  let arc :=
    match arc with
    | None =>
        if target_is_file then path_stem (path_name tgt) else path_name tgt
    | Some a => if endswith ".zip" a then slice 0 4 a else a
    end in
  let s :=
    {| target := tgt; save := sv;
       required_config := required_cfg; dateless := dless;
       today := if dless then None else Some now;
       arcname := if dless then arc +:+ ".zip"
                  else strftime now +:+ "-" +:+ arc +:+ ".zip";
       allowlist := ∅; denylist := ∅;
       cache := arc +:+ ".json"; preview := prev;
       attrs := {[ "auto_clean" := JBool auto_clean ]} |} in
  match (if required_cfg then w_cache w !! cache s else None) with
  | Some info =>
      let s := with_denylist ∅ s in
      let s := include (inl (r_allowlist info)) s in
      let s := exclude (inl (r_denylist info)) s in
      map_fold
        (λ nm v s,
           if bool_decide (nm ∈ ["allowlist"; "denylist"]) then s
           else setattr nm v s)
        s (r_rest info)
  | None => with_denylist DEFAULT_DENYLIST s
  end.

(** The [info] property: the record that [__save_config] writes. *)
Definition info (s : session) : record :=
  {| r_allowlist := sorted String.leb (elements (allowlist s));
     r_denylist := sorted String.leb (elements (denylist s));
     r_rest :=
       filter (λ kv, String.prefix "_" kv.1 = false
                     ∧ kv.1 ∉ ["allowlist"; "denylist"]) (attrs s) |}.

(** [isValid]: [path] is [str(path)] and [dir] is [path.is_dir()]. *)
Definition isValid (s : session) (path : string) (dir : bool) : bool :=
  let path := if dir then path +:+ "/" else path in
  let res := existsb (λ pattern, contains pattern path)
               (elements (allowlist s)) in
  if res then res
  else negb (existsb (λ pattern, contains pattern path)
               (elements (denylist s))).

(** [__namelist]: [path] is [str(path)], [n] what is found there. The
    generator is drained into the list of the pairs it yields. Every listed
    entry is paired with the enumeration of its subtree before the files
    and the folders are selected and sorted by name. *)
Fixpoint namelist (s : session) (path : string) (parent : option string)
    (n : node) {struct n} : result (list (string * string)) :=
  if negb (isValid s path (is_dir n)) then Ok []
  else
    let parent :=
      match parent with
      | None => node_name n
      | Some p => p +:+ "/" +:+ node_name n
      end in
    match n with
    | File _ _ => Ok [(path, parent)]
    | Other _ present =>
        Raise (if present then NotADirectoryError else FileNotFoundError)
    | Dir _ children =>
        let by_name (x y : node * result (list (string * string))) :=
          String.leb (node_name x.1) (node_name y.1) in
        let paths :=
          List.map
            (λ p, (p, namelist s (path +:+ "/" +:+ node_name p)
                        (Some parent) p))
            children in
        let files :=
          sorted by_name (List.filter (λ f, is_file f.1) paths) in
        let folders :=
          sorted by_name (List.filter (λ d, is_dir d.1) paths) in
        fs ← collect (snd <$> files);
        ds ← collect (snd <$> folders);
        Ok ((path +:+ "/", parent +:+ "/") :: (fs ++ ds))
    end.

(** [__find_files], one directory entry: [None] when the entry is passed
    over, the backup and its date when it is yielded, an exception when
    parsing the date raises. *)
Definition find_file (tgt : string) (file : string * dentry)
    : result (option (string * date)) :=
  let is_ddir := match file.2 with DDir => true | DFile _ => false end in
  if is_ddir || negb (String.eqb (path_suffix file.1) ".zip") then Ok None
  else
    match split "-" (upto 10 file.1) with
    | [y; m; d] =>
        y ← int y; m ← int m; d ← int d;
        date ← datetime y m d;
        let name := slice 11 4 file.1 in
        Ok (if String.eqb name tgt then Some (file.1, date) else None)
    | _ => Ok None
    end.

(** [__find_files] over the listing of the destination directory, drained
    into a list (its only caller consumes it whole before deleting
    anything). *)
Fixpoint find_files_in (tgt : string) (listing : list (string * dentry))
    : result (list (string * date)) :=
  match listing with
  | [] => Ok []
  | file :: listing' =>
      r ← find_file tgt file;
      rs ← find_files_in tgt listing';
      Ok (match r with Some b => b :: rs | None => rs end)
  end.

Definition find_files (s : session) (listing : list (string * dentry))
    : result (list (string * date)) :=
  find_files_in (slice 11 4 (arcname s)) listing.

(** [path.unlink()] on an entry of the destination directory. *)
Definition unlink (nm : string) : M () := λ w,
  match w_dest w !! nm with
  | Some (DFile _) =>
      (Ok (), {| w_dest := delete nm (w_dest w); w_cache := w_cache w |})
  | Some DDir => (Raise IsADirectoryError, w)
  | None => (Raise FileNotFoundError, w)
  end.

(** The deleting loop of [__auto_clean] over [files[1:]], [res] being the
    date of the entry before. *)
Fixpoint sweep (res : date) (files : list (string * date)) : M () := λ w,
  match files with
  | [] => (Ok (), w)
  | (path, d) :: files' =>
      if (month d =? month res) && (year d =? year res)
      then match unlink path w with
           | (Ok _, w') => sweep d files' w'
           | (Raise e, w') => (Raise e, w')
           end
      else sweep d files' w
  end.

(** The entries [__auto_clean] keeps from [__find_files]. *)
Definition selected (now : date) (f : string * date) : bool :=
  (year f.2 <? year now) || (month f.2 <? month now).

(** [__save_config]. *)
Definition save_config (s : session) : M () := λ w,
  (Ok (), {| w_dest := w_dest w;
             w_cache := <[ cache s := info s ]> (w_cache w) |}).

(** [tempfile.NamedTemporaryFile(prefix=..., dir=save, delete=False)]: the
    first of the candidate names that is not taken is created, empty;
    [names] are the random parts the host draws. *)
Fixpoint mkstemp (prefix : string) (names : list string) : M string := λ w,
  match names with
  | [] => (Raise FileExistsError, w)
  | r :: names' =>
      let nm := prefix +:+ r in
      match w_dest w !! nm with
      | None =>
          (Ok nm, {| w_dest := <[ nm := DFile (Blob "") ]> (w_dest w);
                     w_cache := w_cache w |})
      | Some _ => mkstemp prefix names' w
      end
  end.

(** The archive written through the still open temporary file. *)
Definition write_zip (temp : string) (members : list (string * string))
    : M () := λ w,
  (Ok (), {| w_dest := <[ temp := DFile (Zip members) ]> (w_dest w);
             w_cache := w_cache w |}).

(** [shutil.move(src, save/dst)] between names of the destination
    directory: a rename that replaces a file of that name; when [dst] is a
    directory the file goes inside it and leaves the listing. *)
Definition move (src dst : string) : M () := λ w,
  match w_dest w !! src with
  | None => (Raise FileNotFoundError, w)
  | Some f =>
      let d :=
        match w_dest w !! dst with
        | Some DDir => delete src (w_dest w)
        | _ => <[ dst := f ]> (delete src (w_dest w))
        end in
      (Ok (), {| w_dest := d; w_cache := w_cache w |})
  end.

Section Host.

(** The host: the order in which it lists the destination directory, and
    [os.path.isfile] and [os.path.getsize] on source paths. *)
Context (scandir : gmap string dentry → list (string * dentry)).
Context (isfile : string → bool) (getsize : string → N).

(** [__auto_clean]. *)
Definition auto_clean (s : session) : M () := λ w,
  if dateless s then (Ok (), w)
  else
    match today s with
    | None => (Raise AttributeError, w)
    | Some now =>
        match find_files s (scandir (w_dest w)) with
        | Raise e => (Raise e, w)
        | Ok found =>
            let files := List.filter (selected now) found in
            if (length files <? 2)%nat then (Ok (), w)
            else
              match sorted (λ x y, date_leb y.2 x.2) files with
              | [] => (Raise IndexError, w)
              | latest :: older => sweep latest.2 older w
              end
        end
    end.

(** [compress]: [tree] is what the target path holds. Console output is
    kept only as the lines of a preview. *)
Definition compress (s : session) (tree : node) (names : list string)
    : M outcome := λ w,
  if required_config s
     && negb (bool_decide (is_Some (w_cache w !! cache s)))
  then (Ok Skipped, (save_config s w).2)
  else
    let w := if required_config s then (save_config s w).2 else w in
    match mkstemp (path_name (target s) +:+ "_") names w with
    | (Raise e, w) => (Raise e, w)
    | (Ok temp, w) =>
        if preview s
        then
          match namelist s (target s) None tree with
          | Raise e => (Raise e, w)
          | Ok entries =>
              (Ok (Previewed
                     (List.map
                        (λ e, (e.2, if isfile e.1 && negb (getsize e.1 =? 0)%N
                                    then Some (getsize e.1) else None))
                        entries)),
               w)
          end
        else
          match namelist s (target s) None tree with
          | Raise e => (Raise e, (write_zip temp [] w).2)
          | Ok entries =>
              let w := (write_zip temp entries w).2 in
              match move temp (arcname s) w with
              | (Raise e, w) => (Raise e, w)
              | (Ok _, w) =>
                  match attrs s !! "auto_clean" with
                  | None => (Raise AttributeError, w)
                  | Some flag =>
                      if truthy flag
                      then match auto_clean s w with
                           | (Raise e, w) => (Raise e, w)
                           | (Ok _, w) => (Ok Published, w)
                           end
                      else (Ok Published, w)
                  end
              end
          end
    end.

End Host.

(** The [namelist] and [arcnamelist] properties: the source paths and the
    archive paths of the target's enumeration. *)
Definition namelist_property (s : session) (tree : node)
    : result (list string) :=
  match namelist s (target s) None tree with
  | Ok paths => Ok (fst <$> paths)
  | Raise e => Raise e
  end.

Definition arcnamelist (s : session) (tree : node) : result (list string) :=
  match namelist s (target s) None tree with
  | Ok paths => Ok (snd <$> paths)
  | Raise e => Raise e
  end.

(** The [arcname] property: [self.__arcname[:-4]]. *)
Definition arcname_property (s : session) : string := slice 0 4 (arcname s).

(** [__str__]: where the archive is published. *)
Definition str (s : session) : string := save s +:+ "/" +:+ arcname s.

(** [__color_path]: the coloured text, and [__depth_counter] after the
    call. [path[-1]] raises on the empty string; the list of parts is never
    empty. *)
Definition color_path (path : string) (depth_counter : nat)
    : result (string * nat) :=
  let colors := [bcolors.OKBLUE; bcolors.OKCYAN; bcolors.OKGREEN] in
  match String.get (String.length path - 1) path with
  | None => Raise IndexError
  | Some c =>
      let is_dir := Ascii.eqb c "/" in
      let path := split "/" path in
      let path := if is_dir then removelast path else path in
      match path with
      | [] => Raise IndexError
      | _ =>
          let res :=
            imap (λ i p, nth (i mod length colors) colors "" +:+ p)
              (take (length path - 1) path) in
          let res :=
            res ++ [ if is_dir
                     then nth ((length path - 1) mod length colors) colors ""
                          +:+ List.last path "" +:+ "/"
                     else bcolors.WARNING +:+ List.last path "" ] in
          let depth := length res in
          Ok (join "/" res +:+ bcolors.ENDC,
              if (depth_counter <? depth)%nat then depth
              else depth_counter)
      end
  end.

End BackupManager.

(** ** The command line: [main] *)

(** The parsed arguments: [save], the [-f PATH] and the [-n PATH NAME]
    options in the order given (none given is the empty list), and the
    three global flags. The paths are taken as resolved already. *)
Record args := {
  a_save : string;
  a_f : list string;
  a_n : list (string * string);
  a_force : bool;
  a_dateless : bool;
  a_preview : bool
}.

Section Main.

(** The host during the run: how it lists the destination, [os.path.isfile]
    and [os.path.getsize], what each target path holds, the candidate names
    of the temporary file of each [compress] call (numbered from 0), and the
    date. *)
Context (scandir : gmap string dentry → list (string * dentry)).
Context (isfile : string → bool) (getsize : string → N).
Context (tree_of : string → node) (temp_names : nat → list string).
Context (now : date).

(** [BackupManager(path, save, arcname=name, auto_clean=not force,
    required_config=not force, dateless=dateless,
    preview=args.preview).compress()], the [k]-th of the run. *)
Definition backup_one (a : args) (k : nat) (path : string)
    (name : option string) : M outcome := λ w,
  let s :=
    BackupManager.init path (a_save a) (is_file (tree_of path)) name
      (negb (a_force a)) (negb (a_force a)) (a_dateless a) (a_preview a)
      now w in
  BackupManager.compress scandir isfile getsize s (tree_of path)
    (temp_names k) w.

(** The targets of the two loops, the [-f] ones first. *)
Definition jobs (a : args) : list (string * option string) :=
  ((λ p, (p, None)) <$> a_f a) ++ ((λ pn, (pn.1, Some pn.2)) <$> a_n a).

(** The loops: an exception of a [compress] ends the run. *)
Fixpoint run (a : args) (k : nat) (js : list (string * option string))
    : M () := λ w,
  match js with
  | [] => (Ok (), w)
  | (path, name) :: js' =>
      match backup_one a k path name w with
      | (Raise e, w') => (Raise e, w')
      | (Ok _, w') => run a (S k) js' w'
      end
  end.

Definition main (a : args) : M () := run a 0 (jobs a).

End Main.

Import BackupManager.

(** * Vocabulary of the properties *)

(** ** Paths and patterns *)

(** [pat] occurs in [s]: the meaning of Python's [pat in s]. *)
Definition occurs_in (pat s : string) : Prop :=
  ∃ pre post, s = pre +:+ pat +:+ post.

(** The string [isValid] looks at. *)
Definition evaluated (path : string) (dir : bool) : string :=
  if dir then path +:+ "/" else path.

(** [str(path / c.name)] and the archive path [parent / n.name]. *)
Definition child_path (path : string) (c : node) : string :=
  path +:+ "/" +:+ node_name c.

Definition arc_path (parent : option string) (n : node) : string :=
  match parent with
  | None => node_name n
  | Some p => p +:+ "/" +:+ node_name n
  end.

(** What follows a path in the paths below it: nothing, or a separator and
    more. *)
Definition tail (r : string) : Prop :=
  match r with
  | EmptyString => True
  | String c _ => c = "/"%char
  end.

(** ** Trees *)

(** The sort key [lambda x: x.name], and the order it leaves a list in. *)
Definition name_leb (x y : node) : bool :=
  String.leb (node_name x) (node_name y).

Definition by_name (x y : node) : Prop := name_leb x y = true.

(** The entry a plain file contributes. *)
Definition file_entry (path arc : string) (f : node) : string * string :=
  (child_path path f, arc +:+ "/" +:+ node_name f).

(** A name a directory entry can have: not empty, no separator in it. *)
Fixpoint no_sep (nm : string) : bool :=
  match nm with
  | EmptyString => true
  | String c nm' => negb (Ascii.eqb c "/") && no_sep nm'
  end.

Definition plain (nm : string) : bool :=
  negb (String.eqb nm "") && no_sep nm.

(** A tree as a filesystem holds it: in every directory the entries have
    plain names, no two the same. *)
Fixpoint well_named (n : node) : bool :=
  match n with
  | Dir _ ch =>
      forallb (λ c, plain (node_name c)) ch
      && bool_decide (NoDup (node_name <$> ch))
      && forallb well_named ch
  | _ => true
  end.

(** The same tree, its directories listed by the host in another order. *)
Inductive same_tree : node → node → Prop :=
| same_file nm sz : same_tree (File nm sz) (File nm sz)
| same_other nm p : same_tree (Other nm p) (Other nm p)
| same_dir nm ch ch1 ch2 :
    ch ≡ₚ ch1 → Forall2 same_tree ch1 ch2 →
    same_tree (Dir nm ch) (Dir nm ch2).

(** [located path root q m]: the tree found at [path] holds [m] at the path
    [q], as the root itself or somewhere below it. *)
Inductive located : string → node → string → node → Prop :=
| located_here path n : located path n path n
| located_below path nm ch c q m :
    c ∈ ch → located (child_path path c) c q m →
    located path (Dir nm ch) q m.

(** ** The constructor *)

(** [__init__] in two steps: the session as it stands before the config
    branch, and the merge of a loaded record into it. *)
Definition base_name (tgt : string) (isf : bool) (arc : option string)
    : string :=
  match arc with
  | None => if isf then path_stem (path_name tgt) else path_name tgt
  | Some a => if endswith ".zip" a then slice 0 4 a else a
  end.

Definition before_config (tgt sv : string) (isf : bool) (arc : option string)
    (ac rc dl pv : bool) (now : date) : session :=
  {| target := tgt; save := sv;
     required_config := rc; dateless := dl;
     today := if dl then None else Some now;
     arcname := if dl then base_name tgt isf arc +:+ ".zip"
                else strftime now +:+ "-" +:+ base_name tgt isf arc
                     +:+ ".zip";
     allowlist := ∅; denylist := ∅;
     cache := base_name tgt isf arc +:+ ".json"; preview := pv;
     attrs := {[ "auto_clean" := JBool ac ]} |}.

Definition load_rest (rest : gmap string json) (s : session) : session :=
  map_fold
    (λ nm v s,
       if bool_decide (nm ∈ ["allowlist"; "denylist"]) then s
       else setattr nm v s)
    s rest.

Definition load_record (info : record) (s : session) : session :=
  load_rest (r_rest info)
    (exclude (inl (r_denylist info))
       (include (inl (r_allowlist info)) (with_denylist ∅ s))).

(** ** Retention *)

(** Chronological order of (year, month). *)
Definition month_before (a b : date) : Prop :=
  year a < year b ∨ (year a = year b ∧ month a < month b).

(** The (year, month) of a dated backup. *)
Definition month_of (f : string * date) : Z * Z := (year f.2, month f.2).

(** The order [files.sort(key=lambda x: x[1], reverse=True)] leaves. *)
Definition newest_first (x y : string * date) : Prop :=
  date_leb y.2 x.2 = true.

(** What [__find_files] yields for one entry when nothing raises. *)
Definition found (tgt : string) (file : string * dentry)
    : option (string * date) :=
  match find_file tgt file with
  | Ok r => r
  | Raise _ => None
  end.

(** The deleting loop of [__auto_clean] without the filesystem: the entries
    it unlinks, and the entries it passes over. *)
Definition same_month (d res : date) : bool :=
  (month d =? month res) && (year d =? year res).

Fixpoint doomed (res : date) (files : list (string * date))
    : list (string * date) :=
  match files with
  | [] => []
  | f :: files' =>
      if same_month f.2 res then f :: doomed f.2 files'
      else doomed f.2 files'
  end.

Fixpoint spared (res : date) (files : list (string * date))
    : list (string * date) :=
  match files with
  | [] => []
  | f :: files' =>
      if same_month f.2 res then spared f.2 files'
      else f :: spared f.2 files'
  end.

(** * Concrete inputs of the examples *)

Definition a_day : date := {| year := 2023; month := 12; day := 10 |}.

(** A session on [/home/u/proj] saving to [/backup] on that day, with the
    given filter sets and flags. *)
Definition a_session (allow deny : gset string)
    (required_cfg prev : bool) (flag : json) : session :=
  {| target := "/home/u/proj"; save := "/backup";
     required_config := required_cfg; dateless := false;
     today := Some a_day; arcname := "2023-12-10-proj.zip";
     allowlist := allow; denylist := deny;
     cache := "proj.json"; preview := prev;
     attrs := {[ "auto_clean" := flag ]} |}.

(** Forced with clean-up and an allow pattern; config required and
    previewing; forced without clean-up. *)
Definition a_filter : session :=
  a_session {[ "keep" ]} DEFAULT_DENYLIST false false (JBool true).

Definition a_gated_preview : session :=
  a_session ∅ DEFAULT_DENYLIST true true (JBool true).

Definition a_forced : session :=
  a_session ∅ DEFAULT_DENYLIST false false (JBool false).

(** A target tree, and the same tree listed in another order. *)
Definition a_cache_dir : node :=
  Dir "__pycache__" [File "keep.pyc" 7].

Definition a_tree : node :=
  Dir "proj" [File "b.txt" 1; Dir "src" [File "m.py" 3; File "lib.py" 4];
              a_cache_dir; File "a.txt" 2].

Definition a_tree_relisted : node :=
  Dir "proj" [Dir "src" [File "lib.py" 4; File "m.py" 3]; File "b.txt" 1;
              a_cache_dir; File "a.txt" 2].

(** An empty destination, and one whose cache holds the record of [proj]. *)
Definition no_files : world := {| w_dest := ∅; w_cache := ∅ |}.

Definition a_record : record :=
  {| r_allowlist := ["keep"]; r_denylist := ["build"];
     r_rest := {[ "auto_clean" := JBool false ]} |}.

Definition a_cached_world : world :=
  {| w_dest := ∅; w_cache := {[ "proj.json" := a_record ]} |}.

(** A host that lists a directory in the order of the map, and sees every
    source path that does not end in a separator as a file of one byte. *)
Definition a_scandir (d : gmap string dentry) : list (string * dentry) :=
  map_to_list d.

Definition an_isfile (p : string) : bool := negb (endswith "/" p).

Definition a_getsize (p : string) : N := 1%N.

(** Destinations for the retention examples. *)
Definition a_backup : dentry := DFile (Zip []).

Definition an_invalid_date_listing : list (string * dentry) :=
  [("2023-11-20-proj.zip", a_backup); ("2023-13-45-proj.zip", a_backup)].

Definition a_named_listing : list (string * dentry) :=
  [("my-old-bak.zip", a_backup)].

Definition a_future_world : world :=
  {| w_dest := {[ "2024-01-05-proj.zip" := a_backup;
                  "2024-01-20-proj.zip" := a_backup ]};
     w_cache := ∅ |}.

Definition a_spec_world : world :=
  {| w_dest := {[ "2023-11-02-proj.zip" := a_backup;
                  "2023-11-20-proj.zip" := a_backup;
                  "2023-12-05-proj.zip" := a_backup ]};
     w_cache := ∅ |}.

(** [admitted s path root q m]: [m], a file or a directory, sits at the
    path [q] of the tree found at [path], and it and every directory above
    it up to the root pass [isValid]. *)
Inductive admitted (s : session) : string → node → string → node → Prop :=
| admitted_here path n :
    isValid s path (is_dir n) = true → is_file n || is_dir n = true →
    admitted s path n path n
| admitted_below path nm ch c q m :
    isValid s path true = true → c ∈ ch →
    admitted s (child_path path c) c q m →
    admitted s path (Dir nm ch) q m.

(** A string of decimal digits, and the number it writes (continuing from
    [acc]). *)
Fixpoint all_digits (s : string) : bool :=
  match s with
  | EmptyString => true
  | String c s' =>
      match digit c with Some _ => all_digits s' | None => false end
  end.

Fixpoint value (acc : Z) (s : string) : Z :=
  match s with
  | EmptyString => acc
  | String c s' => value (10 * acc + default 0 (digit c)) s'
  end.

(** ** Backups held by a destination *)

(** [backup s d f]: the destination [d] holds a file that [__find_files]
    yields for the session [s], [f] being its name and the date read from
    it. *)
Definition backup (s : session) (d : gmap string dentry)
    (f : string * date) : Prop :=
  ∃ c, d !! f.1 = Some (DFile c)
       ∧ find_file (slice 11 4 (arcname s)) (f.1, DFile c) = Ok (Some f).


(** * The first run of [main] *)

(** The config file of a target of the run, and the record a first run
    writes there. *)
Definition job_cache (tree_of : string → node) (j : string * option string)
    : string :=
  base_name j.1 (is_file (tree_of j.1)) j.2 +:+ ".json".

Definition job_record (tree_of : string → node) (now : date) (a : args)
    (j : string * option string) : record :=
  info (with_denylist DEFAULT_DENYLIST
          (before_config j.1 (a_save a) (is_file (tree_of j.1)) j.2
             true true (a_dateless a) (a_preview a) now)).

(** Inputs of the [main] examples: a host where every target path holds
    [a_tree] and every temporary file can be named [proj_x]; a forced run
    on one target, and a first run on two. *)
Definition a_tree_of (p : string) : node := a_tree.

Definition some_temp_names (k : nat) : list string := ["x"].

Definition forced_args : args :=
  {| a_save := "/backup"; a_f := ["/home/u/proj"]; a_n := [];
     a_force := true; a_dateless := false; a_preview := false |}.

Definition first_args : args :=
  {| a_save := "/backup"; a_f := ["/home/u/proj"];
     a_n := [("/home/u/proj", "site")];
     a_force := false; a_dateless := false; a_preview := false |}.

(** ** The order of the enumeration *)

(** [inside d x]: [d] is the source path of a directory entry (it ends in a
    separator) and the source path [x] starts with it. *)
Definition inside (d x : string) : Prop :=
  ∃ p r, d = p +:+ "/" ∧ x = d +:+ r.

(** No entry of [l] comes before the entry of a directory it is inside. *)
Definition parents_first (l : list (string * string)) : Prop :=
  ∀ l1 e l2 x, l = l1 ++ e :: l2 → x ∈ l1 → ¬ inside e.1 x.1.

(** ** Console text *)

(** The escape character, strings without it, and the text a terminal
    shows: every sequence from an escape character to the next [m] is taken
    out. *)
Definition ESC : ascii := "027".

Fixpoint no_esc (s : string) : bool :=
  match s with
  | EmptyString => true
  | String c s' => negb (Ascii.eqb c ESC) && no_esc s'
  end.

Fixpoint shown (in_sequence : bool) (s : string) : string :=
  match s with
  | EmptyString => EmptyString
  | String c s' =>
      if in_sequence then shown (negb (Ascii.eqb c "m")) s'
      else if Ascii.eqb c ESC then shown true s'
           else String c (shown false s')
  end.

(** The number of separators in a path. *)
Fixpoint count_sep (s : string) : nat :=
  match s with
  | EmptyString => 0
  | String c s' => (if Ascii.eqb c "/" then 1 else 0) + count_sep s'
  end.

(** * Properties *)

(** ** Strings *)

Lemma append_cons (c : ascii) (s t : string) :
  String c s +:+ t = String c (s +:+ t).
Proof. reflexivity. Qed.

Lemma append_nil_l (t : string) : "" +:+ t = t.
Proof. reflexivity. Qed.

Lemma prefix_app (p s : string) :
  String.prefix p s = true ↔ ∃ t, s = p +:+ t.
Proof.
  revert s. induction p as [|a p IH]; intros [|b s]; simpl;
    rewrite ?append_nil_l.
  - split; [intros _; by exists "" | reflexivity].
  - split; [intros _; by exists (String b s) | reflexivity].
  - split; [discriminate | intros [t Ht]; discriminate].
  - destruct (ascii_dec a b) as [->|Hne].
    + rewrite IH. split; intros [t Ht]; exists t;
        rewrite append_cons in *; congruence.
    + split; [discriminate|]. intros [t Ht]. rewrite append_cons in Ht.
      congruence.
Qed.

Lemma contains_eq (pat s : string) :
  contains pat s =
  String.prefix pat s
  || match s with EmptyString => false | String _ s' => contains pat s' end.
Proof. by destruct s. Qed.

Lemma contains_occurs (pat s : string) :
  contains pat s = true ↔ occurs_in pat s.
Proof.
  unfold occurs_in. induction s as [|c s IH]; rewrite contains_eq.
  - rewrite orb_false_r, prefix_app. split.
    + intros [t Ht]. by exists "", t.
    + intros (pre & post & H). destruct pre as [|c pre].
      * by exists post.
      * rewrite append_cons in H. discriminate.
  - rewrite orb_true_iff, prefix_app, IH. split.
    + intros [[t Ht]|(pre & post & H)].
      * by exists "", t.
      * exists (String c pre), post. rewrite append_cons. by rewrite H.
    + intros (pre & post & H). destruct pre as [|c' pre].
      * left. by exists post.
      * right. exists pre, post. rewrite append_cons in H. congruence.
Qed.

Lemma existsb_elements (f : string → bool) (X : gset string) :
  existsb f (elements X) = true ↔ ∃ x, x ∈ X ∧ f x = true.
Proof.
  rewrite existsb_exists. split; intros (x & Hx & Hf); exists x; split; auto.
  - by apply elem_of_elements, list_elem_of_In.
  - by apply list_elem_of_In, elem_of_elements.
Qed.

(** ** PathFilter *)

(** C7. [isValid] is true exactly when the evaluated path string (with the
    separator appended for a directory) contains some allow pattern, or
    contains no deny pattern: an allow match yields true whatever the deny
    set holds, and without an allow match the answer is that no deny pattern
    occurs. *)
Theorem isValid_allow_then_deny (s : session) (path : string) (dir : bool) :
  isValid s path dir = true
  ↔ (∃ a, a ∈ allowlist s ∧ occurs_in a (evaluated path dir))
    ∨ (∀ d, d ∈ denylist s → ¬ occurs_in d (evaluated path dir)).
Proof.
  unfold isValid. fold (evaluated path dir).
  destruct (existsb _ (elements (allowlist s))) eqn:Ha.
  - split; [intros _; left | done].
    apply existsb_elements in Ha as (a & Ha & Hc).
    exists a. by rewrite <- contains_occurs.
  - rewrite negb_true_iff. split.
    + intros Hd. right. intros d Hin Hocc.
      apply not_true_iff_false in Hd. apply Hd, existsb_elements.
      exists d. by rewrite contains_occurs.
    + intros [(a & Hin & Hocc)|Hd].
      * apply not_true_iff_false in Ha. exfalso. apply Ha, existsb_elements.
        exists a. by rewrite contains_occurs.
      * apply not_true_iff_false. intros (d & Hin & Hc)%existsb_elements.
        apply (Hd d Hin). by apply contains_occurs.
Qed.

(** ** Sorting *)

Section SortFacts.
Context {A : Type} (leb : A → A → bool).

Lemma insort_Permutation (x : A) (l : list A) : insort leb x l ≡ₚ x :: l.
Proof.
  induction l as [|y l IH]; simpl; [done|].
  destruct (leb x y); [done|]. rewrite IH. apply Permutation_swap.
Qed.

Lemma sorted_Permutation (l : list A) : sorted leb l ≡ₚ l.
Proof.
  induction l as [|x l IH]; simpl; [done|].
  by rewrite insort_Permutation, IH.
Qed.

Lemma elem_of_sorted (x : A) (l : list A) : x ∈ sorted leb l ↔ x ∈ l.
Proof. by rewrite sorted_Permutation. Qed.

Context (Htotal : ∀ x y, leb x y = true ∨ leb y x = true).

Lemma insort_Sorted (x : A) (l : list A) :
  Sorted (λ a b, leb a b = true) l →
  Sorted (λ a b, leb a b = true) (insort leb x l).
Proof.
  induction 1 as [|y l Hl IH Hhd]; simpl; [by repeat constructor|].
  destruct (leb x y) eqn:Hxy.
  - by repeat constructor.
  - constructor; [done|].
    destruct Hhd as [|z l Hyz]; simpl.
    + constructor. by destruct (Htotal x y) as [Hc|Hc]; [congruence|].
    + destruct (leb x z); constructor; [|done].
      by destruct (Htotal x y) as [Hc|Hc]; [congruence|].
Qed.

Lemma sorted_Sorted (l : list A) :
  Sorted (λ a b, leb a b = true) (sorted leb l).
Proof. induction l; simpl; [constructor|by apply insort_Sorted]. Qed.
End SortFacts.

(** Sorting pairs by their first component sorts the first components. *)
Lemma sorted_pairing {A B} (leb : A → A → bool) (g : A → B) (l : list A) :
  sorted (λ x y : A * B, leb x.1 y.1) (List.map (λ a, (a, g a)) l)
  = List.map (λ a, (a, g a)) (sorted leb l).
Proof.
  induction l as [|a l IH]; simpl; [done|]. rewrite IH.
  generalize (sorted leb l). intros k.
  induction k as [|b k IHk]; simpl; [done|].
  destruct (leb a b); simpl; [done|]. by rewrite IHk.
Qed.

Lemma filter_pairing {A B} (f : A → bool) (g : A → B) (l : list A) :
  List.filter (λ x : A * B, f x.1) (List.map (λ a, (a, g a)) l)
  = List.map (λ a, (a, g a)) (List.filter f l).
Proof.
  induction l as [|a l IH]; simpl; [done|].
  destruct (f a); simpl; by rewrite IH.
Qed.

Lemma snd_pairing {A B} (g : A → B) (l : list A) :
  (List.map (λ a, (a, g a)) l).*2 = g <$> l.
Proof. induction l as [|a l IH]; [done|]. simpl. f_equal. apply IH. Qed.

(** ** TreeEnumerator *)

Lemma node_induction (P : node → Prop) :
  (∀ nm sz, P (File nm sz)) →
  (∀ nm p, P (Other nm p)) →
  (∀ nm ch, Forall P ch → P (Dir nm ch)) →
  ∀ n, P n.
Proof.
  intros Hfile Hother Hdir. fix IH 1.
  intros [nm sz|nm ch|nm]; [apply Hfile|apply Hdir|apply Hother].
  induction ch as [|c ch IHch]; constructor; [apply IH|apply IHch].
Qed.

Lemma namelist_invalid s path parent n :
  isValid s path (is_dir n) = false → namelist s path parent n = Ok [].
Proof. intros H. destruct n; simpl in *; by rewrite H. Qed.

Lemma namelist_file s path parent nm sz :
  isValid s path false = true →
  namelist s path parent (File nm sz)
  = Ok [(path, arc_path parent (File nm sz))].
Proof. intros H. simpl. by rewrite H. Qed.

(** The directory case as the source has it: select, sort, then recurse. *)
Lemma namelist_dir s path parent nm ch :
  isValid s path true = true →
  namelist s path parent (Dir nm ch)
  = let arc := arc_path parent (Dir nm ch) in
    let sub c := namelist s (child_path path c) (Some arc) c in
    fs ← collect (sub <$> sorted name_leb (List.filter is_file ch));
    ds ← collect (sub <$> sorted name_leb (List.filter is_dir ch));
    Ok ((path +:+ "/", arc +:+ "/") :: (fs ++ ds)).
Proof.
  intros H. simpl. rewrite H. simpl.
  rewrite !(filter_pairing _
              (λ p, namelist s (path +:+ "/" +:+ node_name p) _ p)).
  rewrite !(sorted_pairing (λ x y, String.leb (node_name x) (node_name y))).
  by rewrite !snd_pairing.
Qed.

Lemma collect_cons {A} (r : result (list A)) (l : list (result (list A))) :
  collect (r :: l) = (x ← r; xs ← collect l; Ok (x ++ xs)).
Proof. reflexivity. Qed.

Lemma collect_Ok {A B} (g : A → result (list B)) (cs : list A) :
  Forall (λ c, ∃ l, g c = Ok l) cs →
  ∃ ls, Forall2 (λ c l, g c = Ok l) cs ls
        ∧ collect (g <$> cs) = Ok (concat ls).
Proof.
  induction 1 as [|c cs [l Hl] _ (ls & Hls & IH)].
  - by exists [].
  - exists (l :: ls). split; [by constructor|].
    rewrite fmap_cons, collect_cons, Hl, IH. done.
Qed.

Lemma collect_elem_of {A B} (g : A → result (list B)) (cs : list A) xs x :
  collect (g <$> cs) = Ok xs → x ∈ xs →
  ∃ c l, c ∈ cs ∧ g c = Ok l ∧ x ∈ l.
Proof.
  revert xs. induction cs as [|c cs IH]; intros xs.
  - intros [= <-] Hx. by apply elem_of_nil in Hx.
  - rewrite fmap_cons, collect_cons.
    destruct (g c) as [l|e] eqn:Hc; [|done].
    destruct (collect (g <$> cs)) as [ys|e] eqn:Hcs; [|done].
    intros [= <-] [Hx|Hx]%elem_of_app.
    + exists c, l. split_and!; [by left|done|done].
    + destruct (IH ys eq_refl Hx) as (c' & l' & ? & ? & ?).
      exists c', l'. split_and!; [by right|done|done].
Qed.

Lemma collect_files s path arc (fs : list node) :
  Forall (λ f, is_file f = true) fs →
  collect ((λ c, namelist s (child_path path c) (Some arc) c) <$> fs)
  = Ok (file_entry path arc
          <$> List.filter (λ f, isValid s (child_path path f) false) fs).
Proof.
  induction 1 as [|f fs Hf _ IH]; [done|].
  destruct f as [nm sz| |]; try done.
  rewrite fmap_cons, collect_cons, IH. simpl.
  by destruct (isValid s (child_path path (File nm sz)) false).
Qed.

(** Files and directories always enumerate: only a target that is neither
    makes [iterdir] raise. *)
Lemma namelist_returns s n :
  ∀ path parent, is_file n || is_dir n = true →
  ∃ l, namelist s path parent n = Ok l.
Proof.
  induction n as [nm sz|nm|nm ch IH] using node_induction;
    intros path parent Hk; [|discriminate|].
  - simpl. destruct (isValid s path false); simpl; eauto.
  - destruct (isValid s path true) eqn:Hv;
      [|rewrite namelist_invalid by done; eauto].
    rewrite namelist_dir by done. cbv zeta.
    set (sub := λ c, namelist s (child_path path c) _ c).
    assert (∀ f : node → bool,
              (∀ c, f c = true → is_file c || is_dir c = true) →
              Forall (λ c, ∃ l, sub c = Ok l)
                (sorted name_leb (List.filter f ch))) as Hall.
    { intros f Hf. apply Forall_forall. intros c Hc.
      apply elem_of_sorted, list_elem_of_In, filter_In in Hc as [Hc Hfc].
      apply list_elem_of_In in Hc.
      rewrite Forall_forall in IH. apply IH; auto. }
    pose proof (Hall is_file) as H1. pose proof (Hall is_dir) as H2.
    specialize (H1 ltac:(by intros c ->)).
    specialize (H2 ltac:(intros c ->; apply orb_true_r)).
    apply collect_Ok in H1 as (l1 & _ & ->), H2 as (l2 & _ & ->).
    simpl. eauto.
Qed.

Lemma leb_le (a b : string) : String.leb a b = true ↔ String.le a b.
Proof. unfold String.le. by rewrite Is_true_true. Qed.

#[local] Instance by_name_trans : Transitive by_name.
Proof.
  intros x y z. unfold by_name, name_leb. rewrite !leb_le. apply transitivity.
Qed.

Lemma by_name_total x y : name_leb x y = true ∨ name_leb y x = true.
Proof. apply String.leb_total. Qed.

Lemma NoDup_fmap_eq {A B} (f : A → B) (l : list A) x y :
  NoDup (f <$> l) → x ∈ l → y ∈ l → f x = f y → x = y.
Proof.
  induction l as [|a l IH]; [by intros _ ?%elem_of_nil|].
  rewrite fmap_cons, NoDup_cons.
  intros [Ha Hl] [->|Hx]%elem_of_cons [->|Hy]%elem_of_cons Hf; auto.
  - exfalso. apply Ha. rewrite Hf. by apply list_elem_of_fmap_2.
  - exfalso. apply Ha. rewrite <- Hf. by apply list_elem_of_fmap_2.
Qed.

Lemma filter_Permutation {A} (f : A → bool) (l1 l2 : list A) :
  l1 ≡ₚ l2 → List.filter f l1 ≡ₚ List.filter f l2.
Proof.
  induction 1 as [|x l1 l2 _ IH|x y l|l1 l2 l3 _ IH1 _ IH2]; simpl.
  - done.
  - destruct (f x); by rewrite IH.
  - destruct (f x), (f y); try done. apply Permutation_swap.
  - by rewrite IH1.
Qed.

(** Sorting by name does not depend on the order the host listed the
    entries in, when no two have the same name. *)
Lemma sorted_by_name_unique (f : node → bool) (ch ch1 : list node) :
  NoDup (node_name <$> ch) → ch ≡ₚ ch1 →
  sorted name_leb (List.filter f ch) = sorted name_leb (List.filter f ch1).
Proof.
  intros Hnd Hp.
  apply (Sorted_unique_strong by_name).
  - intros x1 x2 Hx1 Hx2 H12 H21.
    apply (NoDup_fmap_eq node_name ch); [done| | |].
    + apply elem_of_sorted, list_elem_of_In, filter_In in Hx1 as [Hx1 _].
      by apply list_elem_of_In.
    + apply elem_of_sorted, list_elem_of_In, filter_In in Hx2 as [Hx2 _].
      rewrite Hp. by apply list_elem_of_In.
    + by apply String.leb_antisym.
  - apply sorted_Sorted, by_name_total.
  - apply sorted_Sorted, by_name_total.
  - rewrite !sorted_Permutation. by apply filter_Permutation.
Qed.

Lemma same_tree_name a b : same_tree a b → node_name a = node_name b.
Proof. by destruct 1. Qed.

Lemma same_tree_is_file a b : same_tree a b → is_file a = is_file b.
Proof. by destruct 1. Qed.

Lemma same_tree_is_dir a b : same_tree a b → is_dir a = is_dir b.
Proof. by destruct 1. Qed.

Lemma same_tree_filter (f : node → bool) (l1 l2 : list node) :
  (∀ a b, same_tree a b → f a = f b) →
  Forall2 same_tree l1 l2 →
  Forall2 same_tree (List.filter f l1) (List.filter f l2).
Proof.
  intros Hf. induction 1 as [|a b l1 l2 Hab _ IH]; simpl; [constructor|].
  rewrite <- (Hf a b Hab). destruct (f a); [by constructor|done].
Qed.

Lemma same_tree_insort a b (l1 l2 : list node) :
  same_tree a b → Forall2 same_tree l1 l2 →
  Forall2 same_tree (insort name_leb a l1) (insort name_leb b l2).
Proof.
  intros Hab. induction 1 as [|x y l1 l2 Hxy Hl IH]; simpl.
  - by repeat constructor.
  - unfold name_leb at 1 3.
    rewrite <- (same_tree_name a b Hab), <- (same_tree_name x y Hxy).
    destruct (String.leb _ _); by repeat constructor.
Qed.

Lemma same_tree_sorted (l1 l2 : list node) :
  Forall2 same_tree l1 l2 →
  Forall2 same_tree (sorted name_leb l1) (sorted name_leb l2).
Proof.
  induction 1; simpl; [constructor|by apply same_tree_insort].
Qed.

Lemma bind_Ok {A B} (a : A) (k : A → result B) : Ok a ≫= k = k a.
Proof. reflexivity. Qed.

Lemma well_named_dir nm ch :
  well_named (Dir nm ch) = true →
  NoDup (node_name <$> ch) ∧ Forall (λ c, well_named c = true) ch
  ∧ Forall (λ c, plain (node_name c) = true) ch.
Proof.
  simpl. rewrite !andb_true_iff, bool_decide_eq_true.
  intros [[Hp Hn] Hw]. rewrite forallb_forall in Hp, Hw.
  split_and!; [done| |]; apply Forall_forall; intros c Hc%list_elem_of_In;
    auto.
Qed.

Lemma namelist_same_tree s n :
  ∀ path parent t, well_named n = true → same_tree n t →
  namelist s path parent t = namelist s path parent n.
Proof.
  induction n as [nm sz|nm|nm ch IH] using node_induction;
    intros path parent t Hwn Hsame; inversion Hsame as [| |? ? ch1 ch2 Hp Hch];
    subst; [done|done|].
  apply well_named_dir in Hwn as (Hnd & Hwn & _).
  destruct (isValid s path true) eqn:Hv;
    [|by rewrite !namelist_invalid by done].
  rewrite !namelist_dir by done. cbv zeta.
  change (arc_path parent (Dir nm ch2)) with (arc_path parent (Dir nm ch)).
  set (sub := λ c, namelist s (child_path path c) _ c).
  assert (∀ f : node → bool, (∀ a b, same_tree a b → f a = f b) →
            sub <$> sorted name_leb (List.filter f ch2)
            = sub <$> sorted name_leb (List.filter f ch)) as Heq.
  { intros f Hf. rewrite (sorted_by_name_unique f ch ch1) by done.
    assert (Forall (λ c, ∀ t, same_tree c t → sub t = sub c)
              (sorted name_leb (List.filter f ch1))) as Hall.
    { apply Forall_forall. intros c Hc t Hct.
      apply elem_of_sorted, list_elem_of_In, filter_In in Hc as [Hc _].
      apply list_elem_of_In in Hc. rewrite <- Hp in Hc.
      rewrite Forall_forall in IH, Hwn. unfold sub, child_path.
      rewrite <- (same_tree_name c t Hct). by apply IH; auto. }
    pose proof (same_tree_sorted _ _ (same_tree_filter f _ _ Hf Hch)) as H2.
    revert Hall. induction H2 as [|a b l1 l2 Hab _ IH2]; [done|].
    intros [Ha Hl]%Forall_cons. rewrite !fmap_cons, (Ha b Hab).
    f_equal. by apply IH2. }
  by rewrite (Heq is_file same_tree_is_file), (Heq is_dir same_tree_is_dir).
Qed.

(** C5. A valid directory yields its own entry first, both paths ending in
    the separator, then the entries of its valid plain files in the order of
    their names, then the enumerations of its subdirectories in the order of
    their names, each enumerated the same way. The sequence does not depend
    on the order in which the host lists the directories, so enumerating an
    unchanged tree again yields the same sequence. *)
Theorem namelist_order_deterministic s path parent nm ch t :
  let arc := arc_path parent (Dir nm ch) in
  isValid s path true = true →
  well_named (Dir nm ch) = true →
  same_tree (Dir nm ch) t →
  (∃ files folders subs,
     files ≡ₚ List.filter is_file ch ∧ Sorted by_name files
     ∧ folders ≡ₚ List.filter is_dir ch ∧ Sorted by_name folders
     ∧ Forall2 (λ d l, namelist s (child_path path d) (Some arc) d = Ok l)
         folders subs
     ∧ namelist s path parent (Dir nm ch)
       = Ok ((path +:+ "/", arc +:+ "/")
             :: (file_entry path arc
                   <$> List.filter
                         (λ f, isValid s (child_path path f) false) files)
             ++ concat subs))
  ∧ namelist s path parent t = namelist s path parent (Dir nm ch).
Proof.
  intros arc Hv Hwn Hsame. split; [|by apply namelist_same_tree].
  set (files := sorted name_leb (List.filter is_file ch)).
  set (folders := sorted name_leb (List.filter is_dir ch)).
  assert (Forall
            (λ d, ∃ l, namelist s (child_path path d) (Some arc) d = Ok l)
            folders) as Hsub.
  { apply Forall_forall. intros d Hd. apply namelist_returns.
    apply elem_of_sorted, list_elem_of_In, filter_In in Hd as [_ ->].
    apply orb_true_r. }
  apply collect_Ok in Hsub as (subs & Hsubs & Hcollect).
  exists files, folders, subs. split_and!.
  - apply sorted_Permutation.
  - apply sorted_Sorted, by_name_total.
  - apply sorted_Permutation.
  - apply sorted_Sorted, by_name_total.
  - done.
  - rewrite namelist_dir by done. cbv zeta. fold arc files folders.
    rewrite (collect_files s path arc files), bind_Ok, Hcollect; [done|].
    apply Forall_forall. intros f Hf.
    by apply elem_of_sorted, list_elem_of_In, filter_In in Hf as [_ ->].
Qed.

Lemma append_assoc (a b c : string) : (a +:+ b) +:+ c = a +:+ b +:+ c.
Proof. induction a as [|x a IH]; [done|]. rewrite !append_cons. by f_equal. Qed.

Lemma append_nil_r (a : string) : a +:+ "" = a.
Proof. induction a as [|x a IH]; [done|]. rewrite append_cons. by f_equal. Qed.

Lemma tail_app (a b : string) : tail a → tail b → tail (a +:+ b).
Proof. by destruct a. Qed.

Lemma no_sep_cancel (n1 n2 r1 r2 : string) :
  no_sep n1 = true → no_sep n2 = true → tail r1 → tail r2 →
  n1 +:+ r1 = n2 +:+ r2 → n1 = n2.
Proof.
  revert n2. induction n1 as [|c1 n1 IH]; intros [|c2 n2]; simpl;
    rewrite ?append_cons, ?append_nil_l; rewrite ?andb_true_iff.
  - done.
  - intros _ [Hc _] H1 _ ->. simpl in H1. subst c2. done.
  - intros [Hc _] _ _ H2 <-. simpl in H2. subst c1. done.
  - intros [_ H1] [_ H2] Hr1 Hr2 [= -> Heq]. f_equal. eauto.
Qed.

Lemma located_under path n q m :
  located path n q m → ∃ r, q = path +:+ r ∧ tail r.
Proof.
  induction 1 as [path n|path nm ch c q m _ _ (r & -> & Hr)].
  - exists "". by rewrite append_nil_r.
  - exists ("/" +:+ node_name c +:+ r). unfold child_path.
    by rewrite !append_assoc.
Qed.

Lemma evaluated_under q b : ∃ r, evaluated q b = q +:+ r ∧ tail r.
Proof.
  destruct b; simpl; [by exists "/"|]. exists "". by rewrite append_nil_r.
Qed.

(** Where the entries of a directory's enumeration come from. *)
Lemma namelist_dir_inv s path parent nm ch entries e :
  namelist s path parent (Dir nm ch) = Ok entries → e ∈ entries →
  e = (path +:+ "/", arc_path parent (Dir nm ch) +:+ "/")
  ∨ ∃ c l, c ∈ ch
           ∧ namelist s (child_path path c)
               (Some (arc_path parent (Dir nm ch))) c = Ok l
           ∧ e ∈ l.
Proof.
  destruct (isValid s path true) eqn:Hv;
    [|rewrite namelist_invalid by done; by intros [= <-] ?%elem_of_nil].
  rewrite namelist_dir by done. cbv zeta.
  destruct (collect (_ <$> sorted name_leb (List.filter is_file ch)))
    as [fs|] eqn:Hfs; [|done]. rewrite bind_Ok.
  destruct (collect (_ <$> sorted name_leb (List.filter is_dir ch)))
    as [ds|] eqn:Hds; [|done]. rewrite bind_Ok.
  intros [= <-] [->|[He|He]%elem_of_app]%elem_of_cons; [by left| |]; right.
  - destruct (collect_elem_of _ _ _ _ Hfs He) as (c & l & Hc & Hl & Hel).
    apply elem_of_sorted, list_elem_of_In, filter_In in Hc as [Hc _].
    apply list_elem_of_In in Hc. eauto.
  - destruct (collect_elem_of _ _ _ _ Hds He) as (c & l & Hc & Hl & Hel).
    apply elem_of_sorted, list_elem_of_In, filter_In in Hc as [Hc _].
    apply list_elem_of_In in Hc. eauto.
Qed.

Lemma namelist_under s n :
  ∀ path parent entries e,
    namelist s path parent n = Ok entries → e ∈ entries →
    ∃ r, e.1 = path +:+ r ∧ tail r.
Proof.
  induction n as [nm sz|nm|nm ch IH] using node_induction;
    intros path parent entries e.
  - simpl. destruct (isValid s path false); simpl.
    + intros [= <-] ->%list_elem_of_singleton. exists "".
      by rewrite append_nil_r.
    + by intros [= <-] ?%elem_of_nil.
  - simpl. destruct (isValid s path false); simpl; [done|].
    by intros [= <-] ?%elem_of_nil.
  - intros Hn He.
    destruct (namelist_dir_inv _ _ _ _ _ _ _ Hn He)
      as [->|(c & l & Hc & Hl & Hel)]; [by exists "/"|].
    rewrite Forall_forall in IH.
    destruct (IH c Hc _ _ _ _ Hl Hel) as (r & -> & Hr).
    exists ("/" +:+ node_name c +:+ r). unfold child_path.
    by rewrite !append_assoc.
Qed.

Lemma pruned_subtree s root :
  ∀ path parent pd d q m entries,
    well_named root = true →
    located path root pd d → is_dir d = true → isValid s pd true = false →
    located pd d q m →
    namelist s path parent root = Ok entries →
    evaluated q (is_dir m) ∉ entries.*1.
Proof.
  induction root as [nm sz|nm|nm ch IH] using node_induction;
    intros path parent pd d q m entries Hwn Hd Hdir Hinv Hm Hn.
  - inversion Hd; subst. done.
  - inversion Hd; subst. done.
  - inversion Hd as [|? ? ? c ? ? Hc Hcd]; subst.
    { rewrite namelist_invalid in Hn by done. injection Hn as <-.
      apply not_elem_of_nil. }
    intros (e & Heq & He)%list_elem_of_fmap.
    apply well_named_dir in Hwn as (Hnd & Hwn & Hplain).
    rewrite Forall_forall in IH, Hwn, Hplain.
    destruct (located_under _ _ _ _ Hcd) as (r0 & -> & Hr0).
    destruct (located_under _ _ _ _ Hm) as (r1 & -> & Hr1).
    destruct (evaluated_under ((child_path path c +:+ r0) +:+ r1) (is_dir m))
      as (r2 & Hev & Hr2).
    pose proof Heq as Hsrc.
    rewrite Hev in Heq. unfold child_path in Heq.
    rewrite !append_assoc in Heq.
    pose proof (Hplain c Hc) as [Hne Hsep]%andb_true_iff.
    destruct (namelist_dir_inv _ _ _ _ _ _ _ Hn He)
      as [->|(c' & l & Hc' & Hl & Hel)].
    + simpl in Heq.
      apply (inj (String.app path)), (inj (String.app "/")) in Heq.
      destruct (node_name c); [done|]. by rewrite append_cons in Heq.
    + destruct (namelist_under _ _ _ _ _ _ Hl Hel) as (r' & Hr' & Htl).
      rewrite Hr' in Heq. unfold child_path in Heq.
      rewrite !append_assoc in Heq.
      apply (inj (String.app path)), (inj (String.app "/")) in Heq.
      pose proof (Hplain c' Hc') as [_ Hsep']%andb_true_iff.
      apply no_sep_cancel in Heq;
        [|done|done|apply tail_app; [done|by apply tail_app]|done].
      assert (c' = c) as ->
        by (symmetry; by apply (NoDup_fmap_eq node_name ch)).
      eapply (IH c Hc); [by apply Hwn|exact Hcd|done|done|exact Hm|exact Hl|].
      apply list_elem_of_fmap. by exists e.
Qed.

(** C6. When a directory of the tree fails the validity check, neither it
    nor anything below it is among the source paths of the enumeration,
    whatever the allow and deny patterns make of the paths below it: the
    enumeration returns, and the path of every such node is absent. *)
Theorem pruning_transitive s path parent root pd d q m :
  well_named root = true →
  located path root pd d → is_dir d = true → isValid s pd true = false →
  located pd d q m →
  ∃ entries, namelist s path parent root = Ok entries
             ∧ evaluated q (is_dir m) ∉ entries.*1.
Proof.
  intros Hwn Hd Hdir Hinv Hm.
  destruct (namelist_returns s root path parent) as [entries Hn].
  { inversion Hd; subst; [by rewrite Hdir, orb_true_r|done]. }
  exists entries. split; [done|]. by eapply pruned_subtree.
Qed.


Lemma namelist_order_deterministic_witness :
  isValid a_filter "/home/u/proj" true = true
  ∧ well_named a_tree = true
  ∧ same_tree a_tree a_tree_relisted
  ∧ namelist a_filter "/home/u/proj" None a_tree_relisted
    = namelist a_filter "/home/u/proj" None a_tree.
Proof.
  assert (isValid a_filter "/home/u/proj" true = true) as Hv
    by (vm_compute; reflexivity).
  assert (well_named a_tree = true) as Hwn by (vm_compute; reflexivity).
  assert (same_tree a_tree a_tree_relisted) as Hsame.
  { eapply same_dir; [apply Permutation_swap|].
    repeat first [ apply List.Forall2_cons | apply List.Forall2_nil
                 | apply same_file ].
    - eapply same_dir; [apply Permutation_swap|].
      repeat first [ apply List.Forall2_cons | apply List.Forall2_nil
                   | apply same_file ].
    - eapply same_dir; [reflexivity|].
      repeat first [ apply List.Forall2_cons | apply List.Forall2_nil
                   | apply same_file ]. }
  split_and!; [exact Hv|exact Hwn|exact Hsame|].
  exact (proj2 (namelist_order_deterministic a_filter "/home/u/proj" None
                  "proj" _ a_tree_relisted Hv Hwn Hsame)).
Defined.

Lemma pruning_transitive_witness :
  well_named a_tree = true
  ∧ isValid a_filter "/home/u/proj/__pycache__" true = false
  ∧ isValid a_filter "/home/u/proj/__pycache__/keep.pyc" false = true
  ∧ ∃ entries,
      namelist a_filter "/home/u/proj" None a_tree = Ok entries
      ∧ evaluated "/home/u/proj/__pycache__/keep.pyc"
          (is_dir (File "keep.pyc" 7)) ∉ entries.*1.
Proof.
  assert (well_named a_tree = true) as Hwn by (vm_compute; reflexivity).
  assert (isValid a_filter "/home/u/proj/__pycache__" true = false) as Hinv
    by (vm_compute; reflexivity).
  split_and!; [exact Hwn|exact Hinv|vm_compute; reflexivity|].
  refine (pruning_transitive a_filter "/home/u/proj" None a_tree
            "/home/u/proj/__pycache__" a_cache_dir
            "/home/u/proj/__pycache__/keep.pyc" (File "keep.pyc" 7)
            Hwn _ eq_refl Hinv _).
  - eapply located_below; [|apply located_here].
    do 2 apply list_elem_of_further. apply list_elem_of_here.
  - eapply located_below; [|apply located_here]. apply list_elem_of_here.
Defined.

(** ** ConfigCache *)

Lemma init_unfold tgt sv isf arc ac rc dl pv now w :
  init tgt sv isf arc ac rc dl pv now w
  = let s := before_config tgt sv isf arc ac rc dl pv now in
    match (if rc then w_cache w !! cache s else None) with
    | Some info => load_record info s
    | None => with_denylist DEFAULT_DENYLIST s
    end.
Proof. reflexivity. Qed.

Lemma load_rest_fields (m : gmap string json) (s : session) :
  allowlist (load_rest m s) = allowlist s
  ∧ denylist (load_rest m s) = denylist s
  ∧ cache (load_rest m s) = cache s
  ∧ required_config (load_rest m s) = required_config s.
Proof.
  unfold load_rest.
  apply (map_fold_weak_ind
           (λ r _, allowlist r = allowlist s ∧ denylist r = denylist s
                   ∧ cache r = cache s
                   ∧ required_config r = required_config s));
    [done|].
  intros k v m' r _ IH. by case_bool_decide.
Qed.

Lemma load_rest_attrs (m : gmap string json) (s : session) (k : string) v :
  k ∉ ["allowlist"; "denylist"] → m !! k = Some v →
  attrs (load_rest m s) !! k = Some v.
Proof.
  intros Hk. revert v. unfold load_rest.
  apply (map_fold_weak_ind
           (λ r m, ∀ v, m !! k = Some v → attrs r !! k = Some v)).
  - intros v. by rewrite lookup_empty.
  - intros i x m' r Hi IH v. destruct (decide (i = k)) as [->|Hne].
    + rewrite lookup_insert_eq. intros [= ->].
      rewrite bool_decide_eq_false_2 by done. simpl.
      by rewrite lookup_insert_eq.
    + rewrite lookup_insert_ne by done. intros Hv.
      case_bool_decide; simpl; [by apply IH|].
      rewrite lookup_insert_ne by done. by apply IH.
Qed.

Lemma init_cache tgt sv isf arc ac rc dl pv now w :
  cache (init tgt sv isf arc ac rc dl pv now w)
  = base_name tgt isf arc +:+ ".json".
Proof.
  rewrite init_unfold. cbv zeta.
  destruct (if rc then _ else None); [|done].
  unfold load_record. by destruct (load_rest_fields (r_rest r)
    (exclude (inl (r_denylist r)) (include (inl (r_allowlist r))
       (with_denylist ∅ (before_config tgt sv isf arc ac rc dl pv now)))))
    as (_ & _ & -> & _).
Qed.




(** ** ArchiveWriter: what [compress] leaves in the destination *)

Lemma unlink_cache nm w : w_cache (unlink nm w).2 = w_cache w.
Proof. unfold unlink. by destruct (w_dest w !! nm) as [[]|]. Qed.

Lemma sweep_cache files : ∀ res w, w_cache (sweep res files w).2 = w_cache w.
Proof.
  induction files as [|[path d] files IH]; intros res w; simpl; [done|].
  destruct (_ && _); [|by apply IH].
  pose proof (unlink_cache path w) as Hu.
  destruct (unlink path w) as [[[]|e] w']; simpl in *; [|done].
  by rewrite IH.
Qed.

Lemma auto_clean_cache scandir s w :
  w_cache (auto_clean scandir s w).2 = w_cache w.
Proof.
  unfold auto_clean. destruct (dateless s); [done|].
  destruct (today s) as [now|]; [|done].
  destruct (find_files _ _) as [found|]; [|done].
  destruct (_ <? _)%nat; [done|].
  destruct (sorted _ _) as [|latest older]; [done|]. apply sweep_cache.
Qed.

Lemma mkstemp_frame prefix names : ∀ w,
  let w' := (mkstemp prefix names w).2 in
  w_cache w' = w_cache w
  ∧ (∀ nm f, w_dest w !! nm = Some f → w_dest w' !! nm = Some f)
  ∧ (∀ nm ms, w_dest w' !! nm = Some (DFile (Zip ms)) →
              w_dest w !! nm = Some (DFile (Zip ms))).
Proof.
  induction names as [|r names IH]; intros w; simpl; [done|].
  destruct (w_dest w !! (prefix +:+ r)) as [f|] eqn:Hr; [apply IH|].
  simpl. split_and!; [done| |].
  - intros nm f Hf. rewrite lookup_insert_ne; [done|]. by intros <-; congruence.
  - intros nm ms. destruct (decide (prefix +:+ r = nm)) as [<-|Hne].
    + by rewrite lookup_insert_eq.
    + by rewrite lookup_insert_ne.
Qed.

Lemma write_zip_cache temp ms w : w_cache (write_zip temp ms w).2 = w_cache w.
Proof. done. Qed.

Lemma move_cache src dst w : w_cache (move src dst w).2 = w_cache w.
Proof. unfold move. by destruct (w_dest w !! src). Qed.

(** The config cache after [compress]: this session's record is written
    when the config is required, and nothing else changes. *)
Lemma compress_cache scandir isfile getsize s tree names w :
  w_cache (compress scandir isfile getsize s tree names w).2
  = if required_config s then <[ cache s := info s ]> (w_cache w)
    else w_cache w.
Proof.
  unfold compress.
  destruct (required_config s && _) eqn:Hgate.
  { apply andb_true_iff in Hgate as [-> _]. done. }
  set (w0 := if required_config s then _ else w).
  assert (w_cache w0
          = if required_config s then <[ cache s := info s ]> (w_cache w)
            else w_cache w) as <-.
  { unfold w0. by destruct (required_config s). }
  destruct (mkstemp_frame (path_name (target s) +:+ "_") names w0)
    as (Hc & _ & _).
  destruct (mkstemp _ names w0) as [[temp|e] w1]; simpl in Hc; [|done].
  destruct (preview s).
  { by destruct (namelist s (target s) None tree). }
  destruct (namelist s (target s) None tree) as [entries|e]; [|done].
  pose proof (move_cache temp (arcname s) (write_zip temp entries w1).2)
    as Hm.
  destruct (move temp (arcname s) _) as [[[]|e] w3]; simpl in Hm;
    [|simpl; congruence].
  destruct (attrs s !! "auto_clean") as [flag|]; [|simpl; congruence].
  destruct (truthy flag); [|simpl; congruence].
  pose proof (auto_clean_cache scandir s w3) as Ha.
  destruct (auto_clean scandir s w3) as [[[]|e] w4]; simpl in *; congruence.
Qed.

Lemma info_auto_clean s :
  r_rest (info s) !! "auto_clean" = attrs s !! "auto_clean".
Proof.
  unfold info. simpl.
  destruct (attrs s !! "auto_clean") as [v|] eqn:Hv.
  - apply map_lookup_filter_Some. split; [done|]. simpl. split; [done|].
    rewrite !elem_of_cons, elem_of_nil. by intros [|[|]].
  - apply map_lookup_filter_None. by left.
Qed.




(** C10 (as the code has it). A session that requires the config writes its
    current [auto_clean] value into the config record on every [compress];
    and a session constructed with the config required against an existing
    record takes the record's [auto_clean] value in place of the constructor
    argument. A session that does not require the config neither writes
    nor loads the record: its [compress] leaves the config cache as it was,
    and its construction does not depend on what the cache holds, the
    [auto_clean] value being the constructor argument. *)
Theorem auto_clean_persisted scandir isfile getsize s tree names w
    tgt sv isf arc ac dl pv now w2 r v :
  required_config s = true →
  w_cache w2 !! cache (init tgt sv isf arc ac true dl pv now w2) = Some r →
  r_rest r !! "auto_clean" = Some v →
  (∃ r', w_cache (compress scandir isfile getsize s tree names w).2
           !! cache s = Some r'
         ∧ r_rest r' !! "auto_clean" = attrs s !! "auto_clean")
  ∧ attrs (init tgt sv isf arc ac true dl pv now w2) !! "auto_clean" = Some v
  ∧ (∀ s' tree' names' w',
       required_config s' = false →
       w_cache (compress scandir isfile getsize s' tree' names' w').2
       = w_cache w')
  ∧ (∀ w3 w4,
       init tgt sv isf arc ac false dl pv now w3
       = init tgt sv isf arc ac false dl pv now w4)
  ∧ attrs (init tgt sv isf arc ac false dl pv now w2) !! "auto_clean"
    = Some (JBool ac).
Proof.
  intros Hreq Hr Hv. split_and!.
  - exists (info s). rewrite compress_cache, Hreq, lookup_insert_eq.
    split; [done|apply info_auto_clean].
  - rewrite init_cache in Hr. rewrite init_unfold. cbv zeta.
    simpl cache. rewrite Hr. unfold load_record.
    apply load_rest_attrs; [|done].
    rewrite !elem_of_cons, elem_of_nil. by intros [|[|]].
  - intros s' tree' names' w' Hno. by rewrite compress_cache, Hno.
  - intros w3 w4. by rewrite !init_unfold.
  - by rewrite init_unfold.
Qed.

Lemma auto_clean_persisted_witness :
  required_config a_gated_preview = true
  ∧ w_cache a_cached_world
    !! cache (init "/home/u/proj" "/backup" false None true true false false
                a_day a_cached_world) = Some a_record
  ∧ r_rest a_record !! "auto_clean" = Some (JBool false)
  ∧ attrs (init "/home/u/proj" "/backup" false None true true false false
             a_day a_cached_world) !! "auto_clean" = Some (JBool false)
  ∧ attrs (init "/home/u/proj" "/backup" false None true false false false
             a_day a_cached_world) !! "auto_clean" = Some (JBool true).
Proof.
  assert (w_cache a_cached_world
          !! cache (init "/home/u/proj" "/backup" false None true true false
                      false a_day a_cached_world) = Some a_record) as Hr
    by (vm_compute; reflexivity).
  assert (r_rest a_record !! "auto_clean" = Some (JBool false)) as Hv
    by (vm_compute; reflexivity).
  split_and!; [reflexivity|exact Hr|exact Hv| |].
  - exact (proj1 (proj2 (auto_clean_persisted a_scandir an_isfile a_getsize
                           a_gated_preview a_tree ["x"] no_files
                           "/home/u/proj" "/backup" false None true false
                           false a_day a_cached_world a_record (JBool false)
                           eq_refl Hr Hv))).
  - exact (proj2 (proj2 (proj2 (proj2
             (auto_clean_persisted a_scandir an_isfile a_getsize
                a_gated_preview a_tree ["x"] no_files
                "/home/u/proj" "/backup" false None true false
                false a_day a_cached_world a_record (JBool false)
                eq_refl Hr Hv))))).
Defined.

(** The claim as stated fails: a forced session compresses successfully and
    writes no config record. *)
Lemma forced_compress_writes_no_record :
  let r := compress a_scandir an_isfile a_getsize a_forced a_tree ["x"]
             no_files in
  r.1 = Ok Published ∧ w_cache r.2 !! cache a_forced = None.
Proof. split; vm_compute; reflexivity. Qed.

(** [NamedTemporaryFile] takes the first candidate name that is free and
    creates it empty. *)
Lemma mkstemp_fresh prefix names : ∀ w,
  Exists (λ r, w_dest w !! (prefix +:+ r) = None) names →
  ∃ r, r ∈ names ∧ w_dest w !! (prefix +:+ r) = None
       ∧ mkstemp prefix names w
         = (Ok (prefix +:+ r),
            {| w_dest := <[ prefix +:+ r := DFile (Blob "") ]> (w_dest w);
               w_cache := w_cache w |}).
Proof.
  induction names as [|r names IH]; intros w Hex.
  { by apply Exists_nil in Hex. }
  simpl. destruct (w_dest w !! (prefix +:+ r)) as [f|] eqn:Hr.
  - apply Exists_cons in Hex as [Hf|Hex]; [congruence|].
    destruct (IH w Hex) as (r' & Hin & Hfree & Heq).
    exists r'. split_and!; [by right|done..].
  - exists r. split_and!; [left|done..].
Qed.

(** Past the config gate [compress] goes on from the world in which the
    config record, when required, is written. *)
Lemma compress_gate scandir isfile getsize s tree names w :
  (required_config s = true → is_Some (w_cache w !! cache s)) →
  ∃ w0, w_dest w0 = w_dest w
        ∧ w_cache w0 = (if required_config s
                        then <[ cache s := info s ]> (w_cache w)
                        else w_cache w)
        ∧ compress scandir isfile getsize s tree names w
          = match mkstemp (path_name (target s) +:+ "_") names w0 with
            | (Raise e, w) => (Raise e, w)
            | (Ok temp, w) =>
                if preview s
                then
                  match namelist s (target s) None tree with
                  | Raise e => (Raise e, w)
                  | Ok entries =>
                      (Ok (Previewed
                             (List.map
                                (λ e, (e.2, if isfile e.1
                                               && negb (getsize e.1 =? 0)%N
                                            then Some (getsize e.1)
                                            else None))
                                entries)),
                       w)
                  end
                else
                  match namelist s (target s) None tree with
                  | Raise e => (Raise e, (write_zip temp [] w).2)
                  | Ok entries =>
                      let w := (write_zip temp entries w).2 in
                      match move temp (arcname s) w with
                      | (Raise e, w) => (Raise e, w)
                      | (Ok _, w) =>
                          match attrs s !! "auto_clean" with
                          | None => (Raise AttributeError, w)
                          | Some flag =>
                              if truthy flag
                              then match auto_clean scandir s w with
                                   | (Raise e, w) => (Raise e, w)
                                   | (Ok _, w) => (Ok Published, w)
                                   end
                              else (Ok Published, w)
                          end
                      end
                  end
            end.
Proof.
  intros Hgate. unfold compress.
  destruct (required_config s) eqn:Hreq.
  - rewrite bool_decide_eq_true_2 by auto. simpl.
    by exists (save_config s w).2.
  - by exists w.
Qed.

(** In a preview the destination keeps what it had, and nothing in it
    becomes an archive. *)
Lemma preview_dest scandir isfile getsize s tree names w :
  preview s = true →
  let r := compress scandir isfile getsize s tree names w in
  (∀ nm f, w_dest w !! nm = Some f → w_dest r.2 !! nm = Some f)
  ∧ (∀ nm ms, w_dest r.2 !! nm = Some (DFile (Zip ms)) →
              w_dest w !! nm = Some (DFile (Zip ms)))
  ∧ r.1 ≠ Ok Published
  ∧ (∀ lines, r.1 = Ok (Previewed lines) →
       ∃ entries, namelist s (target s) None tree = Ok entries
                  ∧ lines.*1 = entries.*2).
Proof.
  intros Hprev r. subst r. unfold compress. rewrite Hprev.
  destruct (required_config s && _); [by split_and!|].
  set (w0 := if required_config s then _ else w).
  assert (w_dest w0 = w_dest w) as <-
    by (unfold w0; by destruct (required_config s)).
  destruct (mkstemp_frame (path_name (target s) +:+ "_") names w0)
    as (_ & Hkeep & Hzip).
  destruct (mkstemp _ names w0) as [[temp|e] w1]; simpl in *;
    [|by split_and!].
  destruct (namelist s (target s) None tree) as [entries|e]; simpl;
    [|by split_and!].
  split_and!; [done..|]. intros lines [= <-]. exists entries. split; [done|].
  clear. induction entries as [|e entries IH]; [done|]. simpl. by f_equal.
Qed.

(** C1 (as the code has it). With the preview flag set, [compress] deletes
    nothing and changes no file that was in the destination directory, makes
    no entry of it an archive, and leaves every config record but the
    session's own as it was: the session's own record is written, as the
    [info] of the session, when the config is required, and the cache is
    left as it was when it is not. It publishes nothing; a result with
    lines has one line per enumerated entry, and a run that gets to list
    the target (the config gate passed, a temporary name free, the
    enumeration returning) does return the lines, one per entry, with the
    archive path and the size shown. *)
Theorem preview_keeps_files scandir isfile getsize s tree names w :
  preview s = true →
  let r := compress scandir isfile getsize s tree names w in
  (∀ nm f, w_dest w !! nm = Some f → w_dest r.2 !! nm = Some f)
  ∧ (∀ nm ms, w_dest r.2 !! nm = Some (DFile (Zip ms)) →
              w_dest w !! nm = Some (DFile (Zip ms)))
  ∧ (∀ k, k ≠ cache s → w_cache r.2 !! k = w_cache w !! k)
  ∧ (∀ k, is_Some (w_cache w !! k) → is_Some (w_cache r.2 !! k))
  ∧ (required_config s = false → w_cache r.2 = w_cache w)
  ∧ (required_config s = true →
     w_cache r.2 = <[ cache s := info s ]> (w_cache w)
     ∧ w_cache r.2 !! cache s = Some (info s))
  ∧ r.1 ≠ Ok Published
  ∧ (∀ lines, r.1 = Ok (Previewed lines) →
       ∃ entries, namelist s (target s) None tree = Ok entries
                  ∧ lines.*1 = entries.*2)
  ∧ (∀ entries,
       (required_config s = true → is_Some (w_cache w !! cache s)) →
       Exists (λ t, w_dest w !! ((path_name (target s) +:+ "_") +:+ t)
                    = None) names →
       namelist s (target s) None tree = Ok entries →
       r.1 = Ok (Previewed
                   (List.map
                      (λ e, (e.2, if isfile e.1 && negb (getsize e.1 =? 0)%N
                                  then Some (getsize e.1) else None))
                      entries))).
Proof.
  intros Hprev r.
  assert (∀ entries,
            (required_config s = true → is_Some (w_cache w !! cache s)) →
            Exists (λ t, w_dest w !! ((path_name (target s) +:+ "_") +:+ t)
                         = None) names →
            namelist s (target s) None tree = Ok entries →
            r.1 = Ok (Previewed
                        (List.map
                           (λ e, (e.2,
                                  if isfile e.1 && negb (getsize e.1 =? 0)%N
                                  then Some (getsize e.1) else None))
                           entries))) as Hshown.
  { intros entries Hgate Hfree Hlist. subst r.
    destruct (compress_gate scandir isfile getsize s tree names w Hgate)
      as (w0 & Hd0 & _ & ->).
    rewrite <- Hd0 in Hfree.
    destruct (mkstemp_fresh _ names w0 Hfree) as (t & _ & _ & ->).
    by rewrite Hprev, Hlist. }
  destruct (preview_dest scandir isfile getsize s tree names w Hprev)
    as (Hkeep & Hzip & Hpub & Hlines).
  subst r. rewrite compress_cache.
  split_and!; [done|done| | | | |done|done|done].
  - intros k Hk. destruct (required_config s); [|done].
    by rewrite lookup_insert_ne.
  - intros k Hk. destruct (required_config s); [|done].
    destruct (decide (cache s = k)) as [<-|Hne].
    + by rewrite lookup_insert_eq.
    + by rewrite lookup_insert_ne.
  - by intros ->.
  - intros ->. split; [done|apply lookup_insert_eq].
Qed.

Lemma preview_keeps_files_witness :
  preview a_gated_preview = true
  ∧ (compress a_scandir an_isfile a_getsize a_gated_preview a_tree ["x"]
       a_cached_world).1 ≠ Ok Published
  ∧ required_config a_gated_preview = true
  ∧ w_cache (compress a_scandir an_isfile a_getsize a_gated_preview a_tree
               ["x"] a_cached_world).2 !! cache a_gated_preview
    = Some (info a_gated_preview).
Proof.
  split_and!; [reflexivity| |reflexivity|].
  - exact (proj1 (proj2 (proj2 (proj2 (proj2 (proj2 (proj2
             (preview_keeps_files a_scandir an_isfile a_getsize
                a_gated_preview a_tree ["x"] a_cached_world eq_refl)))))))).
  - exact (proj2 (proj1 (proj2 (proj2 (proj2 (proj2 (proj2
             (preview_keeps_files a_scandir an_isfile a_getsize
                a_gated_preview a_tree ["x"] a_cached_world eq_refl))))))
             eq_refl)).
Defined.

(** The claim as stated fails: a preview with the config required and no
    cache file yet creates the config record under the destination. *)
Lemma preview_creates_config_record :
  let r := compress a_scandir an_isfile a_getsize a_gated_preview a_tree
             ["x"] no_files in
  preview a_gated_preview = true
  ∧ w_cache no_files !! "proj.json" = None
  ∧ w_cache r.2 !! "proj.json" = Some (info a_gated_preview)
  ∧ r.2 ≠ no_files.
Proof.
  split_and!; [reflexivity|reflexivity|vm_compute; reflexivity|].
  intros Heq.
  assert (w_cache (compress a_scandir an_isfile a_getsize a_gated_preview
                     a_tree ["x"] no_files).2 !! "proj.json" = None) as Hn
    by (by rewrite Heq).
  revert Hn. vm_compute. discriminate.
Qed.

(** ** RetentionManager *)

(** C8 (the code fails it). An entry with a [.zip] suffix whose first ten
    characters split into three parts that are not a calendar date is not
    skipped: [int] or [datetime] raises [ValueError] and the scan stops, for
    an out-of-range month and day as for parts that are not numbers. *)
Theorem find_files_raises_on_bad_date :
  find_files a_filter an_invalid_date_listing = Raise ValueError
  ∧ find_files a_filter a_named_listing = Raise ValueError.
Proof. split; vm_compute; reflexivity. Qed.

(** The retention example of the specification: of the backups of
    2023-11-02, 2023-11-20 and 2023-12-05, on 2023-12-10, exactly the first
    is deleted. *)
Example auto_clean_spec_example :
  let r := auto_clean a_scandir a_filter a_spec_world in
  r.1 = Ok ()
  ∧ w_dest r.2 = {[ "2023-11-20-proj.zip" := a_backup;
                    "2023-12-05-proj.zip" := a_backup ]}.
Proof. split; vm_compute; reflexivity. Qed.

(** C2 (the code fails it). On 2023-12-10, with backups dated 2024-01-05 and
    2024-01-20, neither date is before December 2023, yet both are taken as
    candidates (their month number is smaller) and the older one is
    deleted. *)
Theorem auto_clean_deletes_later_year :
  let now := a_day in
  let r := auto_clean a_scandir a_filter a_future_world in
  today a_filter = Some now
  ∧ ¬ month_before {| year := 2024; month := 1; day := 5 |} now
  ∧ w_dest a_future_world !! "2024-01-05-proj.zip" = Some a_backup
  ∧ r.1 = Ok ()
  ∧ w_dest r.2 !! "2024-01-05-proj.zip" = None
  ∧ w_dest r.2 !! "2024-01-20-proj.zip" = Some a_backup.
Proof.
  split_and!; try (vm_compute; reflexivity).
  unfold month_before, a_day. simpl. lia.
Qed.

(** Where no backup is dated in a later year than today, the candidates are
    exactly the backups dated before the current (year, month). *)
Lemma selected_chronological now (f : string * date) :
  year f.2 ≤ year now →
  selected now f = true ↔ month_before f.2 now.
Proof.
  intros Hy. unfold selected, month_before.
  rewrite orb_true_iff, !Z.ltb_lt. lia.
Qed.

Lemma elem_of_doomed res files f : f ∈ doomed res files → f ∈ files.
Proof.
  revert res. induction files as [|g files IH]; intros res; simpl; [done|].
  destruct (same_month g.2 res).
  - intros [->|H]%elem_of_cons; [left|right; eauto].
  - intros H. right. eauto.
Qed.

Lemma elem_of_spared_or_doomed res files f :
  f ∈ files → f ∈ doomed res files ∨ f ∈ spared res files.
Proof.
  revert res. induction files as [|g files IH]; intros res; simpl.
  - by intros ?%elem_of_nil.
  - intros [->|H]%elem_of_cons; destruct (same_month g.2 res).
    + left. left.
    + right. left.
    + destruct (IH g.2 H); [left; by right|by right].
    + destruct (IH g.2 H); [by left|right; by right].
Qed.

Lemma NoDup_doomed res files :
  NoDup files.*1 → NoDup (doomed res files).*1.
Proof.
  revert res. induction files as [|g files IH]; intros res; simpl; [done|].
  rewrite NoDup_cons. intros [Hg Hnd]. destruct (same_month g.2 res); [|eauto].
  rewrite fmap_cons. apply NoDup_cons. split; [|eauto].
  intros (f & Hf & Hin)%list_elem_of_fmap. apply Hg.
  apply list_elem_of_fmap. exists f. split; [done|]. by eapply elem_of_doomed.
Qed.

Lemma sweep_nil files : ∀ res w,
  doomed res files = [] → sweep res files w = (Ok (), w).
Proof.
  induction files as [|[path d] files IH]; intros res w; simpl; [done|].
  unfold same_month. simpl. destruct (_ && _); [done|]. apply IH.
Qed.

(** The loop on files that are all there: it unlinks the doomed entries and
    nothing else. *)
Lemma sweep_spec files : ∀ res w,
  (∀ f, f ∈ doomed res files → ∃ c, w_dest w !! f.1 = Some (DFile c)) →
  NoDup (doomed res files).*1 →
  ∃ w', sweep res files w = (Ok (), w')
        ∧ w_cache w' = w_cache w
        ∧ ∀ nm, w_dest w' !! nm
                = if decide (nm ∈ (doomed res files).*1) then None
                  else w_dest w !! nm.
Proof.
  induction files as [|[path d] files IH]; intros res w.
  - intros _ _. exists w. split_and!; [done..|]. intros nm.
    destruct (decide _) as [Hin|]; [by apply elem_of_nil in Hin|done].
  - simpl.
    change ((month d =? month res) && (year d =? year res))
      with (same_month d res).
    destruct (same_month d res) eqn:Hsame.
    + intros Hthere. rewrite fmap_cons, NoDup_cons. intros [Hpath Hnd].
      destruct (Hthere (path, d)) as [c Hc]; [left|]. simpl in Hc.
      unfold unlink. rewrite Hc.
      destruct (IH d {| w_dest := delete path (w_dest w);
                        w_cache := w_cache w |}) as (w' & -> & Hcache & Hdest);
        [|done|].
      { intros f Hf. destruct (Hthere f) as [c' Hc']; [by right|].
        exists c'. simpl. rewrite lookup_delete_ne; [done|].
        intros ->. apply Hpath. apply list_elem_of_fmap. by exists f. }
      exists w'. split_and!; [done|done|]. intros nm. rewrite Hdest. simpl.
      destruct (decide (nm ∈ (doomed d files).*1)) as [Hin|Hin];
        destruct (decide (nm ∈ path :: (doomed d files).*1)) as [Hin'|Hin'];
        try done.
      * exfalso. apply Hin'. by right.
      * apply elem_of_cons in Hin' as [->|?]; [|done].
        apply lookup_delete_eq.
      * apply lookup_delete_ne. intros ->. apply Hin'. left.
    + apply IH.
Qed.

Lemma find_files_in_found tgt listing fs :
  find_files_in tgt listing = Ok fs →
  fs = omap (found tgt) listing
  ∧ Forall (λ e, ∃ r, find_file tgt e = Ok r) listing.
Proof.
  revert fs. induction listing as [|e listing IH]; intros fs; simpl.
  - by intros [= <-].
  - unfold found at 1. destruct (find_file tgt e) as [r|] eqn:He; [|done].
    rewrite bind_Ok.
    destruct (find_files_in tgt listing) as [rs|]; [|done].
    rewrite bind_Ok. intros [= <-]. destruct (IH rs eq_refl) as [-> Hall].
    split; [by destruct r|]. constructor; [by exists r|done].
Qed.

Lemma find_files_in_all_found tgt listing :
  Forall (λ e, ∃ r, find_file tgt e = Ok r) listing →
  find_files_in tgt listing = Ok (omap (found tgt) listing).
Proof.
  induction 1 as [|e listing [r Hr] _ IH]; simpl; [done|].
  unfold found at 1. rewrite Hr, bind_Ok, IH, bind_Ok. by destruct r.
Qed.

(** What is yielded is a file of the listing, under its own name. *)
Lemma found_entry tgt e f :
  found tgt e = Some f → f.1 = e.1 ∧ ∃ c, e.2 = DFile c.
Proof.
  unfold found, find_file. destruct e as [nm [|c]]; simpl; [done|].
  destruct (negb _); [done|].
  destruct (split "-" (upto 10 nm)) as [|y [|m [|d [|]]]]; try done.
  destruct (int y) as [y'|]; [|done]. rewrite bind_Ok.
  destruct (int m) as [m'|]; [|done]. rewrite bind_Ok.
  destruct (int d) as [d'|]; [|done]. rewrite bind_Ok.
  destruct (datetime y' m' d') as [dt|]; [|done]. rewrite bind_Ok.
  destruct (String.eqb _ _); [|done]. intros [= <-]. eauto.
Qed.

Lemma elem_of_List_filter {A} (p : A → bool) (l : list A) x :
  x ∈ List.filter p l ↔ x ∈ l ∧ p x = true.
Proof. by rewrite !list_elem_of_In, filter_In. Qed.

Lemma NoDup_List_filter {A B} (key : A → B) (p : A → bool) (l : list A) :
  NoDup (key <$> l) → NoDup (key <$> List.filter p l).
Proof.
  induction l as [|x l IH]; simpl; [done|].
  rewrite NoDup_cons. intros [Hx Hnd]. destruct (p x); [|eauto].
  rewrite fmap_cons. apply NoDup_cons. split; [|eauto].
  intros (y & Hy & [Hin _]%elem_of_List_filter)%list_elem_of_fmap.
  apply Hx, list_elem_of_fmap. eauto.
Qed.

Lemma NoDup_found tgt listing :
  NoDup listing.*1 → NoDup (omap (found tgt) listing).*1.
Proof.
  induction listing as [|e listing IH]; simpl; [done|].
  rewrite NoDup_cons. intros [He Hnd].
  destruct (found tgt e) as [f|] eqn:Hf; [|eauto].
  rewrite fmap_cons. apply NoDup_cons. split; [|eauto].
  intros (g & Hg & (e' & Hin & He')%list_elem_of_omap)%list_elem_of_fmap.
  apply He. apply list_elem_of_fmap. exists e'. split; [|done].
  apply found_entry in Hf as [<- _], He' as [<- _]. done.
Qed.

(** ** The order of dates *)

Lemma date_leb_total a b : date_leb a b = true ∨ date_leb b a = true.
Proof.
  unfold date_leb.
  rewrite !orb_true_iff, !andb_true_iff, !orb_true_iff, !andb_true_iff,
    !Z.ltb_lt, !Z.eqb_eq, !Z.leb_le. lia.
Qed.

Lemma date_leb_trans a b c :
  date_leb a b = true → date_leb b c = true → date_leb a c = true.
Proof.
  unfold date_leb.
  rewrite !orb_true_iff, !andb_true_iff, !orb_true_iff, !andb_true_iff,
    !Z.ltb_lt, !Z.eqb_eq, !Z.leb_le. lia.
Qed.

Lemma date_leb_month a b :
  date_leb a b = true → same_month a b = false → month_before a b.
Proof.
  unfold date_leb, same_month, month_before.
  rewrite !orb_true_iff, !andb_true_iff, !orb_true_iff, !andb_true_iff,
    andb_false_iff, !Z.ltb_lt, !Z.eqb_eq, !Z.eqb_neq, !Z.leb_le. lia.
Qed.

#[local] Instance newest_first_trans : Transitive newest_first.
Proof. intros x y z Hxy Hyz. by eapply date_leb_trans. Qed.

(** Of files sorted newest first, the loop spares at most one per
    (year, month), each of a month before the reference date. *)
Lemma spared_months files : ∀ res,
  Forall (λ f, date_leb f.2 res = true) files →
  StronglySorted newest_first files →
  Forall (λ f, month_before f.2 res) (spared res files)
  ∧ NoDup (month_of <$> spared res files).
Proof.
  induction files as [|f files IH]; intros res Hres Hsorted; simpl.
  - split; constructor.
  - apply Forall_cons in Hres as [Hf Hres].
    apply StronglySorted_inv in Hsorted as [Hsorted Hhd].
    destruct (IH f.2 Hhd Hsorted) as [Hbefore Hnd].
    destruct (same_month f.2 res) eqn:Hsame.
    + split; [|done]. eapply Forall_impl; [exact Hbefore|].
      intros g. unfold same_month in Hsame. unfold month_before.
      apply andb_true_iff in Hsame as [?%Z.eqb_eq ?%Z.eqb_eq]. lia.
    + pose proof (date_leb_month _ _ Hf Hsame) as Hfres. split.
      * constructor; [done|]. eapply Forall_impl; [exact Hbefore|].
        intros g. unfold month_before in *. lia.
      * rewrite fmap_cons. apply NoDup_cons. split; [|done].
        intros (g & Hg & Hin)%list_elem_of_fmap.
        rewrite Forall_forall in Hbefore. specialize (Hbefore g Hin).
        unfold month_of in Hg. injection Hg as Hy Hm.
        unfold month_before in Hbefore. lia.
Qed.

Lemma doomed_nil files : ∀ x,
  NoDup (month_of <$> x :: files) → doomed x.2 files = [].
Proof.
  induction files as [|f files IH]; intros x Hnd; [done|].
  rewrite !fmap_cons in Hnd. apply NoDup_cons in Hnd as [Hx Hnd]. simpl.
  destruct (same_month f.2 x.2) eqn:Hsame.
  - exfalso. apply Hx. unfold same_month in Hsame.
    apply andb_true_iff in Hsame as [Hm%Z.eqb_eq Hy%Z.eqb_eq].
    replace (month_of x) with (month_of f); [left|].
    unfold month_of. congruence.
  - by apply IH.
Qed.

(** How [__auto_clean] ends: without touching anything, or in the deleting
    loop over the candidates sorted newest first. *)
Lemma auto_clean_cases scandir s w :
  (auto_clean scandir s w).2 = w
  ∨ ∃ now latest older,
      today s = Some now
      ∧ find_files s (scandir (w_dest w))
        = Ok (omap (found (slice 11 4 (arcname s))) (scandir (w_dest w)))
      ∧ sorted (λ x y, date_leb y.2 x.2)
          (List.filter (selected now)
             (omap (found (slice 11 4 (arcname s))) (scandir (w_dest w))))
        = latest :: older
      ∧ auto_clean scandir s w = sweep latest.2 older w.
Proof.
  unfold auto_clean. destruct (dateless s); [by left|].
  destruct (today s) as [now|]; [|by left].
  destruct (find_files s _) as [fs|] eqn:Hfs; [|by left].
  apply find_files_in_found in Hfs as Hfound. destruct Hfound as [-> _].
  destruct (_ <? _)%nat; [by left|].
  destruct (sorted _ _) as [|latest older] eqn:Hsort; [by left|].
  right. by exists now, latest, older.
Qed.

(** The candidates of a listing without repeated names, sorted. *)
Lemma candidates_sorted tgt now listing latest older :
  NoDup listing.*1 →
  sorted (λ x y, date_leb y.2 x.2)
    (List.filter (selected now) (omap (found tgt) listing))
  = latest :: older →
  NoDup (latest :: older).*1
  ∧ StronglySorted newest_first (latest :: older)
  ∧ ∀ f, f ∈ latest :: older ↔
         selected now f = true ∧ ∃ e, e ∈ listing ∧ found tgt e = Some f.
Proof.
  intros Hnd Hsort. split_and!.
  - rewrite <- Hsort, sorted_Permutation.
    by apply NoDup_List_filter, NoDup_found.
  - rewrite <- Hsort. apply Sorted_StronglySorted; [apply _|].
    apply (sorted_Sorted (λ x y : string * date, date_leb y.2 x.2)).
    intros x y. apply date_leb_total.
  - intros f. rewrite <- Hsort, elem_of_sorted, elem_of_List_filter,
      list_elem_of_omap. tauto.
Qed.

(** C9. Where the host lists what the destination directory holds, a second
    run of [__auto_clean] right after a first one, under the same date,
    leaves the directory as the first run left it: it deletes nothing. *)
Theorem auto_clean_idempotent scandir s w :
  (∀ d, scandir d ≡ₚ map_to_list d) →
  let w1 := (auto_clean scandir s w).2 in
  (auto_clean scandir s w1).2 = w1.
Proof.
  intros Hscan w1. subst w1.
  destruct (auto_clean_cases scandir s w)
    as [Hsame|(now & latest & older & Hnow & _ & Hsort & Hrun)];
    [by rewrite !Hsame|].
  set (tgt := slice 11 4 (arcname s)) in *.
  assert (∀ d, NoDup (scandir d).*1) as Hnames.
  { intros d. rewrite Hscan. apply NoDup_fst_map_to_list. }
  assert (∀ d nm f, (nm, f) ∈ scandir d ↔ d !! nm = Some f) as Hlisted.
  { intros d nm f. rewrite Hscan. apply elem_of_map_to_list. }
  destruct (candidates_sorted tgt now _ latest older (Hnames _) Hsort)
    as (Hnd & Hsorted & Hcand).
  (* the first run unlinks the doomed entries *)
  destruct (sweep_spec older latest.2 w) as (w1 & Hsweep & _ & Hdest).
  { intros f Hf. apply elem_of_doomed in Hf.
    destruct (proj1 (Hcand f)) as (_ & [nm e] & He & Hfound); [by right|].
    apply found_entry in Hfound as [Hname [c Hc]]. simpl in Hname, Hc.
    subst e. rewrite Hname. exists c. by apply Hlisted. }
  { rewrite fmap_cons in Hnd. apply NoDup_cons in Hnd as [_ Hnd].
    by apply NoDup_doomed. }
  rewrite Hrun, Hsweep. simpl.
  (* the second run *)
  destruct (auto_clean_cases scandir s w1)
    as [Hsame|(now' & latest' & older' & Hnow' & _ & Hsort' & Hrun')];
    [done|].
  assert (now' = now) as -> by congruence.
  fold tgt in Hsort'.
  destruct (candidates_sorted tgt now _ latest' older' (Hnames _) Hsort')
    as (Hnd' & _ & Hcand').
  rewrite Hrun'. rewrite sweep_nil; [done|]. apply doomed_nil.
  (* what the first run spared has one entry per month *)
  apply StronglySorted_inv in Hsorted as [Hsorted Hhd].
  destruct (spared_months older latest.2 Hhd Hsorted) as [Hbefore Hmonths].
  assert (NoDup (month_of <$> latest :: spared latest.2 older)) as Hkept.
  { rewrite fmap_cons. apply NoDup_cons. split; [|done].
    intros (g & Hg & Hin)%list_elem_of_fmap.
    rewrite Forall_forall in Hbefore. specialize (Hbefore g Hin).
    unfold month_of in Hg. injection Hg as Hy Hm.
    unfold month_before in Hbefore. lia. }
  apply NoDup_fmap_2_strong; [|by apply NoDup_fmap_1 in Hnd'].
  assert (∀ f, f ∈ latest' :: older' → f ∈ latest :: spared latest.2 older)
    as Hin.
  { intros f (Hsel & [nm e] & He & Hfound)%Hcand'.
    apply Hlisted in He. rewrite Hdest in He.
    destruct (decide (nm ∈ (doomed latest.2 older).*1)) as [|Hnm]; [done|].
    apply Hlisted in He.
    assert (f ∈ latest :: older) as [->|Hold]%elem_of_cons
      by (apply Hcand; eauto); [left|].
    right. destruct (elem_of_spared_or_doomed latest.2 older f Hold)
      as [Hdoomed|]; [|done].
    exfalso. apply Hnm. apply found_entry in Hfound as [Hname _].
    simpl in Hname. rewrite <- Hname. apply list_elem_of_fmap. eauto. }
  intros x y Hx Hy. apply (NoDup_fmap_eq month_of _ x y Hkept); auto.
Qed.

Lemma auto_clean_idempotent_witness :
  (∀ d, a_scandir d ≡ₚ map_to_list d)
  ∧ (auto_clean a_scandir a_filter
       (auto_clean a_scandir a_filter a_spec_world).2).2
    = (auto_clean a_scandir a_filter a_spec_world).2.
Proof.
  assert (∀ d, a_scandir d ≡ₚ map_to_list d) as Hscan
    by (intros d; reflexivity).
  split; [exact Hscan|].
  exact (auto_clean_idempotent a_scandir a_filter a_spec_world Hscan).
Defined.

(** ** PathFilter: how [include] and [exclude] move [isValid] *)

Lemma isValid_occurs (s : session) (path : string) (dir : bool) :
  isValid s path dir = true
  ↔ (∃ a, a ∈ allowlist s ∧ occurs_in a (evaluated path dir))
    ∨ (∀ d, d ∈ denylist s → ¬ occurs_in d (evaluated path dir)).
Proof.
  unfold isValid. fold (evaluated path dir).
  destruct (existsb _ (elements (allowlist s))) eqn:Ha.
  - apply existsb_elements in Ha as (a & Ha & Hc%contains_occurs).
    split; [|done]. intros _. left. eauto.
  - assert (¬ ∃ a, a ∈ allowlist s ∧ occurs_in a (evaluated path dir)) as Hna.
    { intros (a & Hin & Hocc%contains_occurs).
      apply not_true_iff_false in Ha. apply Ha, existsb_elements. eauto. }
    rewrite negb_true_iff, <- not_true_iff_false, existsb_elements. split.
    + intros Hd. right. intros d Hin Hocc%contains_occurs. apply Hd. eauto.
    + intros [?|Hd]; [done|]. intros (d & Hin & Hocc%contains_occurs).
      by apply (Hd d).
Qed.

Lemma allowlist_include pattern s :
  allowlist (include pattern s)
  = allowlist s ∪ match pattern with
                  | inl l => list_to_set l
                  | inr p => {[ p ]}
                  end
  ∧ denylist (include pattern s) = denylist s.
Proof. by destruct pattern. Qed.

Lemma denylist_exclude pattern s :
  denylist (exclude pattern s)
  = denylist s ∪ match pattern with
                 | inl l => list_to_set l
                 | inr p => {[ p ]}
                 end
  ∧ allowlist (exclude pattern s) = allowlist s.
Proof. by destruct pattern. Qed.

(** X1. Adding patterns moves validity one way only: whatever [exclude]
    adds, a path that is valid afterwards was valid before, and whatever
    [include] adds, a path that was valid stays valid. *)
Theorem isValid_monotone pattern s path dir :
  (isValid (exclude pattern s) path dir = true → isValid s path dir = true)
  ∧ (isValid s path dir = true → isValid (include pattern s) path dir = true).
Proof.
  rewrite !isValid_occurs.
  destruct (denylist_exclude pattern s) as [-> ->].
  destruct (allowlist_include pattern s) as [-> ->].
  split.
  - intros [?|Hd]; [by left|]. right. intros d Hin. apply Hd.
    by apply elem_of_union_l.
  - intros [(a & Hin & Hocc)|?]; [|by right]. left. exists a.
    split; [by apply elem_of_union_l|done].
Qed.

Lemma occurs_in_empty s : occurs_in "" s.
Proof. by exists "", s. Qed.

(** X2. The patterns are substrings, so the empty pattern is in every path:
    included, it makes every path valid; excluded, it makes every path
    invalid that no allow pattern occurs in. *)
Theorem isValid_empty_pattern s path dir :
  isValid (include (inr "") s) path dir = true
  ∧ (isValid (exclude (inr "") s) path dir = true
     ↔ ∃ a, a ∈ allowlist s ∧ occurs_in a (evaluated path dir)).
Proof.
  rewrite !isValid_occurs.
  destruct (denylist_exclude (inr "") s) as [-> ->].
  destruct (allowlist_include (inr "") s) as [-> ->].
  split.
  - left. exists "". split; [|apply occurs_in_empty].
    apply elem_of_union_r. by apply elem_of_singleton.
  - split; [|by left]. intros [?|Hd]; [done|]. exfalso.
    apply (Hd ""); [|apply occurs_in_empty].
    apply elem_of_union_r. by apply elem_of_singleton.
Qed.

(** ** TreeEnumerator: what the enumeration holds *)

Lemma collect_app {A} (l1 l2 : list (result (list A))) :
  collect (l1 ++ l2) = (x ← collect l1; y ← collect l2; Ok (x ++ y)).
Proof.
  induction l1 as [|r l1 IH].
  - change (collect ([] : list (result (list A)))) with (@Ok (list A) []).
    rewrite bind_Ok, app_nil_l. by destruct (collect l2).
  - rewrite <- app_comm_cons, !collect_cons, IH.
    destruct r as [a|e]; [|done]. rewrite !bind_Ok.
    destruct (collect l1) as [x|e]; [|done]. rewrite !bind_Ok.
    destruct (collect l2) as [y|e]; [|done]. rewrite !bind_Ok.
    by rewrite (assoc_L (++)).
Qed.

Lemma collect_incl {A B} (g : A → result (list B)) (cs : list A) xs c l x :
  collect (g <$> cs) = Ok xs → c ∈ cs → g c = Ok l → x ∈ l → x ∈ xs.
Proof.
  revert xs. induction cs as [|c' cs IH]; intros xs Hxs Hc Hl Hx.
  - by apply elem_of_nil in Hc.
  - rewrite fmap_cons, collect_cons in Hxs.
    destruct (g c') as [l'|] eqn:Hc'; [|done]. rewrite bind_Ok in Hxs.
    destruct (collect (g <$> cs)) as [ys|]; [|done]. rewrite bind_Ok in Hxs.
    injection Hxs as <-. apply elem_of_app.
    apply elem_of_cons in Hc as [->|Hc].
    + left. congruence.
    + right. by apply IH.
Qed.

(** The directory case with the files and the folders in one sequence. *)
Lemma namelist_dir_children s path parent nm ch :
  isValid s path true = true →
  namelist s path parent (Dir nm ch)
  = let arc := arc_path parent (Dir nm ch) in
    xs ← collect ((λ c, namelist s (child_path path c) (Some arc) c)
                    <$> (sorted name_leb (List.filter is_file ch)
                         ++ sorted name_leb (List.filter is_dir ch)));
    Ok ((path +:+ "/", arc +:+ "/") :: xs).
Proof.
  intros Hv. rewrite namelist_dir by done. cbv zeta.
  rewrite fmap_app, collect_app.
  destruct (collect (_ <$> sorted name_leb (List.filter is_file ch)))
    as [fs|]; [|done]. rewrite !bind_Ok.
  destruct (collect (_ <$> sorted name_leb (List.filter is_dir ch)))
    as [ds|]; [|done]. by rewrite !bind_Ok.
Qed.

Lemma namelist_entries_valid s path parent n entries :
  namelist s path parent n = Ok entries → entries ≠ [] →
  isValid s path (is_dir n) = true.
Proof.
  intros Hn Hne. destruct (isValid s path (is_dir n)) eqn:Hv; [done|].
  rewrite namelist_invalid in Hn by done. congruence.
Qed.

(** X3. Every source path the enumeration yields passes the filter as it
    stands in the output: some allow pattern occurs in it, or no deny
    pattern does. *)
Theorem namelist_sound s n :
  ∀ path parent entries e,
    namelist s path parent n = Ok entries → e ∈ entries →
    (∃ a, a ∈ allowlist s ∧ occurs_in a e.1)
    ∨ (∀ d, d ∈ denylist s → ¬ occurs_in d e.1).
Proof.
  induction n as [nm sz|nm|nm ch IH] using node_induction;
    intros path parent entries e Hn He.
  - assert (entries ≠ []) as Hv by (by intros ->; apply elem_of_nil in He).
    apply (namelist_entries_valid _ _ _ _ _ Hn) in Hv.
    rewrite namelist_file in Hn by done. injection Hn as <-.
    apply list_elem_of_singleton in He as ->. by apply isValid_occurs in Hv.
  - simpl in Hn. destruct (isValid s path false); simpl in Hn; [done|].
    injection Hn as <-. by apply elem_of_nil in He.
  - assert (entries ≠ []) as Hv by (by intros ->; apply elem_of_nil in He).
    apply (namelist_entries_valid _ _ _ _ _ Hn) in Hv.
    destruct (namelist_dir_inv _ _ _ _ _ _ _ Hn He)
      as [->|(c & l & Hc & Hl & Hel)].
    + by apply isValid_occurs in Hv.
    + rewrite Forall_forall in IH. by eapply IH.
Qed.

(** Every pair is the node's own source and archive path followed by one and
    the same relative part. *)
Lemma namelist_relative s n :
  ∀ path parent entries e,
    namelist s path parent n = Ok entries → e ∈ entries →
    ∃ r, tail r ∧ e = (path +:+ r, arc_path parent n +:+ r).
Proof.
  induction n as [nm sz|nm|nm ch IH] using node_induction;
    intros path parent entries e Hn He.
  - assert (entries ≠ []) as Hv by (by intros ->; apply elem_of_nil in He).
    apply (namelist_entries_valid _ _ _ _ _ Hn) in Hv.
    rewrite namelist_file in Hn by done. injection Hn as <-.
    apply list_elem_of_singleton in He as ->. exists "".
    by rewrite !append_nil_r.
  - simpl in Hn. destruct (isValid s path false); simpl in Hn; [done|].
    injection Hn as <-. by apply elem_of_nil in He.
  - destruct (namelist_dir_inv _ _ _ _ _ _ _ Hn He)
      as [->|(c & l & Hc & Hl & Hel)]; [by exists "/"|].
    rewrite Forall_forall in IH.
    destruct (IH c Hc _ _ _ _ Hl Hel) as (r & Hr & ->).
    exists ("/" +:+ node_name c +:+ r). split; [done|].
    unfold child_path, arc_path at 1. by rewrite !append_assoc.
Qed.

Lemma admitted_kind s path n q m :
  admitted s path n q m → is_file n || is_dir n = true.
Proof. destruct 1; [done|apply orb_true_r]. Qed.

Lemma elem_of_sorted_children (c : node) (ch : list node) :
  c ∈ ch → is_file c || is_dir c = true →
  c ∈ sorted name_leb (List.filter is_file ch)
      ++ sorted name_leb (List.filter is_dir ch).
Proof.
  intros Hc [Hk|Hk]%orb_true_iff; apply elem_of_app; [left|right];
    by apply elem_of_sorted, elem_of_List_filter.
Qed.

(** X4. Nothing that passes the filter is left out: a file or directory
    that is valid, below directories that are all valid up to the target, is
    in the enumeration under its source path. *)
Theorem namelist_complete s path root q m parent :
  admitted s path root q m →
  ∃ entries, namelist s path parent root = Ok entries
             ∧ evaluated q (is_dir m) ∈ entries.*1.
Proof.
  intros Hadm. revert parent.
  induction Hadm as [path n Hv Hk|path nm ch c q m Hv Hc Hadm IH];
    intros parent.
  - destruct n as [nm sz|nm ch|nm]; [| |done].
    + rewrite namelist_file by done. eexists. split; [done|]. left.
    + destruct (namelist_returns s (Dir nm ch) path parent eq_refl)
        as [entries Hn].
      exists entries. split; [done|].
      rewrite namelist_dir_children in Hn by done. cbv zeta in Hn.
      destruct (collect _) as [xs|]; [|done]. rewrite bind_Ok in Hn.
      injection Hn as <-. left.
  - destruct (namelist_returns s (Dir nm ch) path parent eq_refl)
      as [entries Hn].
    exists entries. split; [done|].
    destruct (IH (Some (arc_path parent (Dir nm ch)))) as (l & Hl & Hin).
    rewrite namelist_dir_children in Hn by done. cbv zeta in Hn.
    destruct (collect _) as [xs|] eqn:Hxs; [|done]. rewrite bind_Ok in Hn.
    injection Hn as <-. rewrite fmap_cons. right.
    apply list_elem_of_fmap in Hin as (e & -> & He).
    apply list_elem_of_fmap. exists e. split; [done|].
    eapply (collect_incl _ _ _ c l e Hxs); [|done|done].
    apply elem_of_sorted_children; [done|]. by eapply admitted_kind.
Qed.

Lemma namelist_complete_witness :
  ∃ entries, namelist a_filter "/home/u/proj" None a_tree = Ok entries
             ∧ evaluated "/home/u/proj/src/lib.py" (is_dir (File "lib.py" 4))
               ∈ entries.*1.
Proof.
  refine (namelist_complete a_filter "/home/u/proj" a_tree
            "/home/u/proj/src/lib.py" (File "lib.py" 4) None _).
  eapply admitted_below; [vm_compute; reflexivity| |].
  { apply list_elem_of_further, list_elem_of_here. }
  eapply admitted_below; [vm_compute; reflexivity| |].
  { apply list_elem_of_further, list_elem_of_here. }
  apply admitted_here; vm_compute; reflexivity.
Defined.

Lemma NoDup_files_folders (ch : list node) :
  NoDup (node_name <$> ch) →
  NoDup (node_name <$> (sorted name_leb (List.filter is_file ch)
                        ++ sorted name_leb (List.filter is_dir ch))).
Proof.
  intros Hnd. rewrite !sorted_Permutation.
  induction ch as [|c ch IH]; [constructor|].
  rewrite fmap_cons in Hnd. apply NoDup_cons in Hnd as [Hc Hnd].
  specialize (IH Hnd).
  assert (∀ f : node → bool, node_name c ∉ node_name <$> List.filter f ch)
    as Hout.
  { intros f (x & Hx & [Hin _]%elem_of_List_filter)%list_elem_of_fmap.
    apply Hc, list_elem_of_fmap. eauto. }
  destruct c as [nm sz|nm sub|nm]; simpl; [| |done].
  - apply NoDup_cons. split; [|done]. rewrite fmap_app, elem_of_app.
    intros [?|?]; by eapply Hout.
  - rewrite fmap_app, fmap_cons. rewrite <- Permutation_middle.
    rewrite <- fmap_app. apply NoDup_cons. split; [|done].
    rewrite fmap_app, elem_of_app. intros [?|?]; by eapply Hout.
Qed.

(** Enumerations of children with different names share no source path. *)
Lemma collect_NoDup s path arc (cs : list node) : ∀ xs,
  NoDup (node_name <$> cs) →
  Forall (λ c, no_sep (node_name c) = true) cs →
  Forall (λ c, ∀ l, namelist s (child_path path c) (Some arc) c = Ok l →
               NoDup l.*1) cs →
  collect ((λ c, namelist s (child_path path c) (Some arc) c) <$> cs)
  = Ok xs →
  NoDup xs.*1.
Proof.
  induction cs as [|c cs IH]; intros xs Hnd Hsep Hsub Hxs.
  - injection Hxs as <-. constructor.
  - rewrite fmap_cons, collect_cons in Hxs.
    destruct (namelist s (child_path path c) (Some arc) c) as [l|] eqn:Hl;
      [|done].
    rewrite bind_Ok in Hxs.
    destruct (collect _) as [ys|] eqn:Hys; [|done]. rewrite bind_Ok in Hxs.
    injection Hxs as <-.
    rewrite fmap_cons in Hnd. apply NoDup_cons in Hnd as [Hc Hnd].
    apply Forall_cons in Hsep as [Hsc Hsep], Hsub as [Hlc Hsub].
    rewrite fmap_app. apply NoDup_app.
    split_and!; [by apply Hlc| |by eapply IH].
    intros src (e & -> & He)%list_elem_of_fmap
      (e' & Heq & He')%list_elem_of_fmap.
    destruct (collect_elem_of _ _ _ _ Hys He') as (c' & l' & Hc' & Hl' & Hel').
    destruct (namelist_under _ _ _ _ _ _ Hl He) as (r & Hr & Htl).
    destruct (namelist_under _ _ _ _ _ _ Hl' Hel') as (r' & Hr' & Htl').
    rewrite Heq, Hr' in Hr. unfold child_path in Hr.
    rewrite !append_assoc in Hr.
    apply (inj (String.app path)), (inj (String.app "/")) in Hr.
    rewrite Forall_forall in Hsep.
    apply no_sep_cancel in Hr; [|by apply Hsep|done|done|done].
    apply Hc. rewrite <- Hr. by apply list_elem_of_fmap_2.
Qed.

Lemma namelist_NoDup s n :
  ∀ path parent entries,
    well_named n = true →
    namelist s path parent n = Ok entries → NoDup entries.*1.
Proof.
  induction n as [nm sz|nm|nm ch IH] using node_induction;
    intros path parent entries Hwn Hn.
  - simpl in Hn. destruct (isValid s path false); simpl in Hn;
      injection Hn as <-; [apply NoDup_singleton|constructor].
  - simpl in Hn. destruct (isValid s path false); simpl in Hn; [done|].
    injection Hn as <-. constructor.
  - destruct (isValid s path true) eqn:Hv;
      [|rewrite namelist_invalid in Hn by done; injection Hn as <-;
        constructor].
    apply well_named_dir in Hwn as (Hnd & Hwn & Hplain).
    rewrite namelist_dir_children in Hn by done. cbv zeta in Hn.
    destruct (collect _) as [xs|] eqn:Hxs; [|done]. rewrite bind_Ok in Hn.
    injection Hn as <-. rewrite fmap_cons. apply NoDup_cons.
    assert (∀ c, c ∈ sorted name_leb (List.filter is_file ch)
                     ++ sorted name_leb (List.filter is_dir ch) → c ∈ ch)
      as Hsub.
    { intros c [Hc|Hc]%elem_of_app;
        by apply elem_of_sorted, elem_of_List_filter in Hc as [Hc _]. }
    rewrite Forall_forall in IH, Hwn, Hplain. split.
    + intros (e & Heq & He)%list_elem_of_fmap.
      destruct (collect_elem_of _ _ _ _ Hxs He) as (c & l & Hc & Hl & Hel).
      destruct (namelist_under _ _ _ _ _ _ Hl Hel) as (r & Hr & Htl).
      rewrite Hr in Heq. unfold child_path in Heq. simpl in Heq.
      rewrite !append_assoc in Heq.
      apply (inj (String.app path)), (inj (String.app "/")) in Heq.
      pose proof (Hplain c (Hsub c Hc)) as [Hne _]%andb_true_iff.
      destruct (node_name c); [done|]. by rewrite append_cons in Heq.
    + eapply collect_NoDup; [by apply NoDup_files_folders| | |exact Hxs].
      * apply Forall_forall. intros c Hc.
        by pose proof (Hplain c (Hsub c Hc)) as [_ ?]%andb_true_iff.
      * apply Forall_forall. intros c Hc l Hl. eapply IH; eauto.
Qed.

(** X6. Over a tree whose entries have distinct plain names, the
    enumeration yields no source path twice and no archive path twice: no
    archive member is written a second time. *)
Theorem namelist_no_repeats s n path parent entries :
  well_named n = true →
  namelist s path parent n = Ok entries →
  NoDup entries.*1 ∧ NoDup entries.*2.
Proof.
  intros Hwn Hn. pose proof (namelist_NoDup s n _ _ _ Hwn Hn) as Hnd.
  split; [done|]. apply NoDup_fmap_2_strong; [|by apply NoDup_fmap_1 in Hnd].
  intros e e' He He' Heq.
  destruct (namelist_relative s n _ _ _ _ Hn He) as (r & _ & ->).
  destruct (namelist_relative s n _ _ _ _ Hn He') as (r' & _ & ->).
  simpl in Heq. by apply (inj (String.app _)) in Heq as ->.
Qed.

Lemma namelist_no_repeats_witness :
  ∃ entries,
    namelist a_filter "/home/u/proj" None a_tree = Ok entries
    ∧ NoDup entries.*1 ∧ NoDup entries.*2.
Proof.
  eexists. split; [vm_compute; reflexivity|].
  refine (namelist_no_repeats a_filter a_tree "/home/u/proj" None _ _ _).
  - vm_compute; reflexivity.
  - vm_compute; reflexivity.
Defined.

(** X5. The archive paths mirror the source paths: the [namelist] and
    [arcnamelist] properties list, position by position, the target path and
    the target's name followed by one and the same relative part, which is
    empty or starts at a separator; no archive path carries the target's
    directory. *)
Theorem arcnamelist_mirrors_namelist s tree srcs :
  namelist_property s tree = Ok srcs →
  ∃ arcs, arcnamelist s tree = Ok arcs
          ∧ Forall2 (λ src arc, ∃ r, tail r ∧ src = target s +:+ r
                                     ∧ arc = node_name tree +:+ r)
              srcs arcs.
Proof.
  unfold namelist_property, arcnamelist.
  destruct (namelist s (target s) None tree) as [entries|] eqn:Hn; [|done].
  intros [= <-]. exists entries.*2. split; [done|].
  apply Forall2_fmap, Forall_Forall2_diag, Forall_forall. intros e He.
  destruct (namelist_relative s tree _ _ _ _ Hn He) as (r & Hr & ->).
  by exists r.
Qed.

Lemma arcnamelist_mirrors_namelist_witness :
  ∃ srcs arcs,
    namelist_property a_filter a_tree = Ok srcs
    ∧ arcnamelist a_filter a_tree = Ok arcs
    ∧ Forall2 (λ src arc, ∃ r, tail r ∧ src = target a_filter +:+ r
                               ∧ arc = node_name a_tree +:+ r)
        srcs arcs.
Proof.
  eexists. 
  assert (namelist_property a_filter a_tree
          = Ok (fst <$> [("/home/u/proj/", "proj/");
                         ("/home/u/proj/a.txt", "proj/a.txt");
                         ("/home/u/proj/b.txt", "proj/b.txt");
                         ("/home/u/proj/src/", "proj/src/");
                         ("/home/u/proj/src/lib.py", "proj/src/lib.py");
                         ("/home/u/proj/src/m.py", "proj/src/m.py")])) as Hs
    by (vm_compute; reflexivity).
  destruct (arcnamelist_mirrors_namelist a_filter a_tree _ Hs)
    as (arcs & Ha & Hm).
  exists arcs. split_and!; [exact Hs|exact Ha|exact Hm].
Defined.

Lemma namelist_sound_witness :
  (∃ a, a ∈ allowlist a_filter ∧ occurs_in a "/home/u/proj/src/m.py")
  ∨ (∀ d, d ∈ denylist a_filter → ¬ occurs_in d "/home/u/proj/src/m.py").
Proof.
  refine (namelist_sound a_filter a_tree "/home/u/proj" None _
            ("/home/u/proj/src/m.py", "proj/src/m.py") _ _).
  - vm_compute; reflexivity.
  - do 5 apply list_elem_of_further. apply list_elem_of_here.
Defined.

(** ** ConfigCache: the record written and read back *)

Lemma sorted_elements (X : gset string) :
  list_to_set (sorted String.leb (elements X)) = X.
Proof.
  rewrite (list_to_set_perm_L _ _ (sorted_Permutation String.leb _)).
  apply list_to_set_elements_L.
Qed.

Lemma info_no_underscore s k :
  String.prefix "_" k = true → r_rest (info s) !! k = None.
Proof.
  intros Hk. unfold info. simpl. apply map_lookup_filter_None. right.
  intros v _ [Hp _]. simpl in Hp. congruence.
Qed.

(** X7. The record [info] builds is well formed: each pattern list is in
    ascending order without repetition and holds exactly the patterns of its
    set, and among the other keys none starts with an underscore or spells
    one of the two lists, so no private attribute is ever persisted. *)
Theorem info_well_formed s :
  let r := info s in
  (Sorted (λ a b, String.leb a b = true) (r_allowlist r)
   ∧ NoDup (r_allowlist r) ∧ ∀ a, a ∈ r_allowlist r ↔ a ∈ allowlist s)
  ∧ (Sorted (λ a b, String.leb a b = true) (r_denylist r)
     ∧ NoDup (r_denylist r) ∧ ∀ d, d ∈ r_denylist r ↔ d ∈ denylist s)
  ∧ (∀ k, is_Some (r_rest r !! k) →
          String.prefix "_" k = false ∧ k ≠ "allowlist" ∧ k ≠ "denylist")
  ∧ record_plain r.
Proof.
  assert (∀ X : gset string,
            Sorted (λ a b, String.leb a b = true)
              (sorted String.leb (elements X))
            ∧ NoDup (sorted String.leb (elements X))
            ∧ ∀ a, a ∈ sorted String.leb (elements X) ↔ a ∈ X) as Hlist.
  { intros X. split_and!.
    - apply sorted_Sorted, String.leb_total.
    - rewrite sorted_Permutation. apply NoDup_elements.
    - intros a. by rewrite elem_of_sorted, elem_of_elements. }
  split_and!; try apply Hlist.
  - intros k [v Hv]. unfold info in Hv. simpl in Hv.
    apply map_lookup_filter_Some in Hv as (_ & Hp & Hn). simpl in *.
    split_and!; [done| |]; intros ->; apply Hn;
      [left|right; left].
  - intros k Hk. apply info_no_underscore. unfold private_names in Hk.
    repeat (apply elem_of_cons in Hk as [->|Hk]; [done|]).
    by apply elem_of_nil in Hk.
Qed.

Lemma namelist_filter_sets s s' n :
  allowlist s' = allowlist s → denylist s' = denylist s →
  ∀ path parent, namelist s' path parent n = namelist s path parent n.
Proof.
  intros Ha Hd.
  assert (∀ path dir, isValid s' path dir = isValid s path dir) as Hv.
  { intros path dir. unfold isValid. by rewrite Ha, Hd. }
  induction n as [nm sz|nm|nm ch IH] using node_induction;
    intros path parent.
  - simpl. by rewrite Hv.
  - simpl. by rewrite Hv.
  - destruct (isValid s path true) eqn:Hs.
    + rewrite !namelist_dir by (by rewrite ?Hv). cbv zeta.
      assert (∀ f : node → bool,
                (λ c, namelist s' (child_path path c)
                        (Some (arc_path parent (Dir nm ch))) c)
                <$> sorted name_leb (List.filter f ch)
                = (λ c, namelist s (child_path path c)
                          (Some (arc_path parent (Dir nm ch))) c)
                  <$> sorted name_leb (List.filter f ch)) as Heq.
      { intros f. apply Forall_fmap_ext, Forall_forall. intros c Hc.
        apply elem_of_sorted, elem_of_List_filter in Hc as [Hc _].
        rewrite Forall_forall in IH. by apply IH. }
      by rewrite !Heq.
    + by rewrite !namelist_invalid by (by rewrite ?Hv).
Qed.

(** X8. Round trip of the config record: after a [compress] of a session
    that requires the config, a session constructed with the config
    required against the same cache file has the same allow and deny sets,
    the same public settings, and therefore enumerates every tree as the
    saving session did. *)
Theorem config_round_trip scandir isfile getsize s tree names w
    tgt sv isf arc ac dl pv now :
  required_config s = true →
  base_name tgt isf arc +:+ ".json" = cache s →
  let w' := (compress scandir isfile getsize s tree names w).2 in
  let s' := init tgt sv isf arc ac true dl pv now w' in
  allowlist s' = allowlist s
  ∧ denylist s' = denylist s
  ∧ (∀ k v, String.prefix "_" k = false → k ∉ ["allowlist"; "denylist"] →
            attrs s !! k = Some v → attrs s' !! k = Some v)
  ∧ ∀ path parent n, namelist s' path parent n = namelist s path parent n.
Proof.
  intros Hreq Hcache w' s'.
  assert (w_cache w' !! cache s = Some (info s)) as Hrec.
  { unfold w'. by rewrite compress_cache, Hreq, lookup_insert_eq. }
  assert (s' = load_record (info s)
                 (before_config tgt sv isf arc ac true dl pv now)) as Hs'.
  { unfold s'. rewrite init_unfold. cbv zeta. simpl cache.
    by rewrite Hcache, Hrec. }
  assert (allowlist s' = allowlist s ∧ denylist s' = denylist s)
    as [Ha Hd].
  { rewrite Hs'. unfold load_record.
    match goal with
    | |- context [load_rest ?m ?b] =>
        destruct (load_rest_fields m b) as (-> & -> & _)
    end.
    simpl. rewrite !(left_id_L ∅ (∪)), !sorted_elements. done. }
  split_and!; [done|done| |];
    [|intros path parent n; by apply namelist_filter_sets].
  intros k v Hp Hk Hv. rewrite Hs'. unfold load_record.
  apply load_rest_attrs; [done|]. unfold info. simpl.
  by apply map_lookup_filter_Some.
Qed.

Lemma config_round_trip_witness :
  required_config a_gated_preview = true
  ∧ base_name "/home/u/proj" false None +:+ ".json" = cache a_gated_preview
  ∧ denylist (init "/home/u/proj" "/backup" false None false true false false
                a_day
                (compress a_scandir an_isfile a_getsize a_gated_preview
                   a_tree ["x"] no_files).2)
    = denylist a_gated_preview.
Proof.
  assert (base_name "/home/u/proj" false None +:+ ".json"
          = cache a_gated_preview) as Hc by (vm_compute; reflexivity).
  split_and!; [reflexivity|exact Hc|].
  exact (proj1 (proj2 (config_round_trip a_scandir an_isfile a_getsize
                         a_gated_preview a_tree ["x"] no_files
                         "/home/u/proj" "/backup" false None false false
                         false a_day eq_refl Hc))).
Defined.

(** ** Strings: lengths and slices *)

Lemma length_append (a b : string) :
  String.length (a +:+ b) = (String.length a + String.length b)%nat.
Proof. induction a as [|c a IH]; [done|]. rewrite append_cons. simpl. lia. Qed.

Lemma substring_skip (p s : string) (i m : nat) :
  String.substring (String.length p + i) m (p +:+ s) = String.substring i m s.
Proof. induction p as [|c p IH]; [done|]. by rewrite append_cons. Qed.

Lemma substring_prefix (b q : string) :
  String.substring 0 (String.length b) (b +:+ q) = b.
Proof.
  induction b as [|c b IH]; [by destruct q|].
  rewrite append_cons. simpl. by rewrite IH.
Qed.

Lemma substring_full (b : string) :
  String.substring 0 (String.length b) b = b.
Proof. rewrite <- (append_nil_r b) at 2. apply substring_prefix. Qed.

Lemma substring_middle (p b q : string) :
  String.substring (String.length p) (String.length b) (p +:+ b +:+ q) = b.
Proof.
  rewrite <- (Nat.add_0_r (String.length p)), substring_skip.
  apply substring_prefix.
Qed.

Lemma slice_suffix (a suf : string) :
  slice 0 (String.length suf) (a +:+ suf) = a.
Proof.
  unfold slice. rewrite length_append.
  replace (String.length a + String.length suf - String.length suf - 0)%nat
    with (String.length a) by lia.
  apply substring_prefix.
Qed.

Lemma endswith_append (a suf : string) : endswith suf (a +:+ suf) = true.
Proof.
  unfold endswith. rewrite length_append.
  rewrite (proj2 (Nat.leb_le _ _)) by lia.
  replace (String.length a + String.length suf - String.length suf)%nat
    with (String.length a) by lia.
  rewrite <- (Nat.add_0_r (String.length a)), substring_skip.
  by rewrite substring_full, String.eqb_refl.
Qed.

Lemma slice_middle (p b suf : string) :
  slice (String.length p) (String.length suf) (p +:+ b +:+ suf) = b.
Proof.
  unfold slice. rewrite !length_append.
  replace (String.length p + (String.length b + String.length suf)
           - String.length suf - String.length p)%nat
    with (String.length b) by lia.
  apply substring_middle.
Qed.

Lemma slice_zip (a : string) : slice 0 4 (a +:+ ".zip") = a.
Proof. exact (slice_suffix a ".zip"). Qed.

(** ** The names the constructor derives *)

Lemma load_rest_names (m : gmap string json) (s : session) :
  arcname (load_rest m s) = arcname s
  ∧ today (load_rest m s) = today s
  ∧ dateless (load_rest m s) = dateless s
  ∧ target (load_rest m s) = target s
  ∧ save (load_rest m s) = save s
  ∧ preview (load_rest m s) = preview s.
Proof.
  unfold load_rest.
  apply (map_fold_weak_ind
           (λ r _, arcname r = arcname s ∧ today r = today s
                   ∧ dateless r = dateless s ∧ target r = target s
                   ∧ save r = save s ∧ preview r = preview s));
    [done|].
  intros k v m' r _ IH. by case_bool_decide.
Qed.

(** The private names of a constructed session are those set before the
    config branch. *)
Lemma init_names tgt sv isf arc ac rc dl pv now w :
  let s := init tgt sv isf arc ac rc dl pv now w in
  let s0 := before_config tgt sv isf arc ac rc dl pv now in
  arcname s = arcname s0 ∧ today s = today s0 ∧ dateless s = dateless s0
  ∧ target s = target s0 ∧ save s = save s0 ∧ preview s = preview s0.
Proof.
  cbv zeta. rewrite init_unfold. cbv zeta.
  destruct (if rc then _ else None) as [r|]; [|done].
  unfold load_record.
  match goal with
  | |- context [load_rest ?m ?b] =>
      destruct (load_rest_names m b) as (-> & -> & -> & -> & -> & ->)
  end.
  done.
Qed.

(** X9. An explicit archive name may be given with or without its [.zip]
    suffix: both construct the same session (same archive name, same cache
    file). *)
Theorem init_strips_zip tgt sv isf a ac rc dl pv now w :
  endswith ".zip" a = false →
  init tgt sv isf (Some (a +:+ ".zip")) ac rc dl pv now w
  = init tgt sv isf (Some a) ac rc dl pv now w.
Proof.
  intros Ha. rewrite !init_unfold.
  assert (before_config tgt sv isf (Some (a +:+ ".zip")) ac rc dl pv now
          = before_config tgt sv isf (Some a) ac rc dl pv now) as ->; [|done].
  unfold before_config, base_name.
  by rewrite endswith_append, Ha, slice_zip.
Qed.

Lemma init_strips_zip_witness :
  endswith ".zip" "proj" = false
  ∧ init "/home/u/proj" "/backup" false (Some "proj.zip") true true false
      false a_day a_cached_world
    = init "/home/u/proj" "/backup" false (Some "proj") true true false
        false a_day a_cached_world.
Proof.
  split; [reflexivity|].
  exact (init_strips_zip "/home/u/proj" "/backup" false "proj" true true
           false false a_day a_cached_world eq_refl).
Defined.

(** X10. For every constructed session the [arcname] property is the
    archive file name without its suffix: the base name, behind the date and
    a dash unless the session is dateless; the archive is published under
    the destination as that name with [.zip], and the config is cached under
    the base name alone, whatever the date. *)
Theorem arcname_property_init tgt sv isf arc ac rc dl pv now w :
  let s := init tgt sv isf arc ac rc dl pv now w in
  let base := base_name tgt isf arc in
  arcname_property s = (if dl then base else strftime now +:+ "-" +:+ base)
  ∧ arcname s = arcname_property s +:+ ".zip"
  ∧ str s = sv +:+ "/" +:+ arcname_property s +:+ ".zip"
  ∧ cache s = base +:+ ".json".
Proof.
  intros s base.
  destruct (init_names tgt sv isf arc ac rc dl pv now w)
    as (Harc & _ & _ & _ & Hsave & _).
  fold s in Harc, Hsave. simpl in Harc, Hsave. fold base in Harc.
  assert (arcname_property s
          = (if dl then base else strftime now +:+ "-" +:+ base)) as Hprop.
  { unfold arcname_property. rewrite Harc. destruct dl.
    - apply slice_zip.
    - rewrite <- !append_assoc, slice_zip. by rewrite append_assoc. }
  unfold str. rewrite Hprop, Hsave, Harc. split_and!; [done| | |].
  - destruct dl; [done|]. by rewrite !append_assoc.
  - destruct dl; [done|]. by rewrite !append_assoc.
  - apply init_cache.
Qed.

(** ** Dates written and read back *)

Lemma digit_chars c d :
  digit c = Some d →
  isspace c = false ∧ Ascii.eqb c "-" = false ∧ Ascii.eqb c "_" = false
  ∧ c ≠ "+"%char ∧ c ≠ "-"%char.
Proof.
  intros Hd. split_and!; try (intros ->; vm_compute in Hd; discriminate).
  - unfold digit in Hd. unfold isspace.
    destruct (_ && _)%N eqn:Hr in Hd; [|done].
    apply andb_true_iff in Hr as [?%N.leb_le ?%N.leb_le].
    apply orb_false_iff. split.
    + apply andb_false_iff. right. apply N.leb_gt. lia.
    + apply N.eqb_neq. lia.
  - apply Ascii.eqb_neq. intros ->. vm_compute in Hd. discriminate.
  - apply Ascii.eqb_neq. intros ->. vm_compute in Hd. discriminate.
Qed.

Lemma digits_value s : ∀ acc sep,
  all_digits s = true → s ≠ "" ∨ sep = true →
  digits acc sep s = Some (value acc s).
Proof.
  induction s as [|c s IH]; intros acc sep Hall Hne; simpl.
  - by destruct Hne as [? | ->].
  - simpl in Hall. destruct (digit c) as [d|]; [|done]. simpl.
    apply IH; [done|by right].
Qed.

Lemma rev_app_rev_app (s t u : string) :
  String.rev_app (String.rev_app s t) u = String.rev_app t (s +:+ u).
Proof.
  revert t u. induction s as [|c s IH]; intros t u; [done|].
  simpl. by rewrite IH.
Qed.

Lemma rev_rev (s : string) : String.rev (String.rev s) = s.
Proof.
  unfold String.rev. rewrite rev_app_rev_app. simpl. apply append_nil_r.
Qed.

Lemma all_digits_rev_app (s t : string) :
  all_digits (String.rev_app s t) = all_digits s && all_digits t.
Proof.
  revert t. induction s as [|c s IH]; intros t; [done|].
  simpl. rewrite IH. simpl. destruct (digit c); [done|].
  by rewrite andb_false_r.
Qed.

Lemma lstrip_digits s : all_digits s = true → lstrip s = s.
Proof.
  destruct s as [|c s]; [done|]. simpl.
  destruct (digit c) as [d|] eqn:Hd; [|done].
  by destruct (digit_chars c d Hd) as (-> & _).
Qed.

Lemma strip_digits s : all_digits s = true → strip s = s.
Proof.
  intros Hall. unfold strip. rewrite (lstrip_digits s Hall).
  rewrite lstrip_digits; [apply rev_rev|].
  unfold String.rev. by rewrite all_digits_rev_app, Hall.
Qed.

(** [int] on a plain decimal numeral. *)
Lemma int_digits s :
  all_digits s = true → s ≠ "" → int s = Ok (value 0 s).
Proof.
  intros Hall Hne. unfold int. rewrite (strip_digits s Hall).
  destruct s as [|c t]; [done|].
  pose proof (digits_value (String c t) 0 false Hall (or_introl Hne)) as Hv.
  simpl in Hall. destruct (digit c) as [d|] eqn:Hd; [|done].
  destruct (digit_chars c d Hd) as (_ & _ & _ & Hplus & Hminus).
  destruct c as [[] [] [] [] [] [] [] []];
    try (vm_compute in Hd; discriminate); try done;
    by rewrite Hv.
Qed.

Lemma digit_digit_char k :
  (k < 10)%nat → digit (digit_char k) = Some (Z.of_nat k).
Proof. intros Hk. do 10 (destruct k as [|k]; [reflexivity|]). lia. Qed.

Lemma all_digits_app s t :
  all_digits (s +:+ t) = all_digits s && all_digits t.
Proof.
  induction s as [|c s IH]; [done|]. rewrite append_cons. simpl.
  by destruct (digit c).
Qed.

Lemma value_app s t : ∀ acc, value acc (s +:+ t) = value (value acc s) t.
Proof.
  induction s as [|c s IH]; intros acc; [done|].
  rewrite append_cons. simpl. apply IH.
Qed.

Lemma zpad_spec w : ∀ n,
  String.length (zpad w n) = w
  ∧ all_digits (zpad w n) = true
  ∧ value 0 (zpad w n) = Z.of_nat (n mod 10 ^ w).
Proof.
  induction w as [|w IH]; intros n.
  - split_and!; [done..|]. change (10 ^ 0)%nat with 1%nat.
    by rewrite Nat.mod_1_r.
  - destruct (IH (n / 10)%nat) as (Hlen & Hall & Hval).
    assert (n mod 10 < 10)%nat as Hlt by (apply Nat.mod_upper_bound; lia).
    change (zpad (S w) n)
      with (zpad w (n / 10) +:+ String (digit_char (n mod 10)) EmptyString).
    rewrite length_append, all_digits_app, value_app, Hlen, Hall, Hval.
    cbn [String.length all_digits value andb].
    rewrite (digit_digit_char _ Hlt). split_and!; [lia|done|].
    cbn [default from_option id]. rewrite Nat.pow_succ_r', Nat.Div0.mod_mul_r.
    lia.
Qed.

Lemma zpad_int w n :
  (0 < w)%nat → (n < 10 ^ w)%nat → int (zpad w n) = Ok (Z.of_nat n).
Proof.
  intros Hw Hn. destruct (zpad_spec w n) as (Hlen & Hall & Hval).
  rewrite int_digits; [|done|].
  - by rewrite Hval, Nat.mod_small.
  - intros Hnil. rewrite Hnil in Hlen. simpl in Hlen. lia.
Qed.

Lemma split_digits s : all_digits s = true → split "-" s = [s].
Proof.
  induction s as [|c s IH]; [done|]. simpl.
  destruct (digit c) as [d|] eqn:Hd; [|done]. intros Hall.
  destruct (digit_chars c d Hd) as (_ & -> & _). by rewrite IH.
Qed.

Lemma split_digits_dash s t :
  all_digits s = true → split "-" (s +:+ "-" +:+ t) = s :: split "-" t.
Proof.
  induction s as [|c s IH]; [done|]. rewrite append_cons. simpl.
  destruct (digit c) as [d|] eqn:Hd; [|done]. intros Hall.
  destruct (digit_chars c d Hd) as (_ & -> & _). by rewrite IH.
Qed.

Lemma rfind_dot_zip s : rfind "." (s +:+ ".zip") = Some (String.length s).
Proof.
  induction s as [|c s IH]; [done|]. rewrite append_cons. simpl.
  by rewrite IH.
Qed.

Lemma path_suffix_zip s : s ≠ "" → path_suffix (s +:+ ".zip") = ".zip".
Proof.
  intros Hs. unfold path_suffix. rewrite rfind_dot_zip, length_append.
  assert (0 < String.length s)%nat as Hlen by (destruct s; [done|simpl; lia]).
  rewrite (proj2 (Nat.ltb_lt _ _)) by lia.
  rewrite (proj2 (Nat.ltb_lt _ _)) by (simpl; lia). simpl andb. cbv iota.
  replace (String.length s + String.length ".zip" - String.length s)%nat
    with (String.length ".zip") by lia.
  rewrite <- (Nat.add_0_r (String.length s)) at 1.
  by rewrite substring_skip.
Qed.

Lemma year_digits_four y : (1000 ≤ y)%nat → year_digits y = zpad 4 y.
Proof.
  intros Hy. unfold year_digits.
  by rewrite !(proj2 (Nat.ltb_ge _ _)) by lia.
Qed.

Lemma strftime_spec now :
  1000 ≤ year now < 10000 → 0 ≤ month now < 100 → 0 ≤ day now < 100 →
  String.length (strftime now) = 10%nat
  ∧ ∃ ys ms ds,
      split "-" (strftime now) = [ys; ms; ds]
      ∧ int ys = Ok (year now) ∧ int ms = Ok (month now)
      ∧ int ds = Ok (day now).
Proof.
  intros Hy Hm Hd. unfold strftime.
  rewrite year_digits_four by lia.
  destruct (zpad_spec 4 (Z.to_nat (year now))) as (Hl4 & Ha4 & _).
  destruct (zpad_spec 2 (Z.to_nat (month now))) as (Hl2 & Ha2 & _).
  destruct (zpad_spec 2 (Z.to_nat (day now))) as (Hl2' & Ha2' & _).
  split.
  - rewrite !length_append, Hl4, Hl2, Hl2'. done.
  - eexists _, _, _. split.
    + by rewrite !split_digits_dash, split_digits by done.
    + rewrite !zpad_int; [|lia|simpl; lia|lia|simpl; lia|lia|simpl; lia].
      by rewrite !Z2Nat.id by lia.
Qed.

Lemma datetime_Ok y m d now :
  datetime y m d = Ok now →
  now = {| year := y; month := m; day := d |}
  ∧ 1 ≤ y ≤ 9999 ∧ 1 ≤ m ≤ 12 ∧ 1 ≤ d ≤ 31.
Proof.
  unfold datetime. destruct (_ && _) eqn:Hr; [|done]. intros [= <-].
  repeat (apply andb_true_iff in Hr as [Hr ?]).
  repeat match goal with H : (_ <=? _) = true |- _ => apply Z.leb_le in H end.
  split; [done|].
  assert (days_in_month y m ≤ 31).
  { unfold days_in_month. destruct (m =? 2); [by destruct (is_leap y)|].
    by destruct (_ || _). }
  lia.
Qed.

(** The archive name of a dated session, read back by [__find_files]. *)
Lemma archive_name_found tgt sv isf arc ac rc pv y m d now w c :
  datetime y m d = Ok now → 1000 ≤ y →
  let s := init tgt sv isf arc ac rc false pv now w in
  slice 11 4 (arcname s) = base_name tgt isf arc
  ∧ find_file (slice 11 4 (arcname s)) (arcname s, DFile c)
    = Ok (Some (arcname s, now)).
Proof.
  intros Hdt Hy s.
  destruct (datetime_Ok _ _ _ _ Hdt) as (Hnow & Hyr & Hmr & Hdr).
  destruct (init_names tgt sv isf arc ac rc false pv now w) as (Harc & _).
  fold s in Harc. simpl in Harc.
  set (base := base_name tgt isf arc) in *.
  destruct (strftime_spec now)
    as (Hlen & ys & ms & ds & Hsplit & Hys & Hms & Hds);
    [subst now; simpl; lia..|].
  assert (slice 11 4 (arcname s) = base) as Hrem.
  { rewrite Harc, <- (append_assoc (strftime now) "-").
    replace 11%nat with (String.length (strftime now +:+ "-"))
      by (by rewrite length_append, Hlen).
    apply (slice_middle _ base ".zip"). }
  split; [done|]. rewrite Hrem. unfold find_file. simpl.
  assert (path_suffix (arcname s) = ".zip") as ->.
  { rewrite Harc, <- !append_assoc. apply path_suffix_zip.
    intros Hnil. apply (f_equal String.length) in Hnil.
    rewrite !length_append, Hlen in Hnil. simpl in Hnil. lia. }
  simpl.
  assert (upto 10 (arcname s) = strftime now) as ->.
  { rewrite Harc. unfold upto. rewrite <- Hlen. apply substring_prefix. }
  rewrite Hsplit, Hys, Hms, Hds, !bind_Ok.
  assert (datetime (year now) (month now) (day now) = Ok now) as ->
    by (by subst now).
  by rewrite bind_Ok, Hrem, String.eqb_refl.
Qed.

(** X11. The date the constructor writes into the archive name is the date
    [__find_files] reads back: for a dated session the name remainder of its
    own archive name is its base name, and the archive, once in the
    destination, is found as a backup of this target dated today. *)
Theorem own_archive_found tgt sv isf arc ac rc pv y m d now w c :
  datetime y m d = Ok now → 1000 ≤ y →
  let s := init tgt sv isf arc ac rc false pv now w in
  slice 11 4 (arcname s) = base_name tgt isf arc
  ∧ find_file (slice 11 4 (arcname s)) (arcname s, DFile c)
    = Ok (Some (arcname s, now)).
Proof. apply archive_name_found. Qed.

Lemma own_archive_found_witness :
  datetime 2023 12 10 = Ok a_day ∧ 1000 ≤ 2023
  ∧ find_file
      (slice 11 4
         (arcname (init "/home/u/proj" "/backup" false None true false false
                     false a_day no_files)))
      (arcname (init "/home/u/proj" "/backup" false None true false false
                  false a_day no_files), DFile (Zip []))
    = Ok (Some (arcname (init "/home/u/proj" "/backup" false None true false
                           false false a_day no_files), a_day)).
Proof.
  assert (datetime 2023 12 10 = Ok a_day) as Hd by reflexivity.
  split_and!; [exact Hd|lia|].
  exact (proj2 (own_archive_found "/home/u/proj" "/backup" false None true
                  false false 2023 12 10 a_day no_files (Zip []) Hd
                  ltac:(lia))).
Defined.

(** ** Retention: what [__auto_clean] deletes and what it keeps *)

Lemma date_leb_refl a : date_leb a a = true.
Proof. by destruct (date_leb_total a a). Qed.

Lemma elem_of_spared res files f : f ∈ spared res files → f ∈ files.
Proof.
  revert res. induction files as [|g files IH]; intros res; simpl; [done|].
  destruct (same_month g.2 res).
  - intros H. right. eauto.
  - intros [->|H]%elem_of_cons; [left|right; eauto].
Qed.

(** With distinct names, what the loop spares is not unlinked. *)
Lemma spared_not_doomed files : ∀ res g,
  NoDup files.*1 → g ∈ spared res files → g.1 ∉ (doomed res files).*1.
Proof.
  induction files as [|f files IH]; intros res g; simpl.
  { by intros _ ?%elem_of_nil. }
  rewrite NoDup_cons. intros [Hf Hnd].
  destruct (same_month f.2 res).
  - intros Hg. rewrite fmap_cons, not_elem_of_cons. split; [|by apply IH].
    intros Heq. apply Hf. rewrite <- Heq. apply list_elem_of_fmap.
    exists g. split; [done|]. by eapply elem_of_spared.
  - intros [->|Hg]%elem_of_cons; [|by apply IH].
    intros (h & Hh & Hin)%list_elem_of_fmap. apply Hf. rewrite Hh.
    apply list_elem_of_fmap. exists h. split; [done|].
    by eapply elem_of_doomed.
Qed.

(** Of files sorted newest first, every one has a spared one of its
    (year, month) that is at least as recent. *)
Lemma newest_kept files : ∀ x f,
  StronglySorted newest_first (x :: files) → f ∈ x :: files →
  ∃ g, g ∈ x :: spared x.2 files
       ∧ month_of g = month_of f ∧ date_leb f.2 g.2 = true.
Proof.
  induction files as [|y files IH]; intros x f Hsorted.
  { intros ->%list_elem_of_singleton. exists x.
    split_and!; [left|done|apply date_leb_refl]. }
  intros [->|Hf]%elem_of_cons.
  { exists x. split_and!; [left|done|apply date_leb_refl]. }
  apply StronglySorted_inv in Hsorted as [Hsorted Hhd].
  apply Forall_cons in Hhd as [Hyx _].
  destruct (IH y f Hsorted Hf) as (g & Hg & Hmonth & Hle).
  simpl. destruct (same_month y.2 x.2) eqn:Hsame.
  - apply elem_of_cons in Hg as [->|Hg].
    + exists x. split_and!; [left| |by eapply date_leb_trans].
      rewrite <- Hmonth. unfold same_month in Hsame.
      apply andb_true_iff in Hsame as [Hm%Z.eqb_eq Hy%Z.eqb_eq].
      unfold month_of. congruence.
    + exists g. split_and!; [by right|done..].
  - exists g. split_and!; [by right|done..].
Qed.

(** What the loop leaves of files sorted newest first has one entry per
    (year, month). *)
Lemma kept_months x files :
  StronglySorted newest_first (x :: files) →
  NoDup (month_of <$> x :: spared x.2 files).
Proof.
  intros [Hsorted Hhd]%StronglySorted_inv.
  destruct (spared_months files x.2 Hhd Hsorted) as [Hbefore Hmonths].
  rewrite fmap_cons. apply NoDup_cons. split; [|done].
  intros (g & Hg & Hin)%list_elem_of_fmap.
  rewrite Forall_forall in Hbefore. specialize (Hbefore g Hin).
  unfold month_of in Hg. injection Hg as Hy Hm.
  unfold month_before in Hbefore. lia.
Qed.

(** Where the host lists what the directory holds, the entries that
    [__find_files] yields are the backups. *)
Lemma found_backup scandir s d f :
  (∀ d, scandir d ≡ₚ map_to_list d) →
  f ∈ omap (found (slice 11 4 (arcname s))) (scandir d) ↔ backup s d f.
Proof.
  intros Hscan. rewrite list_elem_of_omap. unfold backup. split.
  - intros ([nm e] & Hin & Hf). rewrite Hscan in Hin.
    apply elem_of_map_to_list in Hin.
    destruct (found_entry _ _ _ Hf) as [Hname [c Hc]]. simpl in Hname, Hc.
    subst e nm. exists c. split; [done|]. unfold found in Hf.
    by destruct (find_file _ _) as [r|]; [subst r|].
  - intros (c & Hc & Hf). exists (f.1, DFile c). split.
    + rewrite Hscan. by apply elem_of_map_to_list.
    + unfold found. by rewrite Hf.
Qed.

Lemma backup_name s d f g : backup s d f → backup s d g → f.1 = g.1 → f = g.
Proof.
  intros (c & Hc & Hf) (c' & Hc' & Hg) Heq. rewrite Heq in Hc, Hf. congruence.
Qed.

Lemma length_lt_2 {A} (l : list A) x y :
  (length l < 2)%nat → x ∈ l → y ∈ l → x = y.
Proof.
  destruct l as [|a [|b l]]; simpl; [by intros _ ?%elem_of_nil| |lia].
  by intros _ ->%list_elem_of_singleton ->%list_elem_of_singleton.
Qed.

(** A run of [__auto_clean] for a dated session, where the host lists what
    the destination holds: it stops on an exception of [__find_files], or
    finds fewer than two candidates, or unlinks what the loop dooms among
    the candidates sorted newest first. *)
Lemma auto_clean_run scandir s w now :
  (∀ d, scandir d ≡ₚ map_to_list d) →
  dateless s = false → today s = Some now →
  let cands :=
    List.filter (selected now)
      (omap (found (slice 11 4 (arcname s))) (scandir (w_dest w))) in
  (∃ e, auto_clean scandir s w = (Raise e, w))
  ∨ (auto_clean scandir s w = (Ok (), w) ∧ (length cands < 2)%nat)
  ∨ ∃ latest older w',
      sorted (λ x y, date_leb y.2 x.2) cands = latest :: older
      ∧ NoDup (latest :: older).*1
      ∧ StronglySorted newest_first (latest :: older)
      ∧ (∀ f, f ∈ latest :: older ↔
              selected now f = true ∧ backup s (w_dest w) f)
      ∧ auto_clean scandir s w = (Ok (), w')
      ∧ w_cache w' = w_cache w
      ∧ ∀ nm, w_dest w' !! nm
              = if decide (nm ∈ (doomed latest.2 older).*1) then None
                else w_dest w !! nm.
Proof.
  intros Hscan Hdl Hnow cands. unfold auto_clean. rewrite Hdl, Hnow.
  destruct (find_files s _) as [fs|e] eqn:Hfs; [|left; by exists e].
  right. apply find_files_in_found in Hfs as [-> _]. fold cands.
  destruct (length cands <? 2)%nat eqn:Hlen.
  { left. by apply Nat.ltb_lt in Hlen. }
  right. destruct (sorted _ cands) as [|latest older] eqn:Hsort.
  { exfalso. apply Nat.ltb_ge in Hlen.
    pose proof (sorted_Permutation (λ x y : string * date,
                  date_leb y.2 x.2) cands) as Hp.
    rewrite Hsort in Hp. apply Permutation_length in Hp. simpl in Hp. lia. }
  assert (NoDup (scandir (w_dest w)).*1) as Hnames
    by (rewrite Hscan; apply NoDup_fst_map_to_list).
  destruct (candidates_sorted _ now _ latest older Hnames Hsort)
    as (Hnd & Hsorted & Hcand).
  assert (∀ f, f ∈ latest :: older ↔
            selected now f = true ∧ backup s (w_dest w) f) as Hcand'.
  { intros f. rewrite Hcand, <- (found_backup scandir s _ f Hscan),
      list_elem_of_omap. done. }
  destruct (sweep_spec older latest.2 w) as (w' & Hsweep & Hcache & Hdest).
  { intros f Hf. apply elem_of_doomed in Hf.
    destruct (proj1 (Hcand' f)) as (_ & c & Hc & _); [by right|]. eauto. }
  { rewrite fmap_cons in Hnd. apply NoDup_cons in Hnd as [_ Hnd].
    by apply NoDup_doomed. }
  exists latest, older, w'. by split_and!.
Qed.

(** X12. Where the host lists what the destination holds, [__auto_clean]
    never writes the config cache, creates no entry and changes none: an
    entry is as before or gone, and what is gone was a file that
    [__find_files] yields as a backup of this target with a date selected as
    a candidate (so no directory, no file of another name, no backup of the
    current month). It either returns normally or leaves everything as it
    was. *)
Theorem auto_clean_frame scandir s w :
  (∀ d, scandir d ≡ₚ map_to_list d) →
  let r := auto_clean scandir s w in
  w_cache r.2 = w_cache w
  ∧ (∀ nm, w_dest r.2 !! nm = w_dest w !! nm
           ∨ (w_dest r.2 !! nm = None
              ∧ ∃ now d, today s = Some now
                         ∧ selected now (nm, d) = true
                         ∧ backup s (w_dest w) (nm, d)))
  ∧ (r.1 = Ok () ∨ r.2 = w).
Proof.
  intros Hscan r. subst r.
  destruct (dateless s) eqn:Hdl.
  { unfold auto_clean. rewrite Hdl. split_and!; [done|by left|by left]. }
  destruct (today s) as [now|] eqn:Hnow.
  2:{ unfold auto_clean. rewrite Hdl, Hnow.
      split_and!; [done|by left|by right]. }
  destruct (auto_clean_run scandir s w now Hscan Hdl Hnow)
    as [[e ->]|[[-> _]|(latest & older & w' & _ & _ & _ & Hcand & -> & Hc
                        & Hdest)]].
  - split_and!; [done|by left|by right].
  - split_and!; [done|by left|by left].
  - simpl. split_and!; [done| |by left]. intros nm. rewrite Hdest.
    destruct (decide _) as [Hin|]; [right|by left]. split; [done|].
    apply list_elem_of_fmap in Hin as ([nm' d] & -> & Hin).
    apply elem_of_doomed in Hin.
    destruct (proj1 (Hcand (nm', d))) as [Hsel Hb]; [by right|].
    by exists now, d.
Qed.

Lemma auto_clean_frame_witness :
  (∀ d, a_scandir d ≡ₚ map_to_list d)
  ∧ w_cache (auto_clean a_scandir a_filter a_spec_world).2
    = w_cache a_spec_world.
Proof.
  assert (∀ d, a_scandir d ≡ₚ map_to_list d) as Hscan
    by (intros d; reflexivity).
  split; [exact Hscan|].
  exact (proj1 (auto_clean_frame a_scandir a_filter a_spec_world Hscan)).
Defined.

(** X13. [__auto_clean] never removes the newest backup of a month: for
    every backup of the target in the destination before the run there is,
    after the run, a backup of the same year and month that is at least as
    recent. *)
Theorem auto_clean_keeps_newest scandir s w f :
  (∀ d, scandir d ≡ₚ map_to_list d) →
  backup s (w_dest w) f →
  ∃ g, backup s (w_dest (auto_clean scandir s w).2) g
       ∧ month_of g = month_of f ∧ date_leb f.2 g.2 = true.
Proof.
  intros Hscan Hf.
  assert (backup s (w_dest w) f ∧ month_of f = month_of f
          ∧ date_leb f.2 f.2 = true) as Hsame
    by (split_and!; [done..|apply date_leb_refl]).
  destruct (dateless s) eqn:Hdl.
  { exists f. unfold auto_clean. by rewrite Hdl. }
  destruct (today s) as [now|] eqn:Hnow.
  2:{ exists f. unfold auto_clean. by rewrite Hdl, Hnow. }
  destruct (auto_clean_run scandir s w now Hscan Hdl Hnow)
    as [[e ->]|[[-> _]|(latest & older & w' & _ & Hnd & Hsorted & Hcand & ->
                        & _ & Hdest)]];
    [by exists f..|].
  simpl.
  assert (∀ g, g ∈ latest :: spared latest.2 older → backup s (w_dest w') g)
    as Hkept.
  { intros g Hg.
    assert (g ∈ latest :: older) as Hin.
    { apply elem_of_cons in Hg as [->|Hg]; [left|right].
      by eapply elem_of_spared. }
    destruct (proj1 (Hcand g) Hin) as (_ & c & Hc & Hfound).
    exists c. split; [|done]. rewrite Hdest.
    rewrite fmap_cons in Hnd. apply NoDup_cons in Hnd as [Hl Hnd].
    destruct (decide _) as [Hd|]; [exfalso|done].
    apply elem_of_cons in Hg as [->|Hg].
    - apply Hl. apply list_elem_of_fmap in Hd as (h & -> & Hh).
      apply list_elem_of_fmap. exists h. split; [done|].
      by eapply elem_of_doomed.
    - by apply (spared_not_doomed older latest.2 g Hnd Hg). }
  destruct (selected now f) eqn:Hsel.
  - destruct (newest_kept older latest f Hsorted) as (g & Hg & Hm & Hle).
    { by apply Hcand. }
    exists g. split_and!; [by apply Hkept|done..].
  - exists f. split_and!; [|done|apply date_leb_refl].
    destruct Hf as (c & Hc & Hfound). exists c. split; [|done].
    rewrite Hdest. destruct (decide _) as [Hd|]; [exfalso|done].
    apply list_elem_of_fmap in Hd as (h & Hname & Hh).
    apply elem_of_doomed in Hh.
    destruct (proj1 (Hcand h)) as [Hselh Hbh]; [by right|].
    assert (f = h) as -> by (eapply backup_name; [by exists c|done..]).
    congruence.
Qed.

Lemma auto_clean_keeps_newest_witness :
  (∀ d, a_scandir d ≡ₚ map_to_list d)
  ∧ backup a_filter (w_dest a_spec_world)
      ("2023-11-02-proj.zip", {| year := 2023; month := 11; day := 2 |})
  ∧ ∃ g, backup a_filter
           (w_dest (auto_clean a_scandir a_filter a_spec_world).2) g
         ∧ month_of g
           = month_of ("2023-11-02-proj.zip",
                       {| year := 2023; month := 11; day := 2 |})
         ∧ date_leb
             ("2023-11-02-proj.zip",
              {| year := 2023; month := 11; day := 2 |}).2 g.2 = true.
Proof.
  assert (∀ d, a_scandir d ≡ₚ map_to_list d) as Hscan
    by (intros d; reflexivity).
  assert (backup a_filter (w_dest a_spec_world)
            ("2023-11-02-proj.zip",
             {| year := 2023; month := 11; day := 2 |})) as Hb
    by (exists (Zip []); split; vm_compute; reflexivity).
  split_and!; [exact Hscan|exact Hb|].
  exact (auto_clean_keeps_newest a_scandir a_filter a_spec_world _ Hscan Hb).
Defined.

(** X14. After a normal return of [__auto_clean] for a dated session, the
    candidates left in the destination (the backups of the target dated
    before the current month, as [selected] has it) have pairwise different
    (year, month): at most one backup per past month remains. *)
Theorem auto_clean_one_per_month scandir s w now f g :
  (∀ d, scandir d ≡ₚ map_to_list d) →
  dateless s = false → today s = Some now →
  let r := auto_clean scandir s w in
  r.1 = Ok () →
  backup s (w_dest r.2) f → selected now f = true →
  backup s (w_dest r.2) g → selected now g = true →
  month_of f = month_of g → f = g.
Proof.
  intros Hscan Hdl Hnow r. subst r.
  destruct (auto_clean_run scandir s w now Hscan Hdl Hnow)
    as [[e ->]|[[-> Hlen]|(latest & older & w' & _ & Hnd & Hsorted & Hcand
                           & -> & _ & Hdest)]]; [done| |]; simpl.
  - intros _ Hf Hsf Hg Hsg _. apply (length_lt_2 _ f g Hlen);
      apply elem_of_List_filter; split; try done;
      by apply (found_backup scandir).
  - intros _ Hf Hsf Hg Hsg Hmonth.
    assert (∀ h, backup s (w_dest w') h → selected now h = true →
                 h ∈ latest :: spared latest.2 older) as Hkept.
    { intros h (c & Hc & Hfound) Hsel. rewrite Hdest in Hc.
      destruct (decide _) as [|Hnot]; [done|].
      assert (h ∈ latest :: older) as [->|Hin]%elem_of_cons
        by (apply Hcand; split; [done|by exists c]); [left|right].
      destruct (elem_of_spared_or_doomed latest.2 older h Hin) as [Hd|];
        [|done].
      exfalso. apply Hnot. apply list_elem_of_fmap. by exists h. }
    apply (NoDup_fmap_eq month_of (latest :: spared latest.2 older));
      [by apply kept_months|by apply Hkept..|done].
Qed.

Lemma auto_clean_one_per_month_witness :
  (∀ d, a_scandir d ≡ₚ map_to_list d)
  ∧ dateless a_filter = false ∧ today a_filter = Some a_day
  ∧ (auto_clean a_scandir a_filter a_spec_world).1 = Ok ()
  ∧ backup a_filter (w_dest (auto_clean a_scandir a_filter a_spec_world).2)
      ("2023-11-20-proj.zip", {| year := 2023; month := 11; day := 20 |})
  ∧ selected a_day
      ("2023-11-20-proj.zip", {| year := 2023; month := 11; day := 20 |})
    = true
  ∧ ("2023-11-20-proj.zip", {| year := 2023; month := 11; day := 20 |})
    = ("2023-11-20-proj.zip", {| year := 2023; month := 11; day := 20 |}).
Proof.
  assert (∀ d, a_scandir d ≡ₚ map_to_list d) as Hscan
    by (intros d; reflexivity).
  assert ((auto_clean a_scandir a_filter a_spec_world).1 = Ok ()) as Hok
    by (vm_compute; reflexivity).
  assert (backup a_filter
            (w_dest (auto_clean a_scandir a_filter a_spec_world).2)
            ("2023-11-20-proj.zip",
             {| year := 2023; month := 11; day := 20 |})) as Hb
    by (exists (Zip []); split; vm_compute; reflexivity).
  assert (selected a_day
            ("2023-11-20-proj.zip",
             {| year := 2023; month := 11; day := 20 |}) = true) as Hsel
    by reflexivity.
  split_and!; [exact Hscan|reflexivity|reflexivity|exact Hok|exact Hb
              |exact Hsel|].
  exact (auto_clean_one_per_month a_scandir a_filter a_spec_world a_day _ _
           Hscan eq_refl eq_refl Hok Hb Hsel Hb Hsel eq_refl).
Defined.

(** ** ArchiveBuilder: the temporary file and the publication *)


(** A run that gets to the archive: the archive replaces what the archive
    name held, the temporary file is gone, and [__auto_clean] follows. *)
Lemma compress_run scandir isfile getsize s tree names w entries :
  preview s = false →
  (required_config s = true → is_Some (w_cache w !! cache s)) →
  Exists (λ r, w_dest w !! ((path_name (target s) +:+ "_") +:+ r) = None)
    names →
  namelist s (target s) None tree = Ok entries →
  w_dest w !! arcname s ≠ Some DDir →
  let w1 :=
    {| w_dest := <[ arcname s := DFile (Zip entries) ]> (w_dest w);
       w_cache := if required_config s
                  then <[ cache s := info s ]> (w_cache w)
                  else w_cache w |} in
  compress scandir isfile getsize s tree names w
  = match attrs s !! "auto_clean" with
    | None => (Raise AttributeError, w1)
    | Some flag =>
        if truthy flag
        then match auto_clean scandir s w1 with
             | (Ok _, w2) => (Ok Published, w2)
             | (Raise e, w2) => (Raise e, w2)
             end
        else (Ok Published, w1)
    end.
Proof.
  intros Hprev Hgate Hfree Hlist Hdir w1.
  destruct (compress_gate scandir isfile getsize s tree names w Hgate)
    as (w0 & Hd0 & Hc0 & ->).
  rewrite <- Hd0 in Hfree.
  destruct (mkstemp_fresh _ names w0 Hfree) as (r & _ & Hr & ->).
  set (temp := (path_name (target s) +:+ "_") +:+ r) in *.
  rewrite Hprev, Hlist. cbv zeta. unfold write_zip, move. simpl.
  rewrite lookup_insert_eq.
  assert (<[ temp := DFile (Zip entries) ]>
            (<[ temp := DFile (Blob "") ]> (w_dest w0)) !! arcname s
          ≠ Some DDir) as Hdst.
  { destruct (decide (temp = arcname s)) as [<-|Hne].
    - by rewrite lookup_insert_eq.
    - by rewrite !lookup_insert_ne, Hd0. }
  assert ({| w_dest :=
               <[ arcname s := DFile (Zip entries) ]>
                 (delete temp
                    (<[ temp := DFile (Zip entries) ]>
                       (<[ temp := DFile (Blob "") ]> (w_dest w0))));
             w_cache := w_cache w0 |} = w1) as Hw1.
  { unfold w1. rewrite Hc0. f_equal.
    by rewrite insert_insert_eq, delete_insert_id, Hd0. }
  destruct (<[ temp := _ ]> _ !! arcname s) as [[|c]|]; [done| |];
    rewrite Hw1; destruct (attrs s !! "auto_clean") as [flag|]; try done;
    destruct (truthy flag); try done;
    by destruct (auto_clean scandir s w1) as [[[]|e] w2].
Qed.



(** X16. A preview that gets past the config gate leaves its temporary file
    behind: the destination after the run is the one before with one new,
    empty file, under the first free candidate name, whether or not the
    enumeration raised. *)
Theorem preview_leaves_temp scandir isfile getsize s tree names w :
  preview s = true →
  (required_config s = true → is_Some (w_cache w !! cache s)) →
  Exists (λ r, w_dest w !! ((path_name (target s) +:+ "_") +:+ r) = None)
    names →
  let r := compress scandir isfile getsize s tree names w in
  ∃ t, t ∈ names
       ∧ w_dest w !! ((path_name (target s) +:+ "_") +:+ t) = None
       ∧ w_dest r.2
         = <[ (path_name (target s) +:+ "_") +:+ t := DFile (Blob "") ]>
             (w_dest w).
Proof.
  intros Hprev Hgate Hfree r. subst r.
  destruct (compress_gate scandir isfile getsize s tree names w Hgate)
    as (w0 & Hd0 & Hc0 & ->).
  rewrite <- Hd0 in Hfree |- *.
  destruct (mkstemp_fresh _ names w0 Hfree) as (t & Hin & Ht & ->).
  exists t. rewrite Hprev. split_and!; [done..|].
  by destruct (namelist s (target s) None tree).
Qed.

Lemma preview_leaves_temp_witness :
  preview a_gated_preview = true
  ∧ (required_config a_gated_preview = true →
     is_Some (w_cache a_cached_world !! cache a_gated_preview))
  ∧ Exists (λ r, w_dest a_cached_world
                 !! ((path_name (target a_gated_preview) +:+ "_") +:+ r)
                 = None) ["x"]
  ∧ ∃ t, t ∈ ["x"]
         ∧ w_dest a_cached_world
           !! ((path_name (target a_gated_preview) +:+ "_") +:+ t) = None
         ∧ w_dest (compress a_scandir an_isfile a_getsize a_gated_preview
                     a_tree ["x"] a_cached_world).2
           = <[ (path_name (target a_gated_preview) +:+ "_") +:+ t
                := DFile (Blob "") ]> (w_dest a_cached_world).
Proof.
  assert (required_config a_gated_preview = true →
          is_Some (w_cache a_cached_world !! cache a_gated_preview)) as Hgate
    by (intros _; vm_compute; eauto).
  assert (Exists (λ r, w_dest a_cached_world
                       !! ((path_name (target a_gated_preview) +:+ "_")
                           +:+ r) = None) ["x"]) as Hfree
    by (left; reflexivity).
  split_and!; [reflexivity|exact Hgate|exact Hfree|].
  exact (preview_leaves_temp a_scandir an_isfile a_getsize a_gated_preview
           a_tree ["x"] a_cached_world eq_refl Hgate Hfree).
Defined.

Lemma past_gate_not_skipped scandir isfile getsize s tree names w :
  (required_config s = true → is_Some (w_cache w !! cache s)) →
  (compress scandir isfile getsize s tree names w).1 ≠ Ok Skipped.
Proof.
  intros Hgate.
  destruct (compress_gate scandir isfile getsize s tree names w Hgate)
    as (w0 & _ & _ & ->).
  destruct (mkstemp _ names w0) as [[temp|e] w1]; [|done].
  destruct (preview s).
  { by destruct (namelist s (target s) None tree). }
  destruct (namelist s (target s) None tree) as [entries|e]; [|done].
  cbv zeta. destruct (move temp (arcname s) _) as [[[]|e] w3]; [|done].
  destruct (attrs s !! "auto_clean") as [flag|]; [|done].
  destruct (truthy flag); [|done].
  by destruct (auto_clean scandir s w3) as [[[]|e] w4].
Qed.



(** X18. [compress] skips exactly when the config is required and the
    session has no config record yet, and never twice in a row: whatever
    the first call did, a second call of the same session on the world it
    left does not skip. *)
Theorem compress_skips_once scandir isfile getsize s tree tree' names names'
    w :
  ((compress scandir isfile getsize s tree names w).1 = Ok Skipped
   ↔ required_config s = true ∧ w_cache w !! cache s = None)
  ∧ (compress scandir isfile getsize s tree' names'
       (compress scandir isfile getsize s tree names w).2).1 ≠ Ok Skipped.
Proof.
  split.
  - split.
    + intros Hskip. destruct (required_config s) eqn:Hreq.
      * destruct (w_cache w !! cache s) as [r|] eqn:Hr; [|done].
        exfalso. revert Hskip. apply past_gate_not_skipped. eauto.
      * exfalso. revert Hskip. apply past_gate_not_skipped.
        by rewrite Hreq.
    + intros [Hreq Hnone]. unfold compress.
      by rewrite Hreq, Hnone, bool_decide_eq_false_2 by (by intros [? ?]).
  - apply past_gate_not_skipped. intros Hreq.
    rewrite compress_cache, Hreq, lookup_insert_eq. eauto.
Qed.




(** ** [main] *)

(** What [NamedTemporaryFile] does to the destination. *)
Lemma mkstemp_spec prefix names : ∀ w,
  match mkstemp prefix names w with
  | (Ok temp, w') =>
      w_dest w !! temp = None
      ∧ w' = {| w_dest := <[ temp := DFile (Blob "") ]> (w_dest w);
                w_cache := w_cache w |}
  | (Raise _, w') => w' = w
  end.
Proof.
  induction names as [|r names IH]; intros w; simpl; [done|].
  destruct (w_dest w !! (prefix +:+ r)) eqn:Hr; [apply IH|done].
Qed.

(** Without the clean-up, [compress] removes no name from the
    destination. *)
Lemma compress_keeps_names scandir isfile getsize s tree names w flag nm :
  attrs s !! "auto_clean" = Some flag → truthy flag = false →
  is_Some (w_dest w !! nm) →
  is_Some (w_dest (compress scandir isfile getsize s tree names w).2 !! nm).
Proof.
  intros Hflag Hfalse Hnm. unfold compress.
  destruct (required_config s && _); [done|].
  set (w0 := if required_config s then _ else w).
  assert (is_Some (w_dest w0 !! nm)) as Hnm0
    by (unfold w0; by destruct (required_config s)).
  clearbody w0. clear Hnm.
  pose proof (mkstemp_spec (path_name (target s) +:+ "_") names w0) as Hmk.
  destruct (mkstemp _ names w0) as [[temp|e] w1]; [|by subst w1].
  destruct Hmk as [Hfresh ->].
  assert (nm ≠ temp) as Hne by (intros ->; rewrite Hfresh in Hnm0;
                                by destruct Hnm0).
  destruct (preview s).
  { destruct (namelist s (target s) None tree); simpl;
      by rewrite lookup_insert_ne. }
  destruct (namelist s (target s) None tree) as [entries|e]; simpl.
  2:{ by rewrite !lookup_insert_ne. }
  unfold move. simpl. rewrite lookup_insert_eq.
  assert (is_Some (delete temp
                     (<[ temp := DFile (Zip entries) ]>
                        (<[ temp := DFile (Blob "") ]> (w_dest w0))) !! nm))
    as Hdel by (by rewrite lookup_delete_ne, !lookup_insert_ne).
  assert (is_Some (<[ arcname s := DFile (Zip entries) ]>
                     (delete temp
                        (<[ temp := DFile (Zip entries) ]>
                           (<[ temp := DFile (Blob "") ]> (w_dest w0))))
                   !! nm)) as Hins.
  { destruct (decide (arcname s = nm)) as [<-|Hne'].
    - rewrite lookup_insert_eq. eauto.
    - by rewrite lookup_insert_ne. }
  rewrite Hflag, Hfalse.
  by destruct (<[ temp := _ ]> _ !! arcname s) as [[|c]|].
Qed.

Lemma init_forced tgt sv isf arc ac dl pv now w :
  init tgt sv isf arc ac false dl pv now w
  = with_denylist DEFAULT_DENYLIST
      (before_config tgt sv isf arc ac false dl pv now).
Proof. by rewrite init_unfold. Qed.

Lemma init_first tgt sv isf arc ac dl pv now w :
  w_cache w !! (base_name tgt isf arc +:+ ".json") = None →
  init tgt sv isf arc ac true dl pv now w
  = with_denylist DEFAULT_DENYLIST
      (before_config tgt sv isf arc ac true dl pv now).
Proof.
  intros Hnone. rewrite init_unfold. cbv zeta. simpl. by rewrite Hnone.
Qed.

Section MainFacts.
Context (scandir : gmap string dentry → list (string * dentry)).
Context (isfile : string → bool) (getsize : string → N).
Context (tree_of : string → node) (temp_names : nat → list string).
Context (now : date).

Lemma run_forced a js : ∀ k w,
  a_force a = true →
  let r := run scandir isfile getsize tree_of temp_names now a k js w in
  w_cache r.2 = w_cache w
  ∧ ∀ nm, is_Some (w_dest w !! nm) → is_Some (w_dest r.2 !! nm).
Proof.
  induction js as [|[path name] js IH]; intros k w Hforce; simpl; [done|].
  unfold backup_one. rewrite Hforce. simpl negb. rewrite init_forced.
  set (s := with_denylist _ _).
  pose proof (compress_cache scandir isfile getsize s (tree_of path)
                (temp_names k) w) as Hc.
  pose proof (λ nm, compress_keeps_names scandir isfile getsize s
                      (tree_of path) (temp_names k) w (JBool false) nm
                      eq_refl eq_refl) as Hk.
  destruct (compress _ _ _ s _ _ w) as [[o|e] w1]; simpl in Hc, Hk;
    [|by split].
  destruct (IH (S k) w1 Hforce) as [Hc1 Hk1]. split.
  - by rewrite Hc1, Hc.
  - intros nm Hnm. by apply Hk1, Hk.
Qed.

Lemma run_first a js : ∀ k w,
  a_force a = false →
  NoDup (job_cache tree_of <$> js) →
  (∀ j, j ∈ js → w_cache w !! job_cache tree_of j = None) →
  let r := run scandir isfile getsize tree_of temp_names now a k js w in
  r.1 = Ok () ∧ w_dest r.2 = w_dest w
  ∧ (∀ j, j ∈ js →
          w_cache r.2 !! job_cache tree_of j
          = Some (job_record tree_of now a j))
  ∧ (∀ c, c ∉ job_cache tree_of <$> js →
          w_cache r.2 !! c = w_cache w !! c).
Proof.
  induction js as [|[path name] js IH]; intros k w Hforce Hnd Hnone; simpl.
  { split_and!; [done..| |done]. by intros j ?%elem_of_nil. }
  rewrite fmap_cons, NoDup_cons in Hnd. destruct Hnd as [Hj Hnd].
  unfold backup_one. rewrite Hforce. simpl negb.
  rewrite init_first by (apply (Hnone (path, name)); left).
  set (s := with_denylist _ _).
  unfold compress.
  assert (w_cache w !! cache s = None) as Hs
    by (apply (Hnone (path, name)); left).
  rewrite Hs, bool_decide_eq_false_2 by (by intros [? ?]). simpl.
  destruct (IH (S k) {| w_dest := w_dest w;
                        w_cache := <[ cache s := info s ]> (w_cache w) |}
              Hforce Hnd) as (Hok & Hdest & Hrec & Hrest).
  { intros j Hin. simpl. rewrite lookup_insert_ne; [apply Hnone; by right|].
    intros Heq. apply Hj. apply list_elem_of_fmap. exists j.
    split; [|done]. by rewrite <- Heq. }
  split_and!; [done|done| |].
  - intros j [->|Hin]%elem_of_cons; [|by apply Hrec].
    rewrite Hrest by done. simpl.
    change (job_cache tree_of (path, name)) with (cache s).
    by rewrite lookup_insert_eq.
  - intros c Hc. rewrite not_elem_of_cons in Hc.
    destruct Hc as [Hne Hc]. rewrite Hrest by done. simpl.
    by rewrite lookup_insert_ne.
Qed.

End MainFacts.

(** X21. With [--force], [main] never writes a config file and removes
    nothing from the destination: every name the destination held is still
    there after the run, also when a [compress] raised. *)
Theorem main_force_keeps scandir isfile getsize tree_of temp_names now a w :
  a_force a = true →
  let r := main scandir isfile getsize tree_of temp_names now a w in
  w_cache r.2 = w_cache w
  ∧ ∀ nm, is_Some (w_dest w !! nm) → is_Some (w_dest r.2 !! nm).
Proof. intros Hforce. by apply run_forced. Qed.

Lemma main_force_keeps_witness :
  a_force forced_args = true
  ∧ w_cache (main a_scandir an_isfile a_getsize a_tree_of some_temp_names
               a_day forced_args a_spec_world).2
    = w_cache a_spec_world.
Proof.
  split; [reflexivity|].
  exact (proj1 (main_force_keeps a_scandir an_isfile a_getsize a_tree_of
                  some_temp_names a_day forced_args a_spec_world eq_refl)).
Defined.

(** X22. The first run of [main] without [--force], on targets none of
    which has a config file yet and whose config files are different, only
    writes config files: it returns normally, the destination is left as it
    was (no archive, no temporary file), and each target gets the record of
    a fresh session, every other config file staying as it was. *)
Theorem main_first_run scandir isfile getsize tree_of temp_names now a w :
  a_force a = false →
  NoDup (job_cache tree_of <$> jobs a) →
  (∀ j, j ∈ jobs a → w_cache w !! job_cache tree_of j = None) →
  let r := main scandir isfile getsize tree_of temp_names now a w in
  r.1 = Ok () ∧ w_dest r.2 = w_dest w
  ∧ (∀ j, j ∈ jobs a →
          w_cache r.2 !! job_cache tree_of j
          = Some (job_record tree_of now a j))
  ∧ (∀ c, c ∉ job_cache tree_of <$> jobs a →
          w_cache r.2 !! c = w_cache w !! c).
Proof. intros Hforce Hnd Hnone. by apply run_first. Qed.

Lemma main_first_run_witness :
  a_force first_args = false
  ∧ NoDup (job_cache a_tree_of <$> jobs first_args)
  ∧ (∀ j, j ∈ jobs first_args →
          w_cache no_files !! job_cache a_tree_of j = None)
  ∧ (main a_scandir an_isfile a_getsize a_tree_of some_temp_names a_day
       first_args no_files).1 = Ok ().
Proof.
  assert (NoDup (job_cache a_tree_of <$> jobs first_args)) as Hnd.
  { vm_compute. apply NoDup_cons. split.
    - rewrite list_elem_of_singleton. discriminate.
    - apply NoDup_singleton. }
  assert (∀ j, j ∈ jobs first_args →
               w_cache no_files !! job_cache a_tree_of j = None) as Hnone
    by (intros j _; apply lookup_empty).
  split_and!; [reflexivity|exact Hnd|exact Hnone|].
  exact (proj1 (main_first_run a_scandir an_isfile a_getsize a_tree_of
                  some_temp_names a_day first_args no_files eq_refl Hnd
                  Hnone)).
Defined.

(** ** FileEnumerator: a directory comes before its contents *)

Lemma parents_first_nil : parents_first [].
Proof. intros [|a l1] e l2 x Heq; simpl in Heq; congruence. Qed.

Lemma parents_first_cons h t :
  parents_first t → (∀ y, y ∈ t → ¬ inside y.1 h.1) →
  parents_first (h :: t).
Proof.
  intros Ht Hh [|a l1] e l2 x Heq Hx; [by apply elem_of_nil in Hx|].
  injection Heq as <- ->. apply elem_of_cons in Hx as [->|Hx].
  - apply Hh. rewrite elem_of_app. right. left.
  - by eapply Ht.
Qed.

Lemma parents_first_inv h t :
  parents_first (h :: t) →
  parents_first t ∧ ∀ y, y ∈ t → ¬ inside y.1 h.1.
Proof.
  intros H. split.
  - intros l1 e l2 x -> Hx. apply (H (h :: l1) e l2 x); [done|by right].
  - intros y (l1 & l2 & ->)%list_elem_of_split.
    apply (H (h :: l1) y l2 h); [done|left].
Qed.

Lemma parents_first_app a b :
  parents_first a → parents_first b →
  (∀ x y, x ∈ a → y ∈ b → ¬ inside y.1 x.1) →
  parents_first (a ++ b).
Proof.
  induction a as [|h a IH]; intros Ha Hb Hab; [done|].
  apply parents_first_inv in Ha as [Ha Hh]. simpl.
  apply parents_first_cons.
  - apply IH; [done..|]. intros x y Hx. apply Hab. by right.
  - intros y [Hy|Hy]%elem_of_app; [by apply Hh|]. apply Hab; [left|done].
Qed.

Lemma no_sep_sep p : no_sep (p +:+ "/") = false.
Proof.
  induction p as [|c p IH]; [done|]. rewrite append_cons. simpl.
  by rewrite IH, andb_false_r.
Qed.

(** A path that ends in a plain name does not end in a separator. *)
Lemma plain_not_sep a nm p :
  plain nm = true → a +:+ nm ≠ p +:+ "/".
Proof.
  intros [Hne Hsep]%andb_true_iff. revert p.
  induction a as [|c a IH]; intros p.
  - rewrite append_nil_l. intros ->. by rewrite no_sep_sep in Hsep.
  - rewrite append_cons. destruct p as [|c' p].
    + rewrite append_nil_l. intros [= -> Heq].
      destruct a; [|by rewrite append_cons in Heq].
      rewrite append_nil_l in Heq. by subst nm.
    + rewrite append_cons. intros [= -> Heq]. by eapply IH.
Qed.

Lemma tail_app_l (a b : string) : a ≠ "" → tail a → tail (a +:+ b).
Proof. destruct a; [done|]. by rewrite append_cons. Qed.

(** The entries of a child are not inside a directory entry of a child of
    another name. *)
Lemma sibling_outside s path arc c c' l l' x y :
  plain (node_name c) = true → plain (node_name c') = true →
  node_name c ≠ node_name c' →
  namelist s (child_path path c) (Some arc) c = Ok l →
  namelist s (child_path path c') (Some arc) c' = Ok l' →
  x ∈ l → y ∈ l' → ¬ inside y.1 x.1.
Proof.
  intros Hc Hc' Hne Hl Hl' Hx Hy (p & r0 & Hdir & Heq).
  destruct (namelist_under _ _ _ _ _ _ Hl Hx) as (r & Hr & Htl).
  destruct (namelist_under _ _ _ _ _ _ Hl' Hy) as (r' & Hr' & Htl').
  assert (r' ≠ "") as Hr0.
  { intros ->. rewrite Hr', append_nil_r in Hdir. unfold child_path in Hdir.
    rewrite <- append_assoc in Hdir. by eapply plain_not_sep. }
  rewrite Hr, Hr' in Heq. unfold child_path in Heq.
  rewrite !append_assoc in Heq.
  apply (inj (String.app path)), (inj (String.app "/")) in Heq.
  apply andb_true_iff in Hc as [_ Hc], Hc' as [_ Hc'].
  apply no_sep_cancel in Heq; [done..|]. by apply tail_app_l.
Qed.

Lemma collect_parents_first s path arc (cs : list node) : ∀ xs,
  NoDup (node_name <$> cs) →
  Forall (λ c, plain (node_name c) = true) cs →
  Forall (λ c, ∀ l, namelist s (child_path path c) (Some arc) c = Ok l →
               parents_first l) cs →
  collect ((λ c, namelist s (child_path path c) (Some arc) c) <$> cs)
  = Ok xs →
  parents_first xs.
Proof.
  induction cs as [|c cs IH]; intros xs Hnd Hplain Hsub Hxs.
  - injection Hxs as <-. apply parents_first_nil.
  - rewrite fmap_cons, collect_cons in Hxs.
    destruct (namelist s (child_path path c) (Some arc) c) as [l|] eqn:Hl;
      [|done].
    rewrite bind_Ok in Hxs.
    destruct (collect _) as [ys|] eqn:Hys; [|done]. rewrite bind_Ok in Hxs.
    injection Hxs as <-.
    rewrite fmap_cons in Hnd. apply NoDup_cons in Hnd as [Hc Hnd].
    apply Forall_cons in Hplain as [Hpc Hplain], Hsub as [Hlc Hsub].
    apply parents_first_app; [by apply Hlc|by eapply IH|].
    intros x y Hx Hy.
    destruct (collect_elem_of _ _ _ _ Hys Hy) as (c' & l' & Hc' & Hl' & Hel').
    rewrite Forall_forall in Hplain.
    eapply (sibling_outside s path arc c c'); eauto.
    intros Heq. apply Hc. rewrite Heq. by apply list_elem_of_fmap_2.
Qed.

Lemma namelist_parents s n :
  ∀ path parent entries,
    well_named n = true →
    namelist s path parent n = Ok entries → parents_first entries.
Proof.
  induction n as [nm sz|nm|nm ch IH] using node_induction;
    intros path parent entries Hwn Hn.
  - simpl in Hn. destruct (isValid s path false); simpl in Hn;
      injection Hn as <-; [|apply parents_first_nil].
    apply parents_first_cons; [apply parents_first_nil|].
    by intros y ?%elem_of_nil.
  - simpl in Hn. destruct (isValid s path false); simpl in Hn; [done|].
    injection Hn as <-. apply parents_first_nil.
  - destruct (isValid s path true) eqn:Hv;
      [|rewrite namelist_invalid in Hn by done; injection Hn as <-;
        apply parents_first_nil].
    apply well_named_dir in Hwn as (Hnd & Hwn & Hplain).
    rewrite namelist_dir_children in Hn by done. cbv zeta in Hn.
    destruct (collect _) as [xs|] eqn:Hxs; [|done]. rewrite bind_Ok in Hn.
    injection Hn as <-.
    assert (∀ c, c ∈ sorted name_leb (List.filter is_file ch)
                     ++ sorted name_leb (List.filter is_dir ch) → c ∈ ch)
      as Hsub.
    { intros c [Hc|Hc]%elem_of_app;
        by apply elem_of_sorted, elem_of_List_filter in Hc as [Hc _]. }
    rewrite Forall_forall in IH, Hwn, Hplain.
    apply parents_first_cons.
    + eapply collect_parents_first;
        [by apply NoDup_files_folders| | |exact Hxs].
      * apply Forall_forall. intros c Hc. by apply Hplain, Hsub.
      * apply Forall_forall. intros c Hc l Hl. eapply IH; eauto.
    + intros y Hy (p & r0 & _ & Heq). simpl in Heq.
      destruct (collect_elem_of _ _ _ _ Hxs Hy) as (c & l & Hc & Hl & Hel).
      destruct (namelist_under _ _ _ _ _ _ Hl Hel) as (r & Hr & Htl).
      rewrite Hr in Heq. unfold child_path in Heq.
      rewrite !append_assoc in Heq.
      apply (inj (String.app path)) in Heq.
      change "/" with ("/" +:+ "") in Heq at 1.
      apply (inj (String.app "/")) in Heq.
      pose proof (Hplain c (Hsub c Hc)) as [Hne _]%andb_true_iff.
      destruct (node_name c); [done|]. by rewrite append_cons in Heq.
Qed.

(** X23. Over a tree whose entries have distinct plain names, the
    enumeration, and with it the archive, has every directory before its
    contents: no entry comes before the entry of a directory it is
    inside. *)
Theorem namelist_parents_first s n path parent entries l1 e l2 x :
  well_named n = true →
  namelist s path parent n = Ok entries →
  entries = l1 ++ e :: l2 → x ∈ l1 →
  ¬ inside e.1 x.1.
Proof.
  intros Hwn Hn Heq Hx.
  by apply (namelist_parents s n path parent entries Hwn Hn l1 e l2 x).
Qed.

Lemma namelist_parents_first_witness :
  well_named a_tree = true
  ∧ namelist a_filter "/home/u/proj" None a_tree
    = Ok ([("/home/u/proj/", "proj/"); ("/home/u/proj/a.txt", "proj/a.txt");
           ("/home/u/proj/b.txt", "proj/b.txt")]
          ++ ("/home/u/proj/src/", "proj/src/")
             :: [("/home/u/proj/src/lib.py", "proj/src/lib.py");
                 ("/home/u/proj/src/m.py", "proj/src/m.py")])
  ∧ ("/home/u/proj/a.txt", "proj/a.txt")
    ∈ [("/home/u/proj/", "proj/"); ("/home/u/proj/a.txt", "proj/a.txt");
       ("/home/u/proj/b.txt", "proj/b.txt")]
  ∧ ¬ inside ("/home/u/proj/src/", "proj/src/").1
        ("/home/u/proj/a.txt", "proj/a.txt").1.
Proof.
  assert (well_named a_tree = true) as Hwn by (vm_compute; reflexivity).
  assert (namelist a_filter "/home/u/proj" None a_tree
          = Ok ([("/home/u/proj/", "proj/");
                 ("/home/u/proj/a.txt", "proj/a.txt");
                 ("/home/u/proj/b.txt", "proj/b.txt")]
                ++ ("/home/u/proj/src/", "proj/src/")
                   :: [("/home/u/proj/src/lib.py", "proj/src/lib.py");
                       ("/home/u/proj/src/m.py", "proj/src/m.py")])) as Hn
    by (vm_compute; reflexivity).
  assert (("/home/u/proj/a.txt", "proj/a.txt")
          ∈ [("/home/u/proj/", "proj/"); ("/home/u/proj/a.txt", "proj/a.txt");
             ("/home/u/proj/b.txt", "proj/b.txt")]) as Hx
    by (right; left).
  split_and!; [exact Hwn|exact Hn|exact Hx|].
  exact (namelist_parents_first a_filter a_tree "/home/u/proj" None _ _ _ _ _
           Hwn Hn eq_refl Hx).
Defined.

(** X20. The order of the [include] and [exclude] calls does not matter and
    repeating a call changes nothing: the calls commute with each other,
    among themselves and across the two sets, and each is idempotent,
    whether a single pattern or a list is given. *)
Theorem filter_calls_commute (p q : list string + string) (s : session) :
  exclude p (exclude q s) = exclude q (exclude p s)
  ∧ include p (include q s) = include q (include p s)
  ∧ include p (exclude q s) = exclude q (include p s)
  ∧ exclude p (exclude p s) = exclude p s
  ∧ include p (include p s) = include p s.
Proof.
  split_and!; destruct p, q; unfold exclude, include; simpl; f_equal;
    apply set_eq; intros x; rewrite !elem_of_union; tauto.
Qed.

(** X24. A target that its own filter rejects is not an error: the
    enumeration is empty, and a run that gets to the archive publishes an
    archive without members under the archive name, and goes on to the
    clean-up as after any other run. *)
Theorem compress_excluded_target scandir isfile getsize s tree names w flag :
  preview s = false →
  (required_config s = true → is_Some (w_cache w !! cache s)) →
  Exists (λ r, w_dest w !! ((path_name (target s) +:+ "_") +:+ r) = None)
    names →
  isValid s (target s) (is_dir tree) = false →
  w_dest w !! arcname s ≠ Some DDir →
  attrs s !! "auto_clean" = Some flag →
  let w1 :=
    {| w_dest := <[ arcname s := DFile (Zip []) ]> (w_dest w);
       w_cache := if required_config s
                  then <[ cache s := info s ]> (w_cache w)
                  else w_cache w |} in
  namelist s (target s) None tree = Ok []
  ∧ compress scandir isfile getsize s tree names w
    = if truthy flag
      then match auto_clean scandir s w1 with
           | (Ok _, w2) => (Ok Published, w2)
           | (Raise e, w2) => (Raise e, w2)
           end
      else (Ok Published, w1).
Proof.
  intros Hprev Hgate Hfree Hvalid Hdir Hflag w1. subst w1.
  assert (namelist s (target s) None tree = Ok []) as Hlist
    by (by apply namelist_invalid).
  split; [done|].
  by rewrite (compress_run scandir isfile getsize s tree names w []), Hflag.
Qed.

Lemma compress_excluded_target_witness :
  preview (exclude (inr "proj") a_forced) = false
  ∧ (required_config (exclude (inr "proj") a_forced) = true →
     is_Some (w_cache no_files !! cache (exclude (inr "proj") a_forced)))
  ∧ Exists (λ r, w_dest no_files
                 !! ((path_name (target (exclude (inr "proj") a_forced))
                      +:+ "_") +:+ r) = None)
      ["x"]
  ∧ isValid (exclude (inr "proj") a_forced)
      (target (exclude (inr "proj") a_forced)) (is_dir a_tree) = false
  ∧ w_dest no_files !! arcname (exclude (inr "proj") a_forced) ≠ Some DDir
  ∧ namelist (exclude (inr "proj") a_forced)
      (target (exclude (inr "proj") a_forced)) None a_tree = Ok [].
Proof.
  assert (required_config (exclude (inr "proj") a_forced) = true →
          is_Some (w_cache no_files
                   !! cache (exclude (inr "proj") a_forced))) as Hgate
    by (simpl; discriminate).
  assert (Exists (λ r, w_dest no_files
                       !! ((path_name
                              (target (exclude (inr "proj") a_forced))
                            +:+ "_") +:+ r) = None) ["x"]) as Hfree
    by (left; reflexivity).
  assert (isValid (exclude (inr "proj") a_forced)
            (target (exclude (inr "proj") a_forced)) (is_dir a_tree)
          = false) as Hvalid by (vm_compute; reflexivity).
  assert (w_dest no_files !! arcname (exclude (inr "proj") a_forced)
          ≠ Some DDir) as Hdir
    by (vm_compute; discriminate).
  split_and!; [reflexivity|exact Hgate|exact Hfree|exact Hvalid|exact Hdir|].
  exact (proj1 (compress_excluded_target a_scandir an_isfile a_getsize
                  (exclude (inr "proj") a_forced) a_tree ["x"] no_files
                  (JBool false) eq_refl Hgate Hfree Hvalid Hdir eq_refl)).
Defined.

(** ** Console: [__color_path] only decorates *)

Lemma get_last p c :
  String.get (String.length (p +:+ String c "") - 1) (p +:+ String c "")
  = Some c.
Proof.
  induction p as [|a p IH]; [done|]. rewrite append_cons.
  cbn [String.length]. rewrite Nat.sub_1_r. cbn [Nat.pred].
  rewrite length_append in *. cbn [String.length] in *.
  replace (String.length p + 1)%nat with (S (String.length p)) in * by lia.
  cbn [String.get]. rewrite Nat.sub_1_r in IH. exact IH.
Qed.

Lemma split_cons sep s : ∃ w ws, split sep s = w :: ws.
Proof.
  induction s as [|c s (w & ws & IH)]; simpl; [eauto|].
  destruct (Ascii.eqb c sep); [eauto|]. rewrite IH. eauto.
Qed.

Lemma split_snoc_sep sep p :
  split sep (p +:+ String sep "") = split sep p ++ [""].
Proof.
  induction p as [|a p IH].
  - rewrite append_nil_l. simpl. by rewrite Ascii.eqb_refl.
  - rewrite append_cons. simpl. rewrite IH.
    destruct (Ascii.eqb a sep); [done|].
    by destruct (split_cons sep p) as (w & ws & ->).
Qed.

Lemma length_split s : length (split "/" s) = S (count_sep s).
Proof.
  induction s as [|c s IH]; [done|]. simpl.
  destruct (Ascii.eqb c "/"); simpl; [by rewrite IH|].
  destruct (split_cons "/" s) as (w & ws & Hs). rewrite Hs in *. done.
Qed.

Lemma count_sep_app a b : count_sep (a +:+ b) = (count_sep a + count_sep b)%nat.
Proof.
  induction a as [|c a IH]; [done|]. rewrite append_cons. simpl.
  rewrite IH. lia.
Qed.

Lemma join_cons sep x y l :
  join sep (x :: y :: l) = x +:+ sep +:+ join sep (y :: l).
Proof. done. Qed.

Lemma join_split s : join "/" (split "/" s) = s.
Proof.
  induction s as [|c s IH]; [done|]. simpl.
  destruct (split_cons "/" s) as (w & ws & Hs). rewrite Hs in *.
  destruct (Ascii.eqb c "/") eqn:Hc.
  - apply Ascii.eqb_eq in Hc as ->. rewrite join_cons, IH. done.
  - destruct ws as [|w' ws]; simpl in *; [by subst|].
    rewrite append_cons. by f_equal.
Qed.

Lemma join_snoc_app sep l x y :
  join sep (l ++ [x +:+ y]) = join sep (l ++ [x]) +:+ y.
Proof.
  induction l as [|a l IH]; [done|].
  destruct l as [|b l]; simpl in *.
  - by rewrite !append_assoc.
  - rewrite IH. by rewrite !append_assoc.
Qed.

Lemma no_esc_app a b : no_esc (a +:+ b) = no_esc a && no_esc b.
Proof.
  induction a as [|c a IH]; [done|]. rewrite append_cons. simpl.
  by rewrite IH, andb_assoc.
Qed.

Lemma no_esc_split s :
  no_esc s = true → Forall (λ p, no_esc p = true) (split "/" s).
Proof.
  induction s as [|c s IH]; simpl; [by repeat constructor|].
  intros [Hc Hs]%andb_true_iff. specialize (IH Hs).
  destruct (Ascii.eqb c "/"); [by constructor|].
  destruct (split_cons "/" s) as (w & ws & Hsp). rewrite Hsp in *.
  apply Forall_cons in IH as [Hw Hws]. constructor; [|done]. simpl.
  by rewrite Hc, Hw.
Qed.

Lemma shown_plain p rest :
  no_esc p = true → shown false (p +:+ rest) = p +:+ shown false rest.
Proof.
  induction p as [|c p IH]; [done|]. simpl.
  intros [Hc Hp]%andb_true_iff. rewrite !append_cons. simpl.
  apply negb_true_iff in Hc. rewrite Hc. by rewrite IH.
Qed.

Lemma shown_color i rest :
  shown false
    (nth (i mod 3) [bcolors.OKBLUE; bcolors.OKCYAN; bcolors.OKGREEN] ""
     +:+ rest)
  = shown false rest.
Proof.
  pose proof (Nat.mod_upper_bound i 3 ltac:(lia)) as Hlt.
  destruct (i mod 3)%nat as [|[|[|k]]]; [done..|lia].
Qed.

(** The coloured parts, joined and closed, show as the parts joined. *)
Lemma shown_join (g : nat → string) (l : list string) : ∀ (k : nat) t e,
  (∀ i rest, shown false (g i +:+ rest) = shown false rest) →
  Forall (λ p, no_esc p = true) l →
  shown false (join "/" (imap (λ i p, g (k + i)%nat +:+ p) l ++ [t]) +:+ e)
  = join "/" (l ++ [shown false (t +:+ e)]).
Proof.
  induction l as [|x l IH]; intros k t e Hg Hl; [done|].
  apply Forall_cons in Hl as [Hx Hl]. rewrite imap_cons.
  assert (imap ((λ i p, g (k + i)%nat +:+ p) ∘ S) l
          = imap (λ i p, g (S k + i)%nat +:+ p) l) as ->
    by (apply imap_ext; intros i p _; simpl; by rewrite Nat.add_succ_r).
  assert (∀ (a : string) (m : list string) (b : string),
            ∃ y r, m ++ [b] = y :: r) as Hne
    by (intros _ [|y m] b; simpl; eauto).
  destruct (Hne x (imap (λ i p, g (S k + i)%nat +:+ p) l) t)
    as (y & r & Hyr).
  destruct (Hne x l (shown false (t +:+ e))) as (y' & r' & Hyr').
  rewrite <- !app_comm_cons, Hyr, Hyr', !join_cons, <- Hyr, <- Hyr'.
  rewrite !append_assoc, Hg, shown_plain by done. f_equal.
  rewrite append_cons, append_nil_l. simpl. f_equal.
  by rewrite <- (IH (S k) t e Hg Hl).
Qed.

Lemma removelast_take {A} (l : list A) :
  take (length l - 1) l = removelast l.
Proof. by rewrite removelast_firstn_len, Nat.sub_1_r. Qed.

(** X25. [__color_path] only decorates: for a path without escape
    characters the returned text shows as the path itself once the escape
    sequences are taken out, and the depth counter becomes the larger of
    its old value and the number of components of the path (the separators
    of a directory path, one more for a file path). On the empty string the
    method raises [IndexError]. *)
Theorem color_path_shown p c dc :
  no_esc (p +:+ String c "") = true →
  let path := p +:+ String c "" in
  (∃ out,
     color_path path dc
     = Ok (out, Nat.max dc (if Ascii.eqb c "/" then count_sep path
                            else S (count_sep path)))
     ∧ shown false out = path)
  ∧ color_path "" dc = Raise IndexError.
Proof.
  intros Hesc path. split; [|done]. unfold color_path. cbv zeta.
  fold path. unfold path at 1 2. rewrite get_last.
  assert (∀ d n : nat, (if (d <? n)%nat then n else d) = Nat.max d n) as Hmax
    by (intros d n; destruct (Nat.ltb_spec d n); lia).
  change (length [bcolors.OKBLUE; bcolors.OKCYAN; bcolors.OKGREEN])
    with 3%nat.
  destruct (Ascii.eqb c "/") eqn:Hc.
  - apply Ascii.eqb_eq in Hc as ->. unfold path.
    rewrite split_snoc_sep, removelast_last.
    destruct (split_cons "/" p) as (w & ws & Hs).
    assert (split "/" p ≠ []) as Hne by (by rewrite Hs).
    rewrite no_esc_app in Hesc. apply andb_true_iff in Hesc as [Hp _].
    pose proof (no_esc_split p Hp) as Hparts.
    destruct (split "/" p) as [|w0 ws0] eqn:Hs0; [done|].
    rewrite <- Hs0 in *. eexists. split.
    + f_equal. f_equal. rewrite Hmax. f_equal.
      rewrite length_app, length_imap, length_take, length_split,
        count_sep_app. simpl. lia.
    + pose proof (shown_join
                    (λ i, nth (i mod 3)
                            [bcolors.OKBLUE; bcolors.OKCYAN; bcolors.OKGREEN]
                            "")
                    (take (length (split "/" p) - 1) (split "/" p)) 0)
        as Hj.
      simpl in Hj. rewrite Hj; [|apply shown_color|by apply Forall_take].
      rewrite append_assoc, shown_color.
      assert (no_esc (List.last (split "/" p) "") = true) as Hlast.
      { rewrite Forall_forall in Hparts. apply Hparts.
        rewrite (app_removelast_last "" Hne) at 2.
        rewrite elem_of_app. right. left. }
      rewrite append_assoc,
        (shown_plain (List.last (split "/" p) "") _ Hlast).
      change (shown false ("/" +:+ bcolors.ENDC)) with "/".
      rewrite join_snoc_app, removelast_take,
        <- (app_removelast_last "" Hne), join_split. done.
  - destruct (split_cons "/" path) as (w & ws & Hs).
    assert (split "/" path ≠ []) as Hne by (by rewrite Hs).
    pose proof (no_esc_split path Hesc) as Hparts.
    destruct (split "/" path) as [|w0 ws0] eqn:Hs0; [done|].
    rewrite <- Hs0 in *. eexists. split.
    + f_equal. f_equal. rewrite Hmax. f_equal.
      rewrite length_app, length_imap, length_take, length_split.
      simpl. lia.
    + pose proof (shown_join
                    (λ i, nth (i mod 3)
                            [bcolors.OKBLUE; bcolors.OKCYAN; bcolors.OKGREEN]
                            "")
                    (take (length (split "/" path) - 1) (split "/" path)) 0)
        as Hj.
      simpl in Hj. rewrite Hj; [|apply shown_color|by apply Forall_take].
      assert (no_esc (List.last (split "/" path) "") = true) as Hlast.
      { rewrite Forall_forall in Hparts. apply Hparts.
        rewrite (app_removelast_last "" Hne) at 2.
        rewrite elem_of_app. right. left. }
      rewrite append_assoc.
      change (shown false (bcolors.WARNING +:+ ?x)) with (shown false x).
      rewrite (shown_plain (List.last (split "/" path) "") _ Hlast).
      change (shown false bcolors.ENDC) with "".
      rewrite append_nil_r, removelast_take,
        <- (app_removelast_last "" Hne), join_split. done.
Qed.

Lemma color_path_shown_witness :
  no_esc ("proj/src" +:+ String "/" "") = true
  ∧ ∃ out,
      color_path ("proj/src" +:+ String "/" "") 0
      = Ok (out,
            Nat.max 0
              (if Ascii.eqb "/" "/"
               then count_sep ("proj/src" +:+ String "/" "")
               else S (count_sep ("proj/src" +:+ String "/" ""))))
      ∧ shown false out = "proj/src" +:+ String "/" "".
Proof.
  split; [reflexivity|].
  exact (proj1 (color_path_shown "proj/src" "/" 0 eq_refl)).
Defined.
